(** * Live captions: the caption rendering engine

    A shallow embedding of the caption engine of LiveCaptionsOnSmartGlasses
    ([utils/text-wrapping/TranscriptProcessor.ts], [utils/ChineseUtils.ts],
    [convertLineWidth] and the session handlers of [index.ts]),
    followed by the properties of the engine that its specification states.

    JavaScript strings are sequences of UTF-16 code units: a string is a
    [list N], [length] is the number of code units, and every string
    primitive the engine calls ([trim], [charAt], [substring], [join],
    [split], the anchored character-class [replace]) is written out below. *)

From Stdlib Require Import NArith ZArith Lia Ascii String.
From stdpp Require Import base list strings gmap fin_maps.

Local Open Scope nat_scope.

(** ** JavaScript strings *)

Module JsString.

(** A string value: its UTF-16 code units, in order. *)
Abbreviation str := (list N).

(** An ASCII literal as a string value. *)
Definition lit (s : string) : str :=
  map N_of_ascii (list_ascii_of_string s).

Definition SPACE : N := 32%N.
Definition NEWLINE : N := 10%N.

(** WhiteSpace and LineTerminator code units of ECMAScript, the ones
    [String.prototype.trim] removes: TAB, LF, VT, FF, CR, SP, NBSP,
    U+1680, U+2000..U+200A, U+2028, U+2029, U+202F, U+205F, U+3000 and
    U+FEFF. *)
Definition isWhiteSpace (c : N) : bool :=
  ((9 <=? c) && (c <=? 13) || (c =? 32) || (c =? 160) || (c =? 5760)
   || (8192 <=? c) && (c <=? 8202) || (c =? 8232) || (c =? 8233)
   || (c =? 8239) || (c =? 8287) || (c =? 12288) || (c =? 65279))%N.

Fixpoint dropWhile (f : N -> bool) (s : str) : str :=
  match s with
  | [] => []
  | c :: s' => if f c then dropWhile f s' else s
  end.

Definition trimStart (s : str) : str := dropWhile isWhiteSpace s.
Definition trimEnd (s : str) : str := rev (dropWhile isWhiteSpace (rev s)).

(** [s.trim()] *)
Definition trim (s : str) : str := trimEnd (trimStart s).

(** [s.charAt(i)]: the one-unit string at [i], the empty string out of
    range. *)
Definition charAt (s : str) (i : nat) : str :=
  match s !! i with
  | Some c => [c]
  | None => []
  end.

(** [s.substring(0, e)] and [s.substring(b)] for non-negative integer
    indices; both clamp an index beyond the end to the length. *)
Definition substring_to (s : str) (e : nat) : str := take e s.
Definition substring_from (s : str) (b : nat) : str := drop b s.

Definition str_eqb (a b : str) : bool := bool_decide (a = b).

(** [xs.join(sep)] *)
Fixpoint join (sep : str) (xs : list str) : str :=
  match xs with
  | [] => []
  | [x] => x
  | x :: rest => x ++ sep ++ join sep rest
  end.

(** [s.split(sep)] for a one-unit separator: the pieces between the
    separators; the empty string gives one empty piece. *)
Fixpoint split_on (sep : N) (s : str) : list str :=
  match s with
  | [] => [[]]
  | c :: s' =>
      if (c =? sep)%N then [] :: split_on sep s'
      else match split_on sep s' with
           | [] => [[c]]
           | p :: ps => (c :: p) :: ps
           end
  end.

End JsString.
Import JsString.

(** ** utils/ChineseUtils.ts *)

Module ChineseUtils.
Section WithSegmenter.

(** [jieba.cut] of the external package [@node-rs/jieba]: the word
  segmentation of a text. The engine is parametric in it. *)
Variable cut : str -> list str.

(** The test of the character class U+4E00..U+9FA5 on [text]. *)
Definition isChinese (text : str) : bool :=
existsb (fun c => (0x4e00 <=? c) && (c <=? 0x9fa5))%N text.

(** The [for (const word of words)] loop of [findChineseWordBoundary]. *)
Fixpoint boundaryLoop (words : list str) (currentLength position : nat) : nat :=
match words with
| [] => position
| word :: rest =>
    if position <? currentLength + length word then currentLength
    else boundaryLoop rest (currentLength + length word) position
end.

Definition findChineseWordBoundary (text : str) (position : nat) : nat :=
if negb (isChinese text) then position
else boundaryLoop (cut text) 0 position.

End WithSegmenter.
End ChineseUtils.

(** ** utils/text-wrapping/TranscriptProcessor.ts *)

(** What a call does: it returns, it throws, or the model ran out of fuel
    with a loop of the code still running. *)
Inductive outcome (A : Type) : Type :=
| Returns (a : A)
| Throws
| OutOfFuel.
Arguments Returns {A} a.
Arguments Throws {A}.
Arguments OutOfFuel {A}.

(** The transcript text of an event as it reaches [processString]. The
    parameter is declared [string | null]; [handleTranscription] passes
    [transcriptionData.text] of a value typed [any], so [undefined] can
    arrive at run time. *)
Inductive JsText : Type :=
| JNull
| JUndefined
| JString (s : str).

Module TranscriptProcessor.

Record t : Type := mk {
  maxCharsPerLine : nat;
  maxLines : nat;
  lines : list str;
  partialText : str;
  lastUserTranscript : str;
  finalTranscriptHistory : list str;
  maxFinalTranscripts : nat;
  isChinese : bool;
  currentDisplayLines : list str
}.

(** [new TranscriptProcessor(maxCharsPerLine, maxLines, maxFinalTranscripts, isChinese)] *)
Definition new (maxCharsPerLine maxLines maxFinalTranscripts : nat)
    (isChinese : bool) : t :=
  {| maxCharsPerLine := maxCharsPerLine;
     maxLines := maxLines;
     lines := [];
     partialText := [];
     lastUserTranscript := [];
     finalTranscriptHistory := [];
     maxFinalTranscripts := maxFinalTranscripts;
     isChinese := isChinese;
     currentDisplayLines := [] |}.

Definition set_partialText (v : str) (p : t) : t :=
  mk (maxCharsPerLine p) (maxLines p) (lines p) v (lastUserTranscript p)
     (finalTranscriptHistory p) (maxFinalTranscripts p) (isChinese p)
     (currentDisplayLines p).

Definition set_lastUserTranscript (v : str) (p : t) : t :=
  mk (maxCharsPerLine p) (maxLines p) (lines p) (partialText p) v
     (finalTranscriptHistory p) (maxFinalTranscripts p) (isChinese p)
     (currentDisplayLines p).

Definition set_finalTranscriptHistory (v : list str) (p : t) : t :=
  mk (maxCharsPerLine p) (maxLines p) (lines p) (partialText p)
     (lastUserTranscript p) v (maxFinalTranscripts p) (isChinese p)
     (currentDisplayLines p).

Definition set_maxFinalTranscripts (v : nat) (p : t) : t :=
  mk (maxCharsPerLine p) (maxLines p) (lines p) (partialText p)
     (lastUserTranscript p) (finalTranscriptHistory p) v (isChinese p)
     (currentDisplayLines p).

Definition set_currentDisplayLines (v : list str) (p : t) : t :=
  mk (maxCharsPerLine p) (maxLines p) (lines p) (partialText p)
     (lastUserTranscript p) (finalTranscriptHistory p)
     (maxFinalTranscripts p) (isChinese p) v.

Definition set_lines (v : list str) (p : t) : t :=
  mk (maxCharsPerLine p) (maxLines p) v (partialText p)
     (lastUserTranscript p) (finalTranscriptHistory p)
     (maxFinalTranscripts p) (isChinese p) (currentDisplayLines p).

(** [while (xs.length > n) xs.shift()] *)
Definition shiftWhileLonger (n : nat) (xs : list str) : list str :=
  drop (length xs - n) xs.

(** [while (xs.length < n) xs.push("")] *)
Definition pushWhileShorter (n : nat) (xs : list str) : list str :=
  xs ++ replicate (n - length xs) [].

Definition addToTranscriptHistory (transcript : str) (p : t) : t :=
  if str_eqb (trim transcript) [] then p
  else
    set_finalTranscriptHistory
      (shiftWhileLonger (maxFinalTranscripts p)
         (finalTranscriptHistory p ++ [transcript])) p.

Definition getFinalTranscriptHistory (p : t) : list str :=
  finalTranscriptHistory p.

Definition getCombinedTranscriptHistory (p : t) : str :=
  join [SPACE] (finalTranscriptHistory p).

Definition setMaxFinalTranscripts (n : nat) (p : t) : t :=
  let p1 := set_maxFinalTranscripts n p in
  set_finalTranscriptHistory
    (shiftWhileLonger (maxFinalTranscripts p1) (finalTranscriptHistory p1)) p1.

Definition clear (p : t) : t :=
  set_finalTranscriptHistory [] (set_partialText [] (set_lines [] p)).

(** [appendToLines(chunk)]: the chunk joins the last line when the two fit
    the width with a space between them, and starts a new line otherwise;
    then lines are dropped at the front down to [maxLines]. *)
Definition appendToLines (chunk : str) (p : t) : t :=
  let pushed :=
    match rev (lines p) with
    | [] => [chunk]
    | lastLine :: before =>
        let candidate :=
          if str_eqb lastLine [] then chunk else lastLine ++ [SPACE] ++ chunk in
        if length candidate <=? maxCharsPerLine p then rev before ++ [candidate]
        else rev before ++ [lastLine; chunk]
    end in
  set_lines (shiftWhileLonger (maxLines p) pushed) p.

(** [getTranscript()]: the lines, with empty lines added at the end up to
    [maxLines], joined; the lines of the processor are emptied. *)
Definition getTranscript (p : t) : str * t :=
  let allLines := lines p in
  let linesToPad := maxLines p - length allLines in
  (join [NEWLINE] (allLines ++ replicate linesToPad []), set_lines [] p).

Definition getLastUserTranscript (p : t) : str := lastUserTranscript p.

Section WithSegmenter.

Variable cut : str -> list str.

(** [while (splitIndex > 0 && text.charAt(splitIndex) !== " ") splitIndex--] *)
Fixpoint lastSpaceFrom (text : str) (splitIndex : nat) : nat :=
  match splitIndex with
  | 0 => 0
  | S below =>
      if str_eqb (charAt text splitIndex) [SPACE] then splitIndex
      else lastSpaceFrom text below
  end.

(** The split index one iteration of [wrapText] chooses. *)
Definition splitIndexOf (chinese : bool) (text : str) (maxLineLength : nat) : nat :=
  if chinese then ChineseUtils.findChineseWordBoundary cut text maxLineLength
  else
    let splitIndex := lastSpaceFrom text maxLineLength in
    if splitIndex =? 0 then maxLineLength else splitIndex.

(** The [while (text !== "")] loop of [wrapText], run for at most
    [fuel] iterations: the lines pushed so far, and whether the loop
    has ended. *)
Fixpoint wrapLoop (fuel : nat) (chinese : bool) (maxLineLength : nat)
    (text : str) (result : list str) : list str * bool :=
  match fuel with
  | 0 => (result, false)
  | S fuel' =>
      match text with
      | [] => (result, true)
      | _ =>
          if length text <=? maxLineLength then (result ++ [text], true)
          else
            let splitIndex := splitIndexOf chinese text maxLineLength in
            let chunk := trim (substring_to text splitIndex) in
            wrapLoop fuel' chinese maxLineLength
              (trim (substring_from text splitIndex)) (result ++ [chunk])
      end
  end.

Definition wrapText (fuel : nat) (p : t) (text : str) (maxLineLength : nat)
    : option (list str) :=
  match wrapLoop fuel (isChinese p) maxLineLength text [] with
  | (result, true) => Some result
  | (_, false) => None
  end.

(** The tail both branches of [processString] share: wrap, pad to
    [maxLines], drop from the front down to [maxLines], join. *)
Definition renderLines (fuel : nat) (p : t) (combinedText : str)
    : outcome (t * str) :=
  match wrapText fuel p combinedText (maxCharsPerLine p) with
  | None => OutOfFuel
  | Some wrapped =>
      let p' :=
        set_currentDisplayLines
          (shiftWhileLonger (maxLines p)
             (pushWhileShorter (maxLines p) wrapped)) p in
      Returns (p', join [NEWLINE] (currentDisplayLines p'))
  end.

Definition processString (fuel : nat) (p : t) (newText : JsText)
    (isFinal : bool) : outcome (t * str) :=
  match newText with
  | JUndefined => Throws
  | _ =>
      let newText :=
        match newText with
        | JString s => trim s
        | _ => []
        end in
      if negb isFinal then
        let p1 := set_lastUserTranscript newText (set_partialText newText p) in
        let combinedText :=
          getCombinedTranscriptHistory p1 ++ [SPACE] ++ newText in
        renderLines fuel p1 combinedText
      else
        let p1 := set_partialText [] p in
        let p2 := addToTranscriptHistory newText p1 in
        let combinedText := getCombinedTranscriptHistory p2 in
        renderLines fuel p2 combinedText
  end.

End WithSegmenter.

End TranscriptProcessor.

(** Sequencing of calls: a throw or an exhausted loop ends the sequence. *)
#[global] Instance outcome_bind : MBind outcome := λ A B k m,
  match m with
  | Returns a => k a
  | Throws => Throws
  | OutOfFuel => OutOfFuel
  end.

#[global] Instance outcome_ret : MRet outcome := λ A a, Returns a.

(** ** convertLineWidth, of the utils *)

(** The [width] argument: a number or a string. *)
Inductive Width : Type :=
| WNumber (n : nat)
| WString (s : string).

Definition lowerAscii (a : ascii) : ascii :=
  let n := nat_of_ascii a in
  if (65 <=? n) && (n <=? 90) then ascii_of_nat (n + 32) else a.

(** [s.toLowerCase()] on the ASCII range. *)
Fixpoint toLowerCase (s : string) : string :=
  match s with
  | EmptyString => EmptyString
  | String a rest => String (lowerAscii a) (toLowerCase rest)
  end.

Definition convertLineWidth (width : Width) (isHanzi : bool) : nat :=
  match width with
  | WNumber n => n
  | WString w =>
      let w := toLowerCase w in
      if negb isHanzi then
        if String.eqb w "very narrow" then 21
        else if String.eqb w "narrow" then 30
        else if String.eqb w "medium" then 38
        else if String.eqb w "wide" then 44
        else if String.eqb w "very wide" then 52
        else 45
      else
        if String.eqb w "very narrow" then 7
        else if String.eqb w "narrow" then 10
        else if String.eqb w "medium" then 14
        else if String.eqb w "wide" then 18
        else if String.eqb w "very wide" then 21
        else 14
  end.

(** ** index.ts: the session handlers of LiveCaptionsApp *)

Definition MAX_FINAL_TRANSCRIPTS : nat := 30.

(** One call of [session.layouts.showTextWall(text, { view: MAIN, durationMs })]. *)
Record Display : Type := mkDisplay {
  text : str;
  durationMs : option Z
}.

Module TranscriptDebouncer.
Record t : Type := mk {
  lastSentTime : Z;
  timer : option nat
}.
End TranscriptDebouncer.

Module InactivityTimer.
Record t : Type := mk {
  timer : option nat;
  lastActivityTime : Z
}.
End InactivityTimer.

(** The closures handed to [setTimeout], with what each captures. *)
Inductive Callback : Type :=
| DebounceFire (sessionId : string) (transcript : str)
| InactivityFire (sessionId userId : string).

(** A number read from the settings store. *)
Inductive JsNumber : Type :=
| NaN
| Num (z : Z).

(** What [session.settings.get] finds for the three keys the engine reads;
    [None] where the key is unset and the default of the call applies.
    [line_width] holds the value's [toString()]. *)
Record Settings : Type := mkSettings {
  transcribe_language : option string;
  line_width : option string;
  number_of_lines : option JsNumber
}.

Record TranscriptionData : Type := mkData {
  data_text : JsText;
  data_isFinal : bool;
  data_transcribeLanguage : string
}.

Module LiveCaptionsApp.

(** The module-level maps, the maps of the app object, the timer table
    of the event loop and the log of the display sink. *)
Record t : Type := mk {
  userTranscriptProcessors : gmap string TranscriptProcessor.t;
  userActiveLanguages : gmap string string;
  sessionDebouncers : gmap string TranscriptDebouncer.t;
  inactivityTimers : gmap string InactivityTimer.t;
  timers : gmap nat (Z * Callback);
  nextTimer : nat;
  subscriptions : list (string * string);
  shown : list (string * Display)
}.

Definition set_processors (v : gmap string TranscriptProcessor.t) (a : t) : t :=
  mk v (userActiveLanguages a) (sessionDebouncers a) (inactivityTimers a)
     (timers a) (nextTimer a) (subscriptions a) (shown a).

Definition set_languages (v : gmap string string) (a : t) : t :=
  mk (userTranscriptProcessors a) v (sessionDebouncers a) (inactivityTimers a)
     (timers a) (nextTimer a) (subscriptions a) (shown a).

Definition set_debouncers (v : gmap string TranscriptDebouncer.t) (a : t) : t :=
  mk (userTranscriptProcessors a) (userActiveLanguages a) v (inactivityTimers a)
     (timers a) (nextTimer a) (subscriptions a) (shown a).

Definition set_inactivity (v : gmap string InactivityTimer.t) (a : t) : t :=
  mk (userTranscriptProcessors a) (userActiveLanguages a) (sessionDebouncers a) v
     (timers a) (nextTimer a) (subscriptions a) (shown a).

Definition set_timers (v : gmap nat (Z * Callback)) (n : nat) (a : t) : t :=
  mk (userTranscriptProcessors a) (userActiveLanguages a) (sessionDebouncers a)
     (inactivityTimers a) v n (subscriptions a) (shown a).

Definition set_subscriptions (v : list (string * string)) (a : t) : t :=
  mk (userTranscriptProcessors a) (userActiveLanguages a) (sessionDebouncers a)
     (inactivityTimers a) (timers a) (nextTimer a) v (shown a).

Definition set_shown (v : list (string * Display)) (a : t) : t :=
  mk (userTranscriptProcessors a) (userActiveLanguages a) (sessionDebouncers a)
     (inactivityTimers a) (timers a) (nextTimer a) (subscriptions a) v.

(** [setTimeout(callback, delay)] at time [now]: a fresh handle, and the
    callback pending until [now + delay]. *)
Definition setTimeout (callback : Callback) (delay now : Z) (a : t) : nat * t :=
  let id := nextTimer a in
  (id, set_timers (<[id := ((now + delay)%Z, callback)]> (timers a)) (S id) a).

(** [clearTimeout(handle)]: nothing happens for a handle that has fired. *)
Definition clearTimeout (id : nat) (a : t) : t :=
  set_timers (delete id (timers a)) (nextTimer a) a.

Definition showTextWall (sessionId : string) (text : str)
    (durationMs : option Z) (a : t) : t :=
  set_shown (shown a ++ [(sessionId, mkDisplay text durationMs)]) a.

(** The class [.,;:!?] with its six full-width counterparts. *)
Definition isLeadingPunctuation (c : N) : bool :=
  ((c =? 46) || (c =? 44) || (c =? 59) || (c =? 58) || (c =? 33) || (c =? 63)
   || (c =? 0x3002) || (c =? 0xff0c) || (c =? 0xff1b) || (c =? 0xff1a)
   || (c =? 0xff01) || (c =? 0xff1f))%N.

(** [text.replace(/^[...]+/, '').trim()] *)
Definition cleanTranscriptText (text : str) : str :=
  trim (dropWhile isLeadingPunctuation text).

Definition showTranscriptsToUser (sessionId : string) (transcript : str)
    (isFinal : bool) (a : t) : t :=
  showTextWall sessionId (cleanTranscriptText transcript)
    (if isFinal then Some 20000%Z else None) a.

Definition debounceDelay : Z := 400.

(** The debouncer object of a session is the one stored in the map:
    a write to one of its fields is a write to the map entry. *)
Definition writeDebouncer (sessionId : string)
    (f : TranscriptDebouncer.t -> TranscriptDebouncer.t) (a : t) : t :=
  set_debouncers (alter f sessionId (sessionDebouncers a)) a.

Definition debounceAndShowTranscript (now : Z) (sessionId : string)
    (transcript : str) (isFinal : bool) (a : t) : t :=
  let a :=
    match sessionDebouncers a !! sessionId with
    | Some _ => a
    | None =>
        set_debouncers
          (<[sessionId := TranscriptDebouncer.mk 0 None]> (sessionDebouncers a)) a
    end in
  let debouncer :=
    default (TranscriptDebouncer.mk 0 None) (sessionDebouncers a !! sessionId) in
  let a :=
    match TranscriptDebouncer.timer debouncer with
    | Some id =>
        writeDebouncer sessionId
          (fun d => TranscriptDebouncer.mk (TranscriptDebouncer.lastSentTime d) None)
          (clearTimeout id a)
    | None => a
    end in
  if isFinal then
    writeDebouncer sessionId
      (fun d => TranscriptDebouncer.mk now (TranscriptDebouncer.timer d))
      (showTranscriptsToUser sessionId transcript isFinal a)
  else if (debounceDelay <=? now - TranscriptDebouncer.lastSentTime debouncer)%Z then
    writeDebouncer sessionId
      (fun d => TranscriptDebouncer.mk now (TranscriptDebouncer.timer d))
      (showTranscriptsToUser sessionId transcript false a)
  else
    let '(id, a) := setTimeout (DebounceFire sessionId transcript) debounceDelay now a in
    writeDebouncer sessionId
      (fun d => TranscriptDebouncer.mk (TranscriptDebouncer.lastSentTime d) (Some id)) a.

Definition resetInactivityTimer (now : Z) (sessionId userId : string) (a : t) : t :=
  match inactivityTimers a !! sessionId with
  | None => a
  | Some inactivityTimer =>
      let a :=
        match InactivityTimer.timer inactivityTimer with
        | Some id => clearTimeout id a
        | None => a
        end in
      let '(id, a) := setTimeout (InactivityFire sessionId userId) 40000 now a in
      set_inactivity
        (<[sessionId := InactivityTimer.mk (Some id) now]> (inactivityTimers a)) a
  end.

(** The body of the callback of timer [id], run by the event loop at time
    [now].  The debounce callback writes [lastSentTime] into the debouncer
    object its closure captured, not into whatever the map holds for the
    session.  The captured object is the one whose [timer] field holds this
    timer: a timer is stored in the object that set it only, and the field
    of an object is written only after its timer was cleared, so a timer
    that fires is still in the field.  Hence the write reaches the entry of
    the session exactly when the entry holds timer [id]; when [onSession]
    has put a new object in the map since, the write goes to the old
    object, which no map holds any more. *)
Definition runCallback (now : Z) (id : nat) (callback : Callback) (a : t) : t :=
  match callback with
  | DebounceFire sessionId transcript =>
      writeDebouncer sessionId
        (fun d =>
           if bool_decide (TranscriptDebouncer.timer d = Some id)
           then TranscriptDebouncer.mk now (TranscriptDebouncer.timer d)
           else d)
        (showTranscriptsToUser sessionId transcript false a)
  | InactivityFire sessionId userId =>
      match userTranscriptProcessors a !! userId with
      | Some transcriptProcessor =>
          showTextWall sessionId [] (Some 1000%Z)
            (set_processors
               (<[userId := TranscriptProcessor.clear transcriptProcessor]>
                  (userTranscriptProcessors a)) a)
      | None => a
      end
  end.

(** The event loop fires timer [id] at time [now]: a pending timer that
    is due leaves the table and its callback runs; otherwise nothing. *)
Definition fireTimer (now : Z) (id : nat) (a : t) : t :=
  match timers a !! id with
  | Some (due, callback) =>
      if (due <=? now)%Z then
        runCallback now id callback
          (set_timers (delete id (timers a)) (nextTimer a) a)
      else a
  | None => a
  end.

Section WithExternals.

(** [jieba.cut], the Chinese branch of [convertToPinyin] (its calls
    of the external packages) and [languageToLocale] (a table from
    language names to locales, used for the subscription only). *)
Variable cut : str -> list str.
Variable pinyinOfChinese : str -> str.
Variable languageToLocale : string -> string.

(** [convertToPinyin(text)]: a text without Chinese characters comes
    back as it is; so do [null] and [undefined], which the test of the
    guard reads as the words null and undefined. *)
Definition convertToPinyin (text : JsText) : JsText :=
  match text with
  | JString s =>
      if negb (ChineseUtils.isChinese s) then text
      else JString (pinyinOfChinese s)
  | _ => text
  end.

Definition handleTranscription (fuel : nat) (now : Z) (sessionId userId : string)
    (transcriptionData : TranscriptionData) (a : t) : outcome t :=
  let a := resetInactivityTimer now sessionId userId a in
  let a :=
    match userTranscriptProcessors a !! userId with
    | Some _ => a
    | None =>
        set_processors
          (<[userId := TranscriptProcessor.new 30 3 MAX_FINAL_TRANSCRIPTS false]>
             (userTranscriptProcessors a)) a
    end in
  let transcriptProcessor :=
    default (TranscriptProcessor.new 30 3 MAX_FINAL_TRANSCRIPTS false)
            (userTranscriptProcessors a !! userId) in
  let isFinal := data_isFinal transcriptionData in
  let newTranscript := data_text transcriptionData in
  let newTranscript :=
    if bool_decide (userActiveLanguages a !! userId = Some "Chinese (Pinyin)"%string)
    then convertToPinyin newTranscript
    else newTranscript in
  '(transcriptProcessor, textToDisplay) ←
    TranscriptProcessor.processString cut fuel transcriptProcessor newTranscript isFinal;
  let a :=
    set_processors
      (<[userId := transcriptProcessor]> (userTranscriptProcessors a)) a in
  Returns (debounceAndShowTranscript now sessionId textToDisplay isFinal a).

(** [for (const transcript of previousHistory) newProcessor.processString(transcript, true)] *)
Fixpoint replayHistory (fuel : nat) (previousHistory : list str)
    (newProcessor : TranscriptProcessor.t) : outcome TranscriptProcessor.t :=
  match previousHistory with
  | [] => Returns newProcessor
  | transcript :: rest =>
      '(newProcessor, _) ←
        TranscriptProcessor.processString cut fuel newProcessor
          (JString transcript) true;
      replayHistory fuel rest newProcessor
  end.

(** The first lines of [applySettings]: the language of the settings,
    and whether it differs from the one recorded for the user. *)
Definition settingsLanguage (settings : Settings) : string :=
  default "English"%string (transcribe_language settings).

Definition languageChanged (userId language : string) (a : t) : bool :=
  let previousLanguage :=
    match userActiveLanguages a !! userId with
    | Some l => if String.eqb l "" then "none"%string else l
    | None => "none"%string
    end in
  negb (String.eqb previousLanguage "none")
  && negb (String.eqb previousLanguage language).

(** The processor [applySettings] creates from the settings. *)
Definition newProcessorFor (settings : Settings) : TranscriptProcessor.t :=
  let language := settingsLanguage settings in
  let isChineseLanguage := String.eqb language "Chinese (Hanzi)" in
  let lineWidth :=
    default (if isChineseLanguage then "10" else "30")%string
            (line_width settings) in
  let lineWidth := convertLineWidth (WString lineWidth) isChineseLanguage in
  let numberOfLines :=
    match default (Num 3) (number_of_lines settings) with
    | NaN => 3
    | Num z => if (z <? 1)%Z then 3 else Z.to_nat z
    end in
  TranscriptProcessor.new lineWidth numberOfLines MAX_FINAL_TRANSCRIPTS
    isChineseLanguage.

Definition applySettings (fuel : nat) (sessionId userId : string)
    (settings : Settings) (a : t) : outcome t :=
  let language := settingsLanguage settings in
  let locale := languageToLocale language in
  let languageChanged := languageChanged userId language a in
  let previousTranscriptProcessor := userTranscriptProcessors a !! userId in
  let a := set_languages (<[userId := language]> (userActiveLanguages a)) a in
  let newProcessor := newProcessorFor settings in
  newProcessor ←
    match previousTranscriptProcessor with
    | Some previous =>
        if negb languageChanged then
          replayHistory fuel
            (TranscriptProcessor.getFinalTranscriptHistory previous) newProcessor
        else Returns newProcessor
    | None => Returns newProcessor
    end;
  '(newProcessor, formattedTranscript) ←
    TranscriptProcessor.processString cut fuel newProcessor (JString []) true;
  let a :=
    set_processors (<[userId := newProcessor]> (userTranscriptProcessors a)) a in
  let a := showTranscriptsToUser sessionId formattedTranscript true a in
  Returns (set_subscriptions (subscriptions a ++ [(sessionId, locale)]) a).

End WithExternals.

End LiveCaptionsApp.

(** ** index.ts: the session lifecycle *)

Module LiveCaptionsServer.

(** The app together with [activeUserSessions]: for a user, the session id
    of the entry [{ session, sessionId }] stored for them. *)
Record t : Type := mk {
  app : LiveCaptionsApp.t;
  activeUserSessions : gmap string string
}.

Section WithExternals.

Variable cut : str -> list str.
Variable languageToLocale : string -> string.

(** [onSession]: the three maps get their entries for the session, whatever
    they held for it before and without clearing a timer, then the settings
    are applied; the [catch] branch installs the default processor and
    subscribes to en-US.  The exceptions of this model are those of
    [processString], which [applySettings] calls after it has stored the
    language: so in the [catch] branch here the language is stored (the
    processor [applySettings] may have stored is overwritten by the default
    one).  An exception of a call of the framework, or of a setting that is
    [null], is not in the model: with the settings as [Settings] has them,
    [applySettings] does not throw, and only the [try] branch runs. *)
Definition onSession (fuel : nat) (now : Z) (sessionId userId : string)
    (settings : Settings) (s : t) : outcome t :=
  let a := app s in
  let a :=
    LiveCaptionsApp.set_debouncers
      (<[sessionId := TranscriptDebouncer.mk 0 None]>
         (LiveCaptionsApp.sessionDebouncers a)) a in
  let a :=
    LiveCaptionsApp.set_inactivity
      (<[sessionId := InactivityTimer.mk None now]>
         (LiveCaptionsApp.inactivityTimers a)) a in
  let active := <[userId := sessionId]> (activeUserSessions s) in
  match LiveCaptionsApp.applySettings cut languageToLocale fuel sessionId userId
          settings a with
  | Returns a' => Returns (mk a' active)
  | Throws =>
      let a :=
        LiveCaptionsApp.set_languages
          (<[userId := LiveCaptionsApp.settingsLanguage settings]>
             (LiveCaptionsApp.userActiveLanguages a)) a in
      let a :=
        LiveCaptionsApp.set_processors
          (<[userId := TranscriptProcessor.new 30 3 MAX_FINAL_TRANSCRIPTS false]>
             (LiveCaptionsApp.userTranscriptProcessors a)) a in
      Returns
        (mk (LiveCaptionsApp.set_subscriptions
               (LiveCaptionsApp.subscriptions a ++ [(sessionId, "en-US"%string)]) a)
            active)
  | OutOfFuel => OutOfFuel
  end.

End WithExternals.

(** [onStop]: the two timers of the session are cleared and its entries
    deleted; the active session of the user is deleted when it is this
    one; the processor and the language of the user are deleted. *)
Definition onStop (sessionId userId : string) (s : t) : t :=
  let a := app s in
  let a :=
    match LiveCaptionsApp.sessionDebouncers a !! sessionId with
    | Some debouncer =>
        match TranscriptDebouncer.timer debouncer with
        | Some id => LiveCaptionsApp.clearTimeout id a
        | None => a
        end
    | None => a
    end in
  let a :=
    LiveCaptionsApp.set_debouncers
      (delete sessionId (LiveCaptionsApp.sessionDebouncers a)) a in
  let a :=
    match LiveCaptionsApp.inactivityTimers a !! sessionId with
    | Some inactivityTimer =>
        match InactivityTimer.timer inactivityTimer with
        | Some id => LiveCaptionsApp.clearTimeout id a
        | None => a
        end
    | None => a
    end in
  let a :=
    LiveCaptionsApp.set_inactivity
      (delete sessionId (LiveCaptionsApp.inactivityTimers a)) a in
  let active :=
    match activeUserSessions s !! userId with
    | Some activeSessionId =>
        if String.eqb activeSessionId sessionId
        then delete userId (activeUserSessions s)
        else activeUserSessions s
    | None => activeUserSessions s
    end in
  let a :=
    LiveCaptionsApp.set_processors
      (delete userId (LiveCaptionsApp.userTranscriptProcessors a)) a in
  let a :=
    LiveCaptionsApp.set_languages
      (delete userId (LiveCaptionsApp.userActiveLanguages a)) a in
  mk a active.

(** [getActiveSessionForUser(userId)]: [None] is the [null] of the source. *)
Definition getActiveSessionForUser (userId : string) (s : t) : option string :=
  activeUserSessions s !! userId.

End LiveCaptionsServer.

(** ** Vocabulary of the properties *)

(** [lines] is [wrapped] brought to exactly [n] lines: empty lines added
    at the end when there are fewer, lines dropped at the front when there
    are more. *)
Definition fitted (n : nat) (wrapped lines : list str) : Prop :=
  length lines = n
  ∧ (length wrapped ≤ n → lines = wrapped ++ replicate (n - length wrapped) [])
  ∧ (n < length wrapped → lines = drop (length wrapped - n) wrapped).

(** The text a call of [processString] wraps, read off the processor
    after the call: the joined history, followed for a partial transcript
    by a space and the partial text. *)
Definition combinedTextAfter (isFinal : bool) (p : TranscriptProcessor.t) : str :=
  if isFinal then TranscriptProcessor.getCombinedTranscriptHistory p
  else TranscriptProcessor.getCombinedTranscriptHistory p
       ++ [SPACE] ++ TranscriptProcessor.partialText p.

Definition noNewline (s : str) : Prop := Forall (λ c, c ≠ NEWLINE) s.

(** The entries of a history as [processString] writes them: trimmed and
    not blank, and no more of them than the capacity. *)
Definition historyOk (p : TranscriptProcessor.t) : Prop :=
  Forall (λ e, trim e = e ∧ e ≠ []) (TranscriptProcessor.finalTranscriptHistory p)
  ∧ length (TranscriptProcessor.finalTranscriptHistory p)
    ≤ TranscriptProcessor.maxFinalTranscripts p.

(** Every pending debounce timer of a session is the one its debouncer
    holds: at most one is outstanding. *)
Definition debounceTimersOwned (sessionId : string) (a : LiveCaptionsApp.t) : Prop :=
  ∀ id due transcript,
    LiveCaptionsApp.timers a !! id = Some (due, DebounceFire sessionId transcript) →
    ∃ d, LiveCaptionsApp.sessionDebouncers a !! sessionId = Some d
         ∧ TranscriptDebouncer.timer d = Some id.

(** What holds of every state that transcription events, settings changes
    and timers produce: the debounce timers of every session are owned,
    and every processor has a history in the form above with the capacity
    the app gives its processors. *)
Definition appInvariant (a : LiveCaptionsApp.t) : Prop :=
  (∀ sessionId, debounceTimersOwned sessionId a)
  ∧ (∀ userId p,
       LiveCaptionsApp.userTranscriptProcessors a !! userId = Some p →
       historyOk p
       ∧ TranscriptProcessor.maxFinalTranscripts p = MAX_FINAL_TRANSCRIPTS).

(** The states reached from one with no processor and no pending timer by
    transcription events, settings changes and timers that fire.  The
    start of a session is not among the steps: [onSession] replaces the
    two entries of a session and leaves their timers pending, so that
    after it the timers of a session need not be the ones its entries
    hold.  The states all handlers reach are [handled], below. *)
Inductive reachable (cut : str → list str) (pinyinOfChinese : str → str)
    (languageToLocale : string → string) : LiveCaptionsApp.t → Prop :=
| reach_start a :
    LiveCaptionsApp.timers a = ∅ →
    LiveCaptionsApp.userTranscriptProcessors a = ∅ →
    reachable cut pinyinOfChinese languageToLocale a
| reach_transcription a fuel now sessionId userId transcriptionData a' :
    reachable cut pinyinOfChinese languageToLocale a →
    LiveCaptionsApp.handleTranscription cut pinyinOfChinese fuel now sessionId userId
      transcriptionData a = Returns a' →
    reachable cut pinyinOfChinese languageToLocale a'
| reach_settings a fuel sessionId userId settings a' :
    reachable cut pinyinOfChinese languageToLocale a →
    LiveCaptionsApp.applySettings cut languageToLocale fuel sessionId userId settings a
    = Returns a' →
    reachable cut pinyinOfChinese languageToLocale a'
| reach_timer a now id :
    reachable cut pinyinOfChinese languageToLocale a →
    reachable cut pinyinOfChinese languageToLocale (LiveCaptionsApp.fireTimer now id a).

(** Every processor has a history in the form [historyOk] describes and
    the capacity the app gives its processors. *)
Definition processorsOk (a : LiveCaptionsApp.t) : Prop :=
  ∀ userId p,
    LiveCaptionsApp.userTranscriptProcessors a !! userId = Some p →
    historyOk p ∧ TranscriptProcessor.maxFinalTranscripts p = MAX_FINAL_TRANSCRIPTS.

(** The states of the server reached from one with no processor by all
    its handlers: sessions that start, also under an id in use, and stop,
    transcription events, settings changes and timers that fire. *)
Inductive handled (cut : str → list str) (pinyinOfChinese : str → str)
    (languageToLocale : string → string) : LiveCaptionsServer.t → Prop :=
| handled_start s :
    LiveCaptionsApp.userTranscriptProcessors (LiveCaptionsServer.app s) = ∅ →
    handled cut pinyinOfChinese languageToLocale s
| handled_session s fuel now sessionId userId settings s' :
    handled cut pinyinOfChinese languageToLocale s →
    LiveCaptionsServer.onSession cut languageToLocale fuel now sessionId userId
      settings s = Returns s' →
    handled cut pinyinOfChinese languageToLocale s'
| handled_stop s sessionId userId :
    handled cut pinyinOfChinese languageToLocale s →
    handled cut pinyinOfChinese languageToLocale
      (LiveCaptionsServer.onStop sessionId userId s)
| handled_transcription s fuel now sessionId userId transcriptionData a' :
    handled cut pinyinOfChinese languageToLocale s →
    LiveCaptionsApp.handleTranscription cut pinyinOfChinese fuel now sessionId userId
      transcriptionData (LiveCaptionsServer.app s) = Returns a' →
    handled cut pinyinOfChinese languageToLocale
      (LiveCaptionsServer.mk a' (LiveCaptionsServer.activeUserSessions s))
| handled_settings s fuel sessionId userId settings a' :
    handled cut pinyinOfChinese languageToLocale s →
    LiveCaptionsApp.applySettings cut languageToLocale fuel sessionId userId settings
      (LiveCaptionsServer.app s) = Returns a' →
    handled cut pinyinOfChinese languageToLocale
      (LiveCaptionsServer.mk a' (LiveCaptionsServer.activeUserSessions s))
| handled_timer s now id :
    handled cut pinyinOfChinese languageToLocale s →
    handled cut pinyinOfChinese languageToLocale
      (LiveCaptionsServer.mk
         (LiveCaptionsApp.fireTimer now id (LiveCaptionsServer.app s))
         (LiveCaptionsServer.activeUserSessions s)).

(** The code units of a string that are not whitespace, in order. *)
Definition visible (s : str) : str :=
  List.filter (λ c, negb (isWhiteSpace c)) s.

(** [m] occurs in [s] as a run of consecutive units. *)
Definition isInfix (m s : str) : Prop := ∃ before after, s = before ++ m ++ after.

(** Two processors with the same configuration and the same history. *)
Definition sameView (p q : TranscriptProcessor.t) : Prop :=
  TranscriptProcessor.maxCharsPerLine p = TranscriptProcessor.maxCharsPerLine q
  ∧ TranscriptProcessor.maxLines p = TranscriptProcessor.maxLines q
  ∧ TranscriptProcessor.isChinese p = TranscriptProcessor.isChinese q
  ∧ TranscriptProcessor.maxFinalTranscripts p = TranscriptProcessor.maxFinalTranscripts q
  ∧ TranscriptProcessor.finalTranscriptHistory p
    = TranscriptProcessor.finalTranscriptHistory q.

(** The strings a sequence of events gives, one call of [processString]
    after the other on the same processor. *)
Fixpoint processAll (cut : str → list str) (fuel : nat)
    (events : list (JsText * bool)) (p : TranscriptProcessor.t)
    : outcome (TranscriptProcessor.t * list str) :=
  match events with
  | [] => Returns (p, [])
  | (newText, isFinal) :: rest =>
      '(p1, out) ← TranscriptProcessor.processString cut fuel p newText isFinal;
      '(p2, outs) ← processAll cut fuel rest p1;
      Returns (p2, out :: outs)
  end.

(** What the Chinese branch needs of the segmenter on one text: no piece
    of the text that has a Chinese character and is longer than the width
    starts, as the segmenter cuts it, with an empty word or with a word
    longer than the width. *)
Definition firstWordFits (cut : str → list str) (w : nat) (text : str) : Prop :=
  ∀ piece, isInfix piece text →
    ChineseUtils.isChinese piece = true → w < length piece →
    match cut piece with
    | [] => True
    | first :: _ => 1 ≤ length first ≤ w
    end.

(** Every pending debounce timer of a session is due no earlier than one
    throttle interval after the session's last display. *)
Definition debounceSpaced (sessionId : string) (a : LiveCaptionsApp.t) : Prop :=
  ∀ id due transcript d,
    LiveCaptionsApp.timers a !! id = Some (due, DebounceFire sessionId transcript) →
    LiveCaptionsApp.sessionDebouncers a !! sessionId = Some d →
    (TranscriptDebouncer.lastSentTime d + LiveCaptionsApp.debounceDelay ≤ due)%Z.

(** Every pending inactivity timer of a session is the one its entry of
    [inactivityTimers] holds. *)
Definition inactivityTimersOwned (sessionId : string) (a : LiveCaptionsApp.t) : Prop :=
  ∀ id due userId,
    LiveCaptionsApp.timers a !! id = Some (due, InactivityFire sessionId userId) →
    ∃ it, LiveCaptionsApp.inactivityTimers a !! sessionId = Some it
          ∧ InactivityTimer.timer it = Some id.

(** *** Stand-ins for the external packages, to run the engine *)


Definition isLatinAlnum (c : N) : bool :=
  ((48 <=? c) && (c <=? 57) || (65 <=? c) && (c <=? 90)
   || (97 <=? c) && (c <=? 122))%N.

(** A segmenter that keeps a run of ASCII letters and digits as one word
    and every other code unit as a word of its own: what [jieba.cut]
    returns for a text none of whose words is in its dictionary. *)
Fixpoint latinRunCut (s : str) : list str :=
  match s with
  | [] => []
  | c :: s' =>
      let rest := latinRunCut s' in
      if isLatinAlnum c then
        match head s', rest with
        | Some c', w :: ws =>
            if isLatinAlnum c' then (c :: w) :: ws else [c] :: rest
        | _, _ => [c] :: rest
        end
      else [c] :: rest
  end.

Definition noPinyin (s : str) : str := s.
Definition localeEnUS (language : string) : string := "en-US".

Definition emptyApp : LiveCaptionsApp.t :=
  LiveCaptionsApp.mk ∅ ∅ ∅ ∅ ∅ 0 [] [].

(** A session with a three-line processor that holds one final
    transcript, and its inactivity timer not yet set. *)
Definition idleSession : LiveCaptionsApp.t :=
  LiveCaptionsApp.mk
    {[ "u"%string := TranscriptProcessor.mk 30 3 [] [] [] [lit "hello"] 30 false
                       [lit "hello"; []; []] ]}
    {[ "u"%string := "English"%string ]} ∅
    {[ "s"%string := InactivityTimer.mk None 0 ]} ∅ 0 [] [].


(** A change of language while a partial transcript waits on the
    debounce timer: two partial transcripts at 1000 and 1100 for a user
    whose language is English and whose history holds one transcript, then
    the language of the settings becomes Spanish. *)
Definition languageChangeWhilePending : outcome LiveCaptionsApp.t :=
  a1 ← LiveCaptionsApp.handleTranscription latinRunCut noPinyin 50 1000 "s" "u"
         (mkData (JString (lit "good")) false "en-US") idleSession;
  a2 ← LiveCaptionsApp.handleTranscription latinRunCut noPinyin 50 1100 "s" "u"
         (mkData (JString (lit "good day")) false "en-US") a1;
  LiveCaptionsApp.applySettings latinRunCut localeEnUS 50 "s" "u"
    (mkSettings (Some "Spanish"%string) None None) a2.

(** * Properties *)

(** ** Strings *)

Section StringFacts.

Lemma dropWhile_length f (s : str) : length (dropWhile f s) ≤ length s.
Proof.
  induction s as [|c s IH]; simpl; [lia|].
  destruct (f c); simpl; lia.
Qed.

Lemma dropWhile_suffix f (s : str) : ∃ pre, s = pre ++ dropWhile f s.
Proof.
  induction s as [|c s [pre IH]]; simpl.
  - by exists [].
  - destruct (f c).
    + exists (c :: pre). simpl. by rewrite <- IH.
    + by exists [].
Qed.

Lemma dropWhile_head_false f (s : str) c rest :
  dropWhile f s = c :: rest → f c = false.
Proof.
  induction s as [|x s IH]; simpl; [done|].
  destruct (f x) eqn:E; [done|]. intros [= -> _]. done.
Qed.

Lemma dropWhile_id f (s : str) c rest :
  s = c :: rest → f c = false → dropWhile f s = s.
Proof. intros -> H. simpl. by rewrite H. Qed.

Lemma dropWhile_idem f (s : str) : dropWhile f (dropWhile f s) = dropWhile f s.
Proof.
  destruct (dropWhile f s) as [|c rest] eqn:E; [done|].
  apply dropWhile_head_false in E as Hc. simpl. by rewrite Hc.
Qed.

Lemma trimEnd_prefix (s : str) : ∃ suf, s = trimEnd s ++ suf.
Proof.
  unfold trimEnd. destruct (dropWhile_suffix isWhiteSpace (rev s)) as [pre H].
  exists (rev pre). rewrite <- rev_app_distr, <- H. by rewrite rev_involutive.
Qed.

Lemma trimEnd_length (s : str) : length (trimEnd s) ≤ length s.
Proof.
  unfold trimEnd. rewrite length_rev.
  etrans; [apply dropWhile_length|]. by rewrite length_rev.
Qed.

Lemma trimStart_length (s : str) : length (trimStart s) ≤ length s.
Proof. apply dropWhile_length. Qed.

Lemma trim_length (s : str) : length (trim s) ≤ length s.
Proof.
  unfold trim. etrans; [apply trimEnd_length|]. apply trimStart_length.
Qed.

Lemma trimEnd_idem (s : str) : trimEnd (trimEnd s) = trimEnd s.
Proof.
  unfold trimEnd. rewrite rev_involutive. by rewrite dropWhile_idem.
Qed.

(** Trimming the end of a string that starts with a visible unit leaves
    the start alone. *)
Lemma trimStart_trimEnd (s : str) :
  trimStart s = s → trimStart (trimEnd s) = trimEnd s.
Proof.
  intros Hs. destruct (trimEnd s) as [|c rest] eqn:E; [done|].
  destruct (trimEnd_prefix s) as [suf Hsuf]. rewrite E in Hsuf.
  unfold trimStart in *. rewrite Hsuf in Hs. simpl in Hs.
  simpl. destruct (isWhiteSpace c) eqn:Hc; [|done].
  exfalso.
  pose proof (dropWhile_length isWhiteSpace (rest ++ suf)) as Hlen.
  rewrite Hs in Hlen. simpl in Hlen. lia.
Qed.

Lemma trimStart_idem (s : str) : trimStart (trimStart s) = trimStart s.
Proof. apply dropWhile_idem. Qed.

Lemma trim_idem (s : str) : trim (trim s) = trim s.
Proof.
  unfold trim.
  rewrite (trimStart_trimEnd (trimStart s)); [|apply trimStart_idem].
  apply trimEnd_idem.
Qed.

Lemma trim_nil : trim [] = [].
Proof. reflexivity. Qed.

Lemma str_eqb_true (a b : str) : str_eqb a b = true ↔ a = b.
Proof. unfold str_eqb. apply bool_decide_eq_true. Qed.

Lemma str_eqb_false (a b : str) : str_eqb a b = false ↔ a ≠ b.
Proof. unfold str_eqb. apply bool_decide_eq_false. Qed.

End StringFacts.

(** ** The wrap loop *)

Section WrapFacts.

Import TranscriptProcessor.
Variable cut : str → list str.

Lemma boundaryLoop_le words currentLength position :
  currentLength ≤ position →
  ChineseUtils.boundaryLoop words currentLength position ≤ position.
Proof.
  revert currentLength.
  induction words as [|word rest IH]; intros cur Hcur; simpl; [done|].
  destruct (Nat.ltb_spec position (cur + length word)); [done|].
  apply IH. lia.
Qed.

Lemma findChineseWordBoundary_le text position :
  ChineseUtils.findChineseWordBoundary cut text position ≤ position.
Proof.
  unfold ChineseUtils.findChineseWordBoundary.
  destruct (negb _); [done|]. apply boundaryLoop_le. lia.
Qed.

Lemma lastSpaceFrom_le text i : lastSpaceFrom text i ≤ i.
Proof.
  induction i as [|i IH]; simpl; [done|].
  destruct (str_eqb _ _); lia.
Qed.

(** A positive index the backward scan stops at holds a space. *)
Lemma lastSpaceFrom_space text i :
  0 < lastSpaceFrom text i → text !! lastSpaceFrom text i = Some SPACE.
Proof.
  induction i as [|i IH]; simpl; [lia|].
  destruct (str_eqb _ _) eqn:E; [|done].
  intros _. apply str_eqb_true in E. unfold charAt in E.
  destruct (text !! S i); by inversion E.
Qed.

(** Without a space at the indices 1..i the backward scan reaches 0. *)
Lemma lastSpaceFrom_none text i :
  (∀ j, 1 ≤ j ≤ i → text !! j ≠ Some SPACE) → lastSpaceFrom text i = 0.
Proof.
  induction i as [|i IH]; intros H; simpl; [done|].
  destruct (str_eqb _ _) eqn:E.
  - apply str_eqb_true in E. unfold charAt in E.
    destruct (text !! S i) as [c|] eqn:Hc; [|done].
    inversion E; subst. exfalso. apply (H (S i)); [lia|done].
  - apply IH. intros j Hj. apply H. lia.
Qed.

Lemma splitIndexOf_le chinese text w : splitIndexOf cut chinese text w ≤ w.
Proof.
  unfold splitIndexOf. destruct chinese.
  - apply findChineseWordBoundary_le.
  - destruct (Nat.eqb_spec (lastSpaceFrom text w) 0); [done|].
    apply lastSpaceFrom_le.
Qed.

Lemma splitIndexOf_whitespace_pos text w :
  0 < w → 0 < splitIndexOf cut false text w.
Proof.
  intros Hw. unfold splitIndexOf.
  destruct (Nat.eqb_spec (lastSpaceFrom text w) 0); lia.
Qed.

Lemma chunk_length text i : length (trim (substring_to text i)) ≤ i.
Proof.
  etrans; [apply trim_length|]. unfold substring_to.
  rewrite length_take. lia.
Qed.

Lemma rest_length text i :
  length (trim (substring_from text i)) ≤ length text - i.
Proof.
  etrans; [apply trim_length|]. unfold substring_from.
  by rewrite length_drop.
Qed.

(** Every line the loop has pushed fits the width, whether or not the
    loop has ended. *)
Lemma wrapLoop_widths fuel chinese w text result :
  Forall (λ line : str, length line ≤ w) result →
  Forall (λ line : str, length line ≤ w) (wrapLoop cut fuel chinese w text result).1.
Proof.
  revert text result.
  induction fuel as [|fuel IH]; intros text result Hres; simpl; [done|].
  destruct text as [|c text]; [done|].
  destruct (Nat.leb_spec (length (c :: text)) w) as [Hle|Hgt]; simpl.
  - apply Forall_app. split; [done|]. by apply Forall_singleton.
  - apply IH. apply Forall_app. split; [done|].
    apply Forall_singleton.
    etrans; [apply chunk_length|]. apply splitIndexOf_le.
Qed.

(** In whitespace mode each iteration shortens the text: the loop ends
    within [length text + 1] iterations. *)
Lemma wrapLoop_whitespace_ends fuel w text result :
  0 < w → length text < fuel →
  (wrapLoop cut fuel false w text result).2 = true.
Proof.
  intros Hw. revert text result.
  induction fuel as [|fuel IH]; intros text result Hfuel; [lia|].
  cbn [wrapLoop]. destruct text as [|c text]; [done|].
  destruct (Nat.leb_spec (length (c :: text)) w) as [Hle|Hgt]; [done|].
  apply IH.
  pose proof (splitIndexOf_whitespace_pos (c :: text) w Hw) as Hpos.
  pose proof (rest_length (c :: text) (splitIndexOf cut false (c :: text) w)).
  lia.
Qed.

(** More fuel does not change the result of a loop that has ended. *)
Lemma wrapLoop_more_fuel fuel fuel' chinese w text result :
  fuel ≤ fuel' →
  (wrapLoop cut fuel chinese w text result).2 = true →
  wrapLoop cut fuel' chinese w text result = wrapLoop cut fuel chinese w text result.
Proof.
  revert fuel' text result.
  induction fuel as [|fuel IH]; intros fuel' text result Hle Hend; [done|].
  destruct fuel' as [|fuel']; [lia|].
  simpl in *. destruct text as [|c text]; [done|].
  destruct (length (c :: text) <=? w); [done|].
  apply IH; [lia|done].
Qed.

Lemma wrapText_whitespace_returns p text w :
  isChinese p = false → 0 < w →
  ∃ wrapped, wrapText cut (S (length text)) p text w = Some wrapped.
Proof.
  intros Hp Hw. unfold wrapText. rewrite Hp.
  pose proof (wrapLoop_whitespace_ends (S (length text)) w text [] Hw) as H.
  destruct (wrapLoop cut (S (length text)) false w text []) as [r b].
  simpl in H. rewrite H; [|lia]. by exists r.
Qed.

Lemma wrapText_more_fuel fuel fuel' p text w wrapped :
  fuel ≤ fuel' →
  wrapText cut fuel p text w = Some wrapped →
  wrapText cut fuel' p text w = Some wrapped.
Proof.
  unfold wrapText. intros Hle H.
  destruct (wrapLoop cut fuel (isChinese p) w text []) as [r b] eqn:E.
  destruct b; [|done].
  rewrite (wrapLoop_more_fuel fuel fuel'); [|done|by rewrite E].
  by rewrite E.
Qed.

Lemma wrapText_widths fuel p text w wrapped :
  wrapText cut fuel p text w = Some wrapped →
  Forall (λ line : str, length line ≤ w) wrapped.
Proof.
  unfold wrapText. intros H.
  pose proof (wrapLoop_widths fuel (isChinese p) w text [] (Forall_nil_2 _)) as Hw.
  destruct (wrapLoop cut fuel (isChinese p) w text []) as [r b].
  destruct b; [|done]. by inversion H; subst.
Qed.

(** A text longer than the width with no space at the indices 1..w is
    cut at the width. *)
Lemma wrapLoop_force_split fuel w text result :
  w < length text →
  (∀ j, 1 ≤ j ≤ w → text !! j ≠ Some SPACE) →
  wrapLoop cut (S fuel) false w text result
  = wrapLoop cut fuel false w (trim (substring_from text w))
      (result ++ [trim (substring_to text w)]).
Proof.
  intros Hlen Hnone. simpl.
  destruct text as [|c text]; [simpl in Hlen; lia|].
  destruct (Nat.leb_spec (length (c :: text)) w); [lia|].
  unfold splitIndexOf. rewrite (lastSpaceFrom_none _ _ Hnone). done.
Qed.

(** In Chinese mode, a trimmed text whose first word is longer than the
    width is never shortened: the loop pushes an empty line and goes on
    with the same text. *)
Lemma wrapLoop_chinese_stuck fuel w text word rest result :
  ChineseUtils.isChinese text = true →
  trim text = text →
  cut text = word :: rest →
  w < length word → w < length text →
  wrapLoop cut fuel true w text result = (result ++ replicate fuel [], false).
Proof.
  intros Hch Htrim Hcut Hword Hlen. revert result.
  induction fuel as [|fuel IH]; intros result; cbn [wrapLoop replicate].
  - by rewrite app_nil_r.
  - destruct text as [|c tl] eqn:Etext; [simpl in Hlen; lia|].
    rewrite <- Etext in *.
    destruct (Nat.leb_spec (length text) w); [lia|].
    assert (splitIndexOf cut true text w = 0) as ->.
    { unfold splitIndexOf, ChineseUtils.findChineseWordBoundary.
      rewrite Hch, Hcut. simpl.
      destruct (Nat.ltb_spec w (length word)); [done|lia]. }
    unfold substring_to, substring_from. rewrite take_0, drop_0, Htrim.
    rewrite IH. by rewrite <- app_assoc.
Qed.

End WrapFacts.

(** ** Joining and splitting lines *)

Section LineFacts.

Import TranscriptProcessor.

Lemma split_on_no_sep sep (x : str) : sep ∉ x → split_on sep x = [x].
Proof.
  induction x as [|c x IH]; intros Hx; simpl; [done|].
  apply not_elem_of_cons in Hx as [Hc Hx].
  destruct (N.eqb_spec c sep); [congruence|].
  by rewrite (IH Hx).
Qed.

Lemma split_on_app sep (x rest : str) :
  sep ∉ x → split_on sep (x ++ sep :: rest) = x :: split_on sep rest.
Proof.
  induction x as [|c x IH]; intros Hx; simpl.
  - by rewrite N.eqb_refl.
  - apply not_elem_of_cons in Hx as [Hc Hx].
    destruct (N.eqb_spec c sep); [congruence|].
    by rewrite (IH Hx).
Qed.

(** Splitting the join of separator-free lines gives the lines back. *)
Lemma split_on_join sep (ls : list str) :
  ls ≠ [] → Forall (λ l, sep ∉ l) ls → split_on sep (join [sep] ls) = ls.
Proof.
  induction ls as [|x ls IH]; intros Hne Hall; [done|].
  apply Forall_cons in Hall as [Hx Hls].
  destruct ls as [|y ls].
  - simpl. by apply split_on_no_sep.
  - change (join [sep] (x :: y :: ls)) with (x ++ sep :: join [sep] (y :: ls)).
    rewrite split_on_app by done. f_equal. by apply IH.
Qed.

Lemma join_Forall (P : N → Prop) sep (ls : list str) :
  Forall P sep → Forall (Forall P) ls → Forall P (join sep ls).
Proof.
  intros Hsep. induction ls as [|x ls IH]; intros Hall; [constructor|].
  apply Forall_cons in Hall as [Hx Hls].
  destruct ls as [|y ls]; [done|].
  change (join sep (x :: y :: ls)) with (x ++ sep ++ join sep (y :: ls)).
  rewrite !Forall_app. auto.
Qed.

Lemma dropWhile_Forall (P : N → Prop) f (s : str) :
  Forall P s → Forall P (dropWhile f s).
Proof.
  induction s as [|c s IH]; intros H; simpl; [done|].
  destruct (f c); [|done]. apply IH. by apply Forall_cons in H as [_ H].
Qed.

Lemma trim_Forall (P : N → Prop) (s : str) : Forall P s → Forall P (trim s).
Proof.
  intros H. unfold trim, trimEnd, trimStart.
  apply Forall_rev, dropWhile_Forall, Forall_rev. by apply dropWhile_Forall.
Qed.

(** The lines the loop pushes are made of units of the text. *)
Lemma wrapLoop_Forall cut (P : N → Prop) fuel chinese w text result :
  Forall P text → Forall (Forall P) result →
  Forall (Forall P) (wrapLoop cut fuel chinese w text result).1.
Proof.
  revert text result.
  induction fuel as [|fuel IH]; intros text result Htext Hres; simpl; [done|].
  destruct text as [|c text]; [done|].
  destruct (length (c :: text) <=? w); simpl.
  - apply Forall_app. split; [done|]. by apply Forall_singleton.
  - apply IH.
    + apply trim_Forall. unfold substring_from. by apply Forall_drop.
    + apply Forall_app. split; [done|]. apply Forall_singleton.
      apply trim_Forall. unfold substring_to. by apply Forall_take.
Qed.

Lemma wrapText_Forall cut (P : N → Prop) fuel p text w wrapped :
  Forall P text → wrapText cut fuel p text w = Some wrapped →
  Forall (Forall P) wrapped.
Proof.
  unfold wrapText. intros Htext H.
  pose proof (wrapLoop_Forall cut P fuel (isChinese p) w text [] Htext
                (Forall_nil_2 _)) as Hall.
  destruct (wrapLoop cut fuel (isChinese p) w text []) as [r b].
  destruct b; [|done]. by inversion H; subst.
Qed.

Lemma shiftWhileLonger_length n (xs : list str) :
  length (shiftWhileLonger n xs) = length xs `min` n.
Proof. unfold shiftWhileLonger. rewrite length_drop. lia. Qed.

Lemma pushWhileShorter_length n (xs : list str) :
  length (pushWhileShorter n xs) = length xs `max` n.
Proof.
  unfold pushWhileShorter. rewrite length_app, length_replicate. lia.
Qed.

(** The two loops after the wrap bring the lines to [n] lines. *)
Lemma fitted_loops n (wrapped : list str) :
  fitted n wrapped (shiftWhileLonger n (pushWhileShorter n wrapped)).
Proof.
  unfold fitted. split; [|split].
  - rewrite shiftWhileLonger_length, pushWhileShorter_length. lia.
  - intros Hle. unfold shiftWhileLonger.
    rewrite pushWhileShorter_length.
    replace (length wrapped `max` n - n) with 0 by lia.
    by rewrite drop_0.
  - intros Hlt. unfold shiftWhileLonger, pushWhileShorter.
    replace (n - length wrapped) with 0 by lia.
    simpl. by rewrite app_nil_r.
Qed.

Lemma fitted_Forall (P : str → Prop) n wrapped lines :
  fitted n wrapped lines → P [] → Forall P wrapped → Forall P lines.
Proof.
  intros (_ & Hpad & Hdrop) Hnil Hall.
  destruct (decide (length wrapped ≤ n)) as [Hle|Hgt].
  - rewrite (Hpad Hle). apply Forall_app. split; [done|].
    by apply Forall_replicate.
  - rewrite Hdrop by lia. by apply Forall_drop.
Qed.

End LineFacts.

(** ** processString *)

Section ProcessFacts.

Import TranscriptProcessor.
Variable cut : str → list str.

Lemma renderLines_returns fuel p combined p' out :
  renderLines cut fuel p combined = Returns (p', out) →
  ∃ wrapped,
    wrapText cut fuel p combined (maxCharsPerLine p) = Some wrapped
    ∧ p' = set_currentDisplayLines
             (shiftWhileLonger (maxLines p) (pushWhileShorter (maxLines p) wrapped)) p
    ∧ out = join [NEWLINE] (currentDisplayLines p').
Proof.
  unfold renderLines. intros H.
  destruct (wrapText cut fuel p combined (maxCharsPerLine p)) as [wrapped|]; [|done].
  exists wrapped. by inversion H.
Qed.

Lemma renderLines_whitespace fuel p combined :
  isChinese p = false → 0 < maxCharsPerLine p → length combined < fuel →
  ∃ p' out, renderLines cut fuel p combined = Returns (p', out).
Proof.
  intros Hch Hw Hfuel. unfold renderLines.
  destruct (wrapText_whitespace_returns cut p combined _ Hch Hw) as [wrapped Hwr].
  assert (S (length combined) ≤ fuel) as Hle by lia.
  rewrite (wrapText_more_fuel cut _ fuel _ _ _ _ Hle Hwr).
  eauto.
Qed.

Lemma renderLines_more_fuel fuel fuel' p combined r :
  fuel ≤ fuel' →
  renderLines cut fuel p combined = Returns r →
  renderLines cut fuel' p combined = Returns r.
Proof.
  unfold renderLines. intros Hle H.
  destruct (wrapText cut fuel p combined (maxCharsPerLine p)) as [wrapped|] eqn:E;
    [|done].
  by rewrite (wrapText_more_fuel cut _ _ _ _ _ _ Hle E).
Qed.

Lemma processString_more_fuel fuel fuel' p newText isFinal r :
  fuel ≤ fuel' →
  processString cut fuel p newText isFinal = Returns r →
  processString cut fuel' p newText isFinal = Returns r.
Proof.
  unfold processString. intros Hle.
  destruct newText; [|done|]; destruct (negb isFinal);
    by apply renderLines_more_fuel.
Qed.

Lemma addToTranscriptHistory_fields transcript p :
  maxCharsPerLine (addToTranscriptHistory transcript p) = maxCharsPerLine p
  ∧ maxLines (addToTranscriptHistory transcript p) = maxLines p
  ∧ isChinese (addToTranscriptHistory transcript p) = isChinese p
  ∧ maxFinalTranscripts (addToTranscriptHistory transcript p) = maxFinalTranscripts p
  ∧ partialText (addToTranscriptHistory transcript p) = partialText p.
Proof. unfold addToTranscriptHistory. by destruct (str_eqb _ _). Qed.

(** In whitespace mode with a positive width every call with a text
    other than [undefined] returns. *)
Lemma processString_whitespace_returns p newText isFinal :
  newText ≠ JUndefined → isChinese p = false → 0 < maxCharsPerLine p →
  ∃ fuel p' out, processString cut fuel p newText isFinal = Returns (p', out).
Proof.
  intros Hdef Hch Hw.
  assert (∀ q c, isChinese q = isChinese p →
                 maxCharsPerLine q = maxCharsPerLine p →
                 ∃ fuel p' out, renderLines cut fuel q c = Returns (p', out))
    as Hrender.
  { intros q c Hq Hwq.
    destruct (renderLines_whitespace (S (length c)) q c) as (p' & out & H);
      [congruence|lia|lia|].
    eauto. }
  unfold processString.
  destruct newText as [| |s]; [|done|]; destruct (negb isFinal);
    apply Hrender; try done;
    match goal with
    | |- context [addToTranscriptHistory ?x ?q] =>
        destruct (addToTranscriptHistory_fields x q) as (Ha & _ & Hb & _);
          by rewrite ?Ha, ?Hb
    end.
Qed.

Lemma addToTranscriptHistory_blank transcript p :
  trim transcript = [] → addToTranscriptHistory transcript p = p.
Proof.
  intros H. unfold addToTranscriptHistory.
  by rewrite (proj2 (str_eqb_true _ _) H).
Qed.

Lemma addToTranscriptHistory_nonblank transcript p :
  trim transcript ≠ [] →
  finalTranscriptHistory (addToTranscriptHistory transcript p)
  = shiftWhileLonger (maxFinalTranscripts p)
      (finalTranscriptHistory p ++ [transcript]).
Proof.
  intros H. unfold addToTranscriptHistory.
  by rewrite (proj2 (str_eqb_false _ _) H).
Qed.

(** What a returning call leaves in the processor. *)
Lemma processString_state fuel p newText isFinal p' out :
  processString cut fuel p newText isFinal = Returns (p', out) →
  maxCharsPerLine p' = maxCharsPerLine p
  ∧ maxLines p' = maxLines p
  ∧ isChinese p' = isChinese p
  ∧ maxFinalTranscripts p' = maxFinalTranscripts p
  ∧ ∃ wrapped,
      wrapText cut fuel p' (combinedTextAfter isFinal p') (maxCharsPerLine p)
        = Some wrapped
      ∧ currentDisplayLines p'
        = shiftWhileLonger (maxLines p) (pushWhileShorter (maxLines p) wrapped)
      ∧ out = join [NEWLINE] (currentDisplayLines p').
Proof.
  unfold processString. intros H.
  destruct newText as [| |s]; [|done|]; destruct isFinal; simpl in H;
    apply renderLines_returns in H as (wrapped & Hwrap & -> & ->).
  all: match goal with
       | |- context [addToTranscriptHistory ?x ?q] =>
           destruct (addToTranscriptHistory_fields x q)
             as (Ha & Hb & Hc & Hd & _);
           rewrite Ha, Hb in *
       | _ => idtac
       end.
  all: repeat split; try done.
  all: exists wrapped; simpl; split; [|by rewrite ?Hb].
  all: unfold wrapText in *; simpl in *; by rewrite ?Hc in *.
Qed.

(** A final transcript: the partial text is cleared and the trimmed text
    goes to the history. *)
Lemma processString_final_history fuel p s p' out :
  processString cut fuel p (JString s) true = Returns (p', out) →
  finalTranscriptHistory p'
  = finalTranscriptHistory (addToTranscriptHistory (trim s) p)
  ∧ partialText p' = [].
Proof.
  unfold processString. simpl. intros H.
  apply renderLines_returns in H as (wrapped & _ & -> & _).
  unfold addToTranscriptHistory. by destruct (str_eqb _ _).
Qed.

(** A partial transcript: the history stays, the trimmed text becomes
    the partial text. *)
Lemma processString_partial_history fuel p newText p' out :
  processString cut fuel p newText false = Returns (p', out) →
  finalTranscriptHistory p' = finalTranscriptHistory p
  ∧ partialText p' = match newText with JString s => trim s | _ => [] end.
Proof.
  unfold processString. intros H.
  destruct newText as [| |s]; [|done|]; simpl in H;
    by apply renderLines_returns in H as (wrapped & _ & -> & _).
Qed.

End ProcessFacts.

(** ** The display lines of a processed event *)

Section DisplayLines.

Import TranscriptProcessor.

Lemma noNewline_not_elem (s : str) : noNewline s → NEWLINE ∉ s.
Proof.
  unfold noNewline. intros H Hin.
  rewrite Forall_forall in H. by apply (H _ Hin).
Qed.

Lemma history_after_add_Forall (P : str → Prop) transcript p :
  Forall P (finalTranscriptHistory p) → P transcript →
  Forall P (finalTranscriptHistory (addToTranscriptHistory transcript p)).
Proof.
  intros Hh Ht. unfold addToTranscriptHistory.
  destruct (str_eqb _ _); [done|]. simpl.
  unfold shiftWhileLonger. apply Forall_drop, Forall_app. split; [done|].
  by apply Forall_singleton.
Qed.

Lemma processString_lines_no_newline cut fuel p newText isFinal p' out :
  processString cut fuel p newText isFinal = Returns (p', out) →
  Forall noNewline (finalTranscriptHistory p) →
  (∀ s, newText = JString s → noNewline s) →
  Forall noNewline (currentDisplayLines p').
Proof.
  intros Hret Hhist Htext.
  assert (noNewline (match newText with JString s => trim s | _ => [] end))
    as Htrim.
  { destruct newText as [| |s]; try constructor.
    apply trim_Forall. by apply Htext. }
  assert (Forall noNewline (finalTranscriptHistory p')
          ∧ noNewline (partialText p')) as [Hh' Hp'].
  { destruct isFinal.
    - destruct newText as [| |s]; [|done|].
      + unfold processString in Hret. simpl in Hret.
        apply renderLines_returns in Hret as (w & _ & -> & _).
        split; [|constructor]. simpl.
        by apply (history_after_add_Forall noNewline [] (set_partialText [] p)).
      + apply processString_final_history in Hret as [-> ->].
        split; [|constructor]. by apply history_after_add_Forall.
    - apply processString_partial_history in Hret as [-> ->]. done. }
  apply processString_state in Hret
    as (_ & _ & _ & _ & wrapped & Hwrap & -> & _).
  apply (fitted_Forall noNewline (maxLines p) wrapped);
    [apply fitted_loops|constructor|].
  apply (wrapText_Forall _ (λ c, c ≠ NEWLINE)) in Hwrap; [done|].
  unfold combinedTextAfter, getCombinedTranscriptHistory.
  assert (Forall (λ c : N, c ≠ NEWLINE) [SPACE]) as Hsp.
  { by apply Forall_singleton. }
  destruct isFinal; rewrite ?Forall_app; repeat split; try done;
    by apply join_Forall.
Qed.

End DisplayLines.

(** C1 (as amended). For every processor and every transcription event,
    partial or final, the string [processString] returns is the join with
    newlines of exactly [maxLines] lines: the wrapped lines with empty
    lines added at the end when the wrap gave fewer, and with lines
    dropped at the front when it gave more. When neither the history nor
    the text holds a newline, splitting the string at newlines gives these
    [maxLines] lines back. In whitespace mode with a positive width the
    call returns for every text other than [undefined]. The string the
    display sink receives is this one after [cleanTranscriptText]. *)
Theorem processString_display_has_maxLines
    (cut : str → list str) (p : TranscriptProcessor.t) (newText : JsText)
    (isFinal : bool) :
  (∀ fuel p' out,
     TranscriptProcessor.processString cut fuel p newText isFinal = Returns (p', out) →
     ∃ wrapped,
       TranscriptProcessor.wrapText cut fuel p' (combinedTextAfter isFinal p')
         (TranscriptProcessor.maxCharsPerLine p) = Some wrapped
       ∧ fitted (TranscriptProcessor.maxLines p) wrapped
           (TranscriptProcessor.currentDisplayLines p')
       ∧ out = join [NEWLINE] (TranscriptProcessor.currentDisplayLines p')
       ∧ (0 < TranscriptProcessor.maxLines p →
          Forall noNewline (TranscriptProcessor.finalTranscriptHistory p) →
          (∀ s, newText = JString s → noNewline s) →
          split_on NEWLINE out = TranscriptProcessor.currentDisplayLines p'))
  ∧ (newText ≠ JUndefined →
     TranscriptProcessor.isChinese p = false →
     0 < TranscriptProcessor.maxCharsPerLine p →
     ∃ fuel p' out,
       TranscriptProcessor.processString cut fuel p newText isFinal = Returns (p', out)).
Proof.
  split.
  - intros fuel p' out Hret.
    pose proof (processString_lines_no_newline cut fuel p newText isFinal p' out Hret)
      as Hnl.
    apply processString_state in Hret
      as (_ & _ & _ & _ & wrapped & Hwrap & Hlines & Hout).
    exists wrapped. split; [done|]. split; [|split; [done|]].
    + rewrite Hlines. apply fitted_loops.
    + intros Hpos Hhist Htext. rewrite Hout.
      apply split_on_join.
      * intros Hnil.
        pose proof (fitted_loops (TranscriptProcessor.maxLines p) wrapped)
          as [Hlen _].
        rewrite <- Hlines, Hnil in Hlen. simpl in Hlen. lia.
      * eapply Forall_impl; [by apply Hnl|]. apply noNewline_not_elem.
  - apply processString_whitespace_returns.
Qed.

Lemma processString_display_has_maxLines_witness :
  ∃ p' out,
    TranscriptProcessor.processString latinRunCut 20
      (TranscriptProcessor.new 10 2 3 false)
      (JString (lit "hello world foo")) false = Returns (p', out)
    ∧ TranscriptProcessor.currentDisplayLines p' = [lit "hello"; lit "world foo"]
    ∧ split_on NEWLINE out = TranscriptProcessor.currentDisplayLines p'
    ∧ ∃ fuel p'' out',
        TranscriptProcessor.processString latinRunCut fuel
          (TranscriptProcessor.new 10 2 3 false)
          (JString (lit "hello world foo")) false = Returns (p'', out').
Proof.
  destruct (processString_display_has_maxLines latinRunCut
              (TranscriptProcessor.new 10 2 3 false)
              (JString (lit "hello world foo")) false) as [Hlines Hreturns].
  eexists _, _. split; [reflexivity|]. split; [reflexivity|]. split.
  - destruct (Hlines 20 _ _ eq_refl) as (wrapped & _ & _ & _ & Hsplit).
    apply Hsplit; [simpl; lia|constructor|].
    intros s [= <-]. unfold noNewline. by repeat constructor.
  - apply Hreturns; [done|reflexivity|simpl; lia].
Defined.

(** C1, counterexample. A first partial transcript hello on a fresh
    session: the processor has three lines, the string handed to the
    display sink is the single line hello, the trailing empty lines having
    been trimmed away by [cleanTranscriptText]. *)
Lemma sink_display_not_maxLines :
  ∃ a' display processor,
    LiveCaptionsApp.handleTranscription latinRunCut noPinyin 10 1000 "s" "u"
      (mkData (JString (lit "hello")) false "en-US") emptyApp = Returns a'
    ∧ LiveCaptionsApp.shown a' = [("s"%string, display)]
    ∧ LiveCaptionsApp.userTranscriptProcessors a' !! "u"%string = Some processor
    ∧ TranscriptProcessor.maxLines processor = 3
    ∧ length (split_on NEWLINE (text display)) = 1.
Proof.
  eexists _, _, _. split; [vm_compute; reflexivity|].
  split; [vm_compute; reflexivity|].
  split; [vm_compute; reflexivity|].
  split; reflexivity.
Qed.

(** ** The wrapper *)

(** The width bound, in both modes. For every text and every width, every
    line [wrapText] has pushed has at most [maxLineLength] code units; this
    holds after any number of iterations of its loop, so for the sequence
    it returns as well. In whitespace mode with a positive width the call
    returns within [length text + 1] iterations, and a text longer than
    the width with no space at the indices 1 to [maxLineLength] is cut at
    the width. *)
Theorem wrapText_lines_fit_width
    (cut : str → list str) (p : TranscriptProcessor.t) (text : str)
    (maxLineLength : nat) :
  0 < maxLineLength →
  (∀ fuel,
     Forall (λ line : str, length line ≤ maxLineLength)
       (TranscriptProcessor.wrapLoop cut fuel (TranscriptProcessor.isChinese p)
          maxLineLength text []).1)
  ∧ (∀ fuel wrapped,
       TranscriptProcessor.wrapText cut fuel p text maxLineLength = Some wrapped →
       Forall (λ line : str, length line ≤ maxLineLength) wrapped)
  ∧ (TranscriptProcessor.isChinese p = false →
     (∃ wrapped,
        TranscriptProcessor.wrapText cut (S (length text)) p text maxLineLength
        = Some wrapped)
     ∧ (maxLineLength < length text →
        (∀ j, 1 ≤ j ≤ maxLineLength → text !! j ≠ Some SPACE) →
        ∀ fuel,
          TranscriptProcessor.wrapLoop cut (S fuel) false maxLineLength text []
          = TranscriptProcessor.wrapLoop cut fuel false maxLineLength
              (trim (substring_from text maxLineLength))
              [trim (substring_to text maxLineLength)])).
Proof.
  intros Hw. split; [|split].
  - intros fuel. by apply wrapLoop_widths.
  - intros fuel wrapped. apply wrapText_widths.
  - intros Hch. split.
    + by apply wrapText_whitespace_returns.
    + intros Hlen Hnone fuel. by apply (wrapLoop_force_split cut fuel _ _ []).
Qed.

Lemma wrapText_lines_fit_width_witness :
  TranscriptProcessor.wrapText latinRunCut 20
    (TranscriptProcessor.new 10 2 3 false) (lit "hello world abcdefghijklmnop") 10
  = Some [lit "hello"; lit "world"; lit "abcdefghij"; lit "klmnop"]
  ∧ Forall (λ line : str, length line ≤ 10)
      [lit "hello"; lit "world"; lit "abcdefghij"; lit "klmnop"].
Proof.
  split; [reflexivity|].
  apply (wrapText_lines_fit_width latinRunCut
           (TranscriptProcessor.new 10 2 3 false)
           (lit "hello world abcdefghijklmnop") 10 ltac:(lia)) with (fuel := 20).
  reflexivity.
Defined.

(** C2, the force split. The text of eight Latin letters and one Chinese
    character, at the width 7: in whitespace mode the token is cut at the
    width, into a line of seven units and the rest; in Chinese mode, where
    the segmenter gives the eight letters as the first word, no piece of
    the token ever becomes a line: every iteration pushes an empty line,
    and the loop does not end. The guard that forces the cut when the
    split index is 0 is in the whitespace branch only. *)
Theorem wrapText_chinese_long_word_not_force_split :
  TranscriptProcessor.wrapText latinRunCut 20 (TranscriptProcessor.new 7 3 30 false)
    (lit "abcdefgh" ++ [0x4e2d%N]) 7
  = Some [lit "abcdefg"; lit "h" ++ [0x4e2d%N]]
  ∧ TranscriptProcessor.splitIndexOf latinRunCut true (lit "abcdefgh" ++ [0x4e2d%N]) 7
    = 0
  ∧ ∀ fuel,
      TranscriptProcessor.wrapLoop latinRunCut fuel true 7
        (lit "abcdefgh" ++ [0x4e2d%N]) []
      = (replicate fuel [], false).
Proof.
  split; [reflexivity|]. split; [reflexivity|].
  intros fuel.
  apply (wrapLoop_chinese_stuck latinRunCut fuel 7 (lit "abcdefgh" ++ [0x4e2d%N])
           (lit "abcdefgh") [[0x4e2d%N]] []);
    first [reflexivity | simpl; lia].
Qed.

(** In whitespace mode with a positive width the loop ends within
    [length text + 1] iterations, whatever the text, and more fuel gives
    the same lines. *)
Lemma wrapText_whitespace_terminates
    (cut : str → list str) (p : TranscriptProcessor.t) (text : str) (w : nat) :
  TranscriptProcessor.isChinese p = false → 0 < w →
  ∃ wrapped, ∀ fuel, length text < fuel →
    TranscriptProcessor.wrapText cut fuel p text w = Some wrapped.
Proof.
  intros Hch Hw.
  destruct (wrapText_whitespace_returns cut p text w Hch Hw) as [wrapped H].
  exists wrapped. intros fuel Hfuel.
  apply (wrapText_more_fuel cut (S (length text))); [lia|done].
Qed.

(** C3, the Chinese branch. In Chinese mode a trimmed text with a Chinese
    character whose first word, as [jieba.cut] gives it, is longer than
    the width makes [findChineseWordBoundary] answer 0: each iteration
    pushes an empty line and leaves the text as it is, and [wrapText] does
    not return, however many iterations it is given. *)
Theorem wrapText_chinese_long_word_never_returns
    (cut : str → list str) (p : TranscriptProcessor.t) (text : str) (w : nat)
    (word : str) (rest : list str) :
  TranscriptProcessor.isChinese p = true →
  ChineseUtils.isChinese text = true →
  trim text = text →
  cut text = word :: rest →
  w < length word →
  w < length text →
  ∀ fuel,
    TranscriptProcessor.wrapLoop cut fuel true w text [] = (replicate fuel [], false)
    ∧ TranscriptProcessor.wrapText cut fuel p text w = None.
Proof.
  intros Hp Hch Htrim Hcut Hword Hlen fuel.
  pose proof (wrapLoop_chinese_stuck cut fuel w text word rest []
                Hch Htrim Hcut Hword Hlen) as H.
  split; [done|]. unfold TranscriptProcessor.wrapText. by rewrite Hp, H.
Qed.

Lemma wrapText_chinese_long_word_never_returns_witness :
  TranscriptProcessor.wrapLoop latinRunCut 1000 true 7
    (lit "abcdefgh" ++ [0x4e2d%N]) [] = (replicate 1000 [], false)
  ∧ TranscriptProcessor.wrapText latinRunCut 1000
      (TranscriptProcessor.new 7 3 30 true) (lit "abcdefgh" ++ [0x4e2d%N]) 7
    = None.
Proof.
  apply (wrapText_chinese_long_word_never_returns latinRunCut
           (TranscriptProcessor.new 7 3 30 true) (lit "abcdefgh" ++ [0x4e2d%N]) 7
           (lit "abcdefgh") [[0x4e2d%N]]);
    first [reflexivity | simpl; lia].
Defined.

(** ** Null text, empty finals and partials *)

(** C8 (as amended). A [null] text is processed as the empty string is:
    the two calls have the same outcome, and it is never a throw. In
    whitespace mode with a positive width the call returns. *)
Theorem processString_null_as_empty
    (cut : str → list str) (p : TranscriptProcessor.t) (isFinal : bool) :
  (∀ fuel,
     TranscriptProcessor.processString cut fuel p JNull isFinal
     = TranscriptProcessor.processString cut fuel p (JString []) isFinal
     ∧ TranscriptProcessor.processString cut fuel p JNull isFinal ≠ Throws)
  ∧ (TranscriptProcessor.isChinese p = false →
     0 < TranscriptProcessor.maxCharsPerLine p →
     ∃ fuel p' out,
       TranscriptProcessor.processString cut fuel p JNull isFinal = Returns (p', out)).
Proof.
  split.
  - intros fuel. split; [reflexivity|].
    unfold TranscriptProcessor.processString, TranscriptProcessor.renderLines.
    destruct (negb isFinal);
      by destruct (TranscriptProcessor.wrapText _ _ _ _ _).
  - by apply processString_whitespace_returns.
Qed.

Lemma processString_null_as_empty_witness :
  ∃ fuel p' out,
    TranscriptProcessor.processString latinRunCut fuel
      (TranscriptProcessor.new 30 3 30 false) JNull true = Returns (p', out).
Proof.
  apply (processString_null_as_empty latinRunCut
           (TranscriptProcessor.new 30 3 30 false) true);
    [reflexivity|simpl; lia].
Defined.

(** C8, counterexample. An [undefined] text makes [newText.trim()] throw a
    TypeError, which [processString] does not catch. *)
Lemma processString_undefined_throws :
  TranscriptProcessor.processString latinRunCut 10
    (TranscriptProcessor.new 30 3 30 false) JUndefined false = Throws
  ∧ LiveCaptionsApp.handleTranscription latinRunCut noPinyin 10 1000 "s" "u"
      (mkData JUndefined false "en-US") emptyApp = Throws.
Proof. split; reflexivity. Qed.

(** C9. From any processor state, a call with the empty text and
    [isFinal = true] that returns leaves a state from which the same call
    returns the same string, and leaves that state as it is; in whitespace
    mode with a positive width both calls return. *)
Theorem processString_empty_final_idempotent
    (cut : str → list str) (p : TranscriptProcessor.t) :
  (∀ fuel p1 out1,
     TranscriptProcessor.processString cut fuel p (JString []) true = Returns (p1, out1) →
     TranscriptProcessor.processString cut fuel p1 (JString []) true = Returns (p1, out1))
  ∧ (TranscriptProcessor.isChinese p = false →
     0 < TranscriptProcessor.maxCharsPerLine p →
     ∃ fuel p1 out1,
       TranscriptProcessor.processString cut fuel p (JString []) true = Returns (p1, out1)
       ∧ TranscriptProcessor.processString cut fuel p1 (JString []) true
         = Returns (p1, out1)).
Proof.
  assert (∀ fuel p1 out1,
     TranscriptProcessor.processString cut fuel p (JString []) true = Returns (p1, out1) →
     TranscriptProcessor.processString cut fuel p1 (JString []) true = Returns (p1, out1))
    as Hsame.
  { intros fuel p1 out1.
    unfold TranscriptProcessor.processString, TranscriptProcessor.renderLines,
      TranscriptProcessor.wrapText, TranscriptProcessor.addToTranscriptHistory,
      TranscriptProcessor.getCombinedTranscriptHistory.
    destruct p; simpl.
    destruct (TranscriptProcessor.wrapLoop _ _ _ _ _ _) as [r b] eqn:E.
    destruct b; [|done]. intros [= <- <-]. simpl. by rewrite E. }
  split; [done|].
  intros Hch Hw.
  destruct (processString_whitespace_returns cut p (JString []) true)
    as (fuel & p1 & out1 & H); [done..|].
  exists fuel, p1, out1. split; [done|]. by apply Hsame.
Qed.

Lemma processString_empty_final_idempotent_witness :
  ∃ p1 out1,
    TranscriptProcessor.processString latinRunCut 20
      (TranscriptProcessor.mk 10 2 [] [] [] [lit "hello world"] 3 false [])
      (JString []) true = Returns (p1, out1)
    ∧ TranscriptProcessor.processString latinRunCut 20 p1 (JString []) true
      = Returns (p1, out1)
    ∧ out1 = lit "hello" ++ [NEWLINE] ++ lit "world".
Proof.
  eexists _, _. split; [vm_compute; reflexivity|].
  split; [|reflexivity].
  apply (proj1 (processString_empty_final_idempotent latinRunCut
                  (TranscriptProcessor.mk 10 2 [] [] [] [lit "hello world"] 3 false []))).
  vm_compute. reflexivity.
Defined.

(** C10. A call with [isFinal = false] that returns leaves the history of
    final transcripts as it was: the trimmed text is kept as the partial
    text only. In whitespace mode with a positive width the call returns
    for every text other than [undefined]. *)
Theorem processString_partial_keeps_history
    (cut : str → list str) (p : TranscriptProcessor.t) (newText : JsText) :
  (∀ fuel p' out,
     TranscriptProcessor.processString cut fuel p newText false = Returns (p', out) →
     TranscriptProcessor.finalTranscriptHistory p'
     = TranscriptProcessor.finalTranscriptHistory p
     ∧ TranscriptProcessor.maxFinalTranscripts p'
       = TranscriptProcessor.maxFinalTranscripts p
     ∧ TranscriptProcessor.partialText p'
       = match newText with JString s => trim s | _ => [] end)
  ∧ (newText ≠ JUndefined →
     TranscriptProcessor.isChinese p = false →
     0 < TranscriptProcessor.maxCharsPerLine p →
     ∃ fuel p' out,
       TranscriptProcessor.processString cut fuel p newText false = Returns (p', out)).
Proof.
  split.
  - intros fuel p' out H.
    pose proof (processString_state cut _ _ _ _ _ _ H) as (_ & _ & _ & Hcap & _).
    apply processString_partial_history in H as [Hh Hp]. done.
  - apply processString_whitespace_returns.
Qed.

Lemma processString_partial_keeps_history_witness :
  ∃ p1 out1,
    TranscriptProcessor.processString latinRunCut 20
      (TranscriptProcessor.mk 10 2 [] [] [] [lit "first"] 3 false [])
      (JString (lit " and then ")) false = Returns (p1, out1)
    ∧ TranscriptProcessor.finalTranscriptHistory p1 = [lit "first"]
    ∧ TranscriptProcessor.partialText p1 = lit "and then".
Proof.
  eexists _, _. split; [vm_compute; reflexivity|].
  destruct (proj1 (processString_partial_keeps_history latinRunCut
                     (TranscriptProcessor.mk 10 2 [] [] [] [lit "first"] 3 false [])
                     (JString (lit " and then "))) 20 _ _ eq_refl)
    as (Hh & _ & Hp).
  split; [exact Hh|exact Hp].
Defined.

(** ** The bounded history *)

Section HistoryFacts.

Import TranscriptProcessor.

(** Appending non-blank transcripts one after the other keeps the last
    [maxFinalTranscripts] entries of the old history followed by the
    new ones. *)
Lemma foldl_add_history (ts : list str) :
  ∀ p, Forall (λ t, trim t ≠ []) ts → ts ≠ [] →
    finalTranscriptHistory (foldl (λ q t, addToTranscriptHistory t q) p ts)
    = drop (length (finalTranscriptHistory p) + length ts - maxFinalTranscripts p)
        (finalTranscriptHistory p ++ ts).
Proof.
  induction ts as [|t rest IH]; intros p Hall Hne; [done|].
  apply Forall_cons in Hall as [Ht Hrest].
  pose proof (addToTranscriptHistory_nonblank t p Ht) as Hadd.
  destruct (addToTranscriptHistory_fields t p) as (_ & _ & _ & Hcap & _).
  simpl foldl.
  destruct rest as [|t' rest'].
  - simpl foldl. rewrite Hadd. unfold shiftWhileLonger.
    by rewrite length_app.
  - rewrite IH by done. rewrite Hadd, Hcap. unfold shiftWhileLonger.
    set (h := finalTranscriptHistory p).
    set (c := maxFinalTranscripts p).
    set (rest := t' :: rest').
    rewrite <- drop_app_le by lia.
    rewrite drop_drop, length_drop, <- app_assoc.
    f_equal. rewrite length_app. simpl. lia.
Qed.

Lemma setMaxFinalTranscripts_history n p :
  maxFinalTranscripts (setMaxFinalTranscripts n p) = n
  ∧ finalTranscriptHistory (setMaxFinalTranscripts n p)
    = drop (length (finalTranscriptHistory p) - n) (finalTranscriptHistory p).
Proof. done. Qed.

End HistoryFacts.

(** C4. With a capacity [c > 0]: after [c + k] non-blank transcripts have
    been appended, [k > 0], the history holds exactly the [c] appended
    last, in the order of their insertion; a blank or whitespace-only
    transcript leaves the processor as it is; and [setMaxFinalTranscripts]
    at once drops the oldest entries down to the new capacity. *)
Theorem history_keeps_most_recent
    (p : TranscriptProcessor.t) (ts : list str) (c k : nat) :
  0 < c → 0 < k →
  TranscriptProcessor.maxFinalTranscripts p = c →
  length ts = c + k →
  Forall (λ t, trim t ≠ []) ts →
  (TranscriptProcessor.finalTranscriptHistory
     (foldl (λ q t, TranscriptProcessor.addToTranscriptHistory t q) p ts)
   = drop k ts
   ∧ length (drop k ts) = c)
  ∧ (∀ blank q, trim blank = [] →
       TranscriptProcessor.addToTranscriptHistory blank q = q)
  ∧ (∀ n q,
       TranscriptProcessor.maxFinalTranscripts
         (TranscriptProcessor.setMaxFinalTranscripts n q) = n
       ∧ TranscriptProcessor.finalTranscriptHistory
           (TranscriptProcessor.setMaxFinalTranscripts n q)
         = drop (length (TranscriptProcessor.finalTranscriptHistory q) - n)
             (TranscriptProcessor.finalTranscriptHistory q)
       ∧ length (TranscriptProcessor.finalTranscriptHistory
                   (TranscriptProcessor.setMaxFinalTranscripts n q))
         = length (TranscriptProcessor.finalTranscriptHistory q) `min` n).
Proof.
  intros Hc Hk Hcap Hlen Hall. split; [|split].
  - split; [|rewrite length_drop; lia].
    rewrite foldl_add_history; [|done|by destruct ts; [simpl in Hlen; lia|]].
    rewrite Hcap, Hlen.
    rewrite drop_app_ge by lia. f_equal. lia.
  - intros blank q. apply addToTranscriptHistory_blank.
  - intros n q.
    destruct (setMaxFinalTranscripts_history n q) as [Hn Hh].
    split; [done|]. split; [done|]. rewrite Hh, length_drop. lia.
Qed.

Lemma history_keeps_most_recent_witness :
  TranscriptProcessor.finalTranscriptHistory
    (foldl (λ q t, TranscriptProcessor.addToTranscriptHistory t q)
       (TranscriptProcessor.new 10 2 2 false) [lit "one"; lit "two"; lit "three"])
  = [lit "two"; lit "three"].
Proof.
  apply (history_keeps_most_recent (TranscriptProcessor.new 10 2 2 false)
           [lit "one"; lit "two"; lit "three"] 2 1);
    [lia|lia|reflexivity|reflexivity|].
  repeat constructor; by vm_compute.
Defined.

(** ** The debounce scheduler and the inactivity timer *)

Section TimerFacts.

Import LiveCaptionsApp.

(** A field write to an object that is in the map. *)
Lemma alter_lookup_insert {V} (m : gmap string V) k d f :
  m !! k = Some d → alter f k m = <[k := f d]> m.
Proof.
  intros H. apply map_eq. intros j. rewrite lookup_alter, lookup_insert.
  case_decide; subst; by rewrite ?H.
Qed.

(** The state a non-final update leaves, written out: the scheduled
    timer of the session's debouncer is cleared, and the transcript is
    shown now or a new timer is set for it. *)
Lemma debounce_nonfinal now sid c a :
  let d := default (TranscriptDebouncer.mk 0 None) (sessionDebouncers a !! sid) in
  let timers0 :=
    match TranscriptDebouncer.timer d with
    | Some id => delete id (timers a)
    | None => timers a
    end in
  debounceAndShowTranscript now sid c false a
  = if (debounceDelay <=? now - TranscriptDebouncer.lastSentTime d)%Z then
      mk (userTranscriptProcessors a) (userActiveLanguages a)
         (<[sid := TranscriptDebouncer.mk now None]> (sessionDebouncers a))
         (inactivityTimers a) timers0 (nextTimer a) (subscriptions a)
         (shown a ++ [(sid, mkDisplay (cleanTranscriptText c) None)])
    else
      mk (userTranscriptProcessors a) (userActiveLanguages a)
         (<[sid := TranscriptDebouncer.mk (TranscriptDebouncer.lastSentTime d)
                     (Some (nextTimer a))]> (sessionDebouncers a))
         (inactivityTimers a)
         (<[nextTimer a := ((now + debounceDelay)%Z, DebounceFire sid c)]> timers0)
         (S (nextTimer a)) (subscriptions a) (shown a).
Proof.
  intros d timers0. subst d timers0.
  unfold debounceAndShowTranscript.
  destruct (sessionDebouncers a !! sid) as [[last tm]|] eqn:Hd; simpl.
  - rewrite Hd. simpl.
    destruct tm as [id|]; simpl;
      unfold writeDebouncer, clearTimeout, showTranscriptsToUser, showTextWall,
        setTimeout; simpl;
      destruct (debounceDelay <=? now - last)%Z; simpl; f_equal;
      rewrite !(alter_lookup_insert _ _ _ _ Hd); simpl; try done;
      (rewrite (alter_lookup_insert _ sid (TranscriptDebouncer.mk last None));
         [|by rewrite lookup_insert_eq]);
      simpl; by rewrite insert_insert_eq.
  - rewrite lookup_insert_eq. simpl.
    unfold writeDebouncer, clearTimeout, showTranscriptsToUser, showTextWall,
      setTimeout; simpl.
    destruct (debounceDelay <=? now - 0)%Z; simpl; f_equal;
      (rewrite (alter_lookup_insert _ sid (TranscriptDebouncer.mk 0 None));
         [|by rewrite lookup_insert_eq]);
      simpl; by rewrite insert_insert_eq.
Qed.

(** Once the debouncer's timer is cleared, no debounce timer of the
    session is pending. *)
Lemma owned_cleared sid a id due c :
  debounceTimersOwned sid a →
  match TranscriptDebouncer.timer
          (default (TranscriptDebouncer.mk 0 None) (sessionDebouncers a !! sid)) with
  | Some id0 => delete id0 (timers a)
  | None => timers a
  end !! id ≠ Some (due, DebounceFire sid c).
Proof.
  intros Hown H.
  destruct (sessionDebouncers a !! sid) as [[last tm]|] eqn:Hd; simpl in H.
  - destruct tm as [id0|].
    + apply lookup_delete_Some in H as [Hne H].
      destruct (Hown _ _ _ H) as (d & Hd' & Htm).
      rewrite Hd in Hd'. inversion Hd'; subst. simpl in Htm. congruence.
    + destruct (Hown _ _ _ H) as (d & Hd' & Htm).
      rewrite Hd in Hd'. inversion Hd'; subst. done.
  - destruct (Hown _ _ _ H) as (d & Hd' & _). congruence.
Qed.

(** What a non-final update does, case by case, from a state in which
    the session's debounce timers are owned. *)
Lemma debounce_nonfinal_cases now sid c a :
  debounceTimersOwned sid a →
  let last :=
    TranscriptDebouncer.lastSentTime
      (default (TranscriptDebouncer.mk 0 None) (sessionDebouncers a !! sid)) in
  let a' := debounceAndShowTranscript now sid c false a in
  ((debounceDelay ≤ now - last)%Z →
     shown a' = shown a ++ [(sid, mkDisplay (cleanTranscriptText c) None)]
     ∧ sessionDebouncers a' !! sid = Some (TranscriptDebouncer.mk now None)
     ∧ ∀ id due c', timers a' !! id ≠ Some (due, DebounceFire sid c'))
  ∧ ((now - last < debounceDelay)%Z →
     shown a' = shown a
     ∧ ∃ id,
         sessionDebouncers a' !! sid = Some (TranscriptDebouncer.mk last (Some id))
         ∧ timers a' !! id = Some ((now + debounceDelay)%Z, DebounceFire sid c)
         ∧ ∀ id' due c',
             timers a' !! id' = Some (due, DebounceFire sid c') → id' = id).
Proof.
  intros Hown last a'. subst a'. rewrite debounce_nonfinal. fold last.
  split; intros Hcmp.
  - destruct (Z.leb_spec debounceDelay (now - last)) as [Hz|Hz]; [|lia]. simpl.
    split; [done|]. split; [by rewrite lookup_insert_eq|].
    intros id due c'. by apply owned_cleared.
  - destruct (Z.leb_spec debounceDelay (now - last)) as [Hz|Hz]; [lia|]. simpl.
    split; [done|]. exists (nextTimer a).
    split; [by rewrite lookup_insert_eq|].
    split; [by rewrite lookup_insert_eq|].
    intros id' due c' H.
    destruct (decide (nextTimer a = id')) as [|Hne]; [done|].
    rewrite lookup_insert_ne in H by done.
    by apply owned_cleared in H.
Qed.

Lemma debounce_nonfinal_owned now sid c a :
  debounceTimersOwned sid a →
  debounceTimersOwned sid (debounceAndShowTranscript now sid c false a).
Proof.
  intros Hown id due c' H.
  destruct (debounce_nonfinal_cases now sid c a Hown) as [Hnow Hlater].
  destruct (Z.le_gt_cases debounceDelay
              (now - TranscriptDebouncer.lastSentTime
                       (default (TranscriptDebouncer.mk 0 None)
                                (sessionDebouncers a !! sid)))) as [Hle|Hgt].
  - destruct (Hnow Hle) as (_ & _ & Hnone). by apply Hnone in H.
  - destruct (Hlater ltac:(lia)) as (_ & id0 & Hd & _ & Huniq).
    apply Huniq in H as ->. eauto.
Qed.

(** The event loop runs a due debounce callback. *)
Lemma fire_debounce now id a due sid c d :
  timers a !! id = Some (due, DebounceFire sid c) →
  sessionDebouncers a !! sid = Some d →
  (due ≤ now)%Z →
  shown (fireTimer now id a)
  = shown a ++ [(sid, mkDisplay (cleanTranscriptText c) None)]
  ∧ sessionDebouncers (fireTimer now id a) !! sid
    = Some (if bool_decide (TranscriptDebouncer.timer d = Some id)
            then TranscriptDebouncer.mk now (TranscriptDebouncer.timer d)
            else d)
  ∧ timers (fireTimer now id a) = delete id (timers a).
Proof.
  intros Ht Hd Hdue. unfold fireTimer. rewrite Ht.
  destruct (Z.leb_spec due now); [|lia]. simpl.
  split; [done|]. split; [|done].
  rewrite lookup_alter. case_decide; [|done]. by rewrite Hd.
Qed.

Lemma fire_early now id a due callback :
  timers a !! id = Some (due, callback) → (now < due)%Z → fireTimer now id a = a.
Proof.
  intros Ht Hdue. unfold fireTimer. rewrite Ht.
  destruct (Z.leb_spec due now); [lia|done].
Qed.

End TimerFacts.




(** C6 (as amended). An event resets the inactivity timer of its session
    to 40000 ms from now. When that timer fires, no event having come in
    between, the history and the partial text of the user's processor
    become empty and the display receives one update: the empty string,
    shown for 1000 ms. *)
Theorem inactivity_clears_and_blanks
    (a : LiveCaptionsApp.t) (now now' : Z) (sessionId userId : string)
    (inactivityTimer : InactivityTimer.t) (processor : TranscriptProcessor.t) :
  LiveCaptionsApp.inactivityTimers a !! sessionId = Some inactivityTimer →
  LiveCaptionsApp.userTranscriptProcessors a !! userId = Some processor →
  (now + 40000 ≤ now')%Z →
  let a1 := LiveCaptionsApp.resetInactivityTimer now sessionId userId a in
  ∃ id,
    LiveCaptionsApp.inactivityTimers a1 !! sessionId
    = Some (InactivityTimer.mk (Some id) now)
    ∧ LiveCaptionsApp.timers a1 !! id
      = Some ((now + 40000)%Z, InactivityFire sessionId userId)
    ∧ let a2 := LiveCaptionsApp.fireTimer now' id a1 in
      LiveCaptionsApp.userTranscriptProcessors a2 !! userId
      = Some (TranscriptProcessor.clear processor)
      ∧ TranscriptProcessor.finalTranscriptHistory (TranscriptProcessor.clear processor) = []
      ∧ TranscriptProcessor.partialText (TranscriptProcessor.clear processor) = []
      ∧ LiveCaptionsApp.shown a2
        = LiveCaptionsApp.shown a ++ [(sessionId, mkDisplay [] (Some 1000%Z))].
Proof.
  intros Hit Hp Hdue a1. subst a1.
  unfold LiveCaptionsApp.resetInactivityTimer. rewrite Hit.
  destruct (InactivityTimer.timer inactivityTimer) as [id0|]; simpl.
  - exists (LiveCaptionsApp.nextTimer a).
    split; [by rewrite lookup_insert_eq|].
    split; [by rewrite lookup_insert_eq|].
    unfold LiveCaptionsApp.fireTimer. simpl. rewrite lookup_insert_eq.
    destruct (Z.leb_spec (now + 40000) now'); [|lia]. simpl. rewrite Hp. simpl.
    split; [by rewrite lookup_insert_eq|]. done.
  - exists (LiveCaptionsApp.nextTimer a).
    split; [by rewrite lookup_insert_eq|].
    split; [by rewrite lookup_insert_eq|].
    unfold LiveCaptionsApp.fireTimer. simpl. rewrite lookup_insert_eq.
    destruct (Z.leb_spec (now + 40000) now'); [|lia]. simpl. rewrite Hp. simpl.
    split; [by rewrite lookup_insert_eq|]. done.
Qed.

Lemma inactivity_clears_and_blanks_witness :
  ∃ id,
    LiveCaptionsApp.timers
      (LiveCaptionsApp.resetInactivityTimer 5000 "s" "u" idleSession) !! id
    = Some (45000%Z, InactivityFire "s" "u")
    ∧ LiveCaptionsApp.shown
        (LiveCaptionsApp.fireTimer 45000 id
           (LiveCaptionsApp.resetInactivityTimer 5000 "s" "u" idleSession))
      = [("s"%string, mkDisplay [] (Some 1000%Z))].
Proof.
  destruct (inactivity_clears_and_blanks idleSession 5000 45000 "s" "u"
              (InactivityTimer.mk None 0)
              (TranscriptProcessor.mk 30 3 [] [] [] [lit "hello"] 30 false
                 [lit "hello"; []; []]))
    as (id & _ & Htimer & _ & _ & _ & Hshown);
    [by vm_compute|by vm_compute|lia|].
  exists id. split; [exact Htimer|exact Hshown].
Defined.

(** C6, counterexample. For a processor with three lines the update the
    inactivity timer sends is the empty string: it is not the join of
    three empty lines, and splitting it at newlines gives one piece. *)
Lemma inactivity_display_not_maxLines :
  let a1 := LiveCaptionsApp.resetInactivityTimer 5000 "s" "u" idleSession in
  let a2 := LiveCaptionsApp.fireTimer 45000 0 a1 in
  ∃ processor display,
    LiveCaptionsApp.userTranscriptProcessors a2 !! "u"%string = Some processor
    ∧ TranscriptProcessor.maxLines processor = 3
    ∧ LiveCaptionsApp.shown a2 = [("s"%string, display)]
    ∧ text display ≠ join [NEWLINE] (replicate 3 [])
    ∧ length (split_on NEWLINE (text display)) = 1.
Proof.
  eexists _, _. split; [vm_compute; reflexivity|].
  split; [reflexivity|]. split; [vm_compute; reflexivity|].
  split; [by vm_compute|reflexivity].
Qed.

(** ** Settings changes *)

Section SettingsFacts.

Import TranscriptProcessor.
Variable cut : str → list str.
Variable languageToLocale : string → string.

Lemma foldl_add_congr (ts : list str) :
  ∀ q1 q2,
    finalTranscriptHistory q1 = finalTranscriptHistory q2 →
    maxFinalTranscripts q1 = maxFinalTranscripts q2 →
    finalTranscriptHistory (foldl (λ q t, addToTranscriptHistory t q) q1 ts)
    = finalTranscriptHistory (foldl (λ q t, addToTranscriptHistory t q) q2 ts).
Proof.
  induction ts as [|t rest IH]; intros q1 q2 Hh Hc; [done|].
  simpl. apply IH.
  - unfold addToTranscriptHistory. destruct (str_eqb _ _); [done|].
    simpl. by rewrite Hh, Hc.
  - destruct (addToTranscriptHistory_fields t q1) as (_ & _ & _ & -> & _).
    by destruct (addToTranscriptHistory_fields t q2) as (_ & _ & _ & -> & _).
Qed.

Lemma replayHistory_cons fuel t (rest : list str) np :
  LiveCaptionsApp.replayHistory cut fuel (t :: rest) np
  = match processString cut fuel np (JString t) true with
    | Returns (p1, _) => LiveCaptionsApp.replayHistory cut fuel rest p1
    | Throws => Throws
    | OutOfFuel => OutOfFuel
    end.
Proof.
  cbn [LiveCaptionsApp.replayHistory].
  by destruct (processString cut fuel np (JString t) true) as [[p1 out]| |].
Qed.

(** Replaying a history: the configuration of the new processor stays,
    and its history is the one the trimmed entries give when appended
    one after the other. *)
Lemma replayHistory_state fuel (h : list str) :
  ∀ np np',
    LiveCaptionsApp.replayHistory cut fuel h np = Returns np' →
    maxCharsPerLine np' = maxCharsPerLine np
    ∧ maxLines np' = maxLines np
    ∧ isChinese np' = isChinese np
    ∧ maxFinalTranscripts np' = maxFinalTranscripts np
    ∧ (partialText np = [] → partialText np' = [])
    ∧ finalTranscriptHistory np'
      = finalTranscriptHistory
          (foldl (λ q t, addToTranscriptHistory t q) np (map trim h)).
Proof.
  induction h as [|t rest IH]; intros np np' H.
  - by inversion H.
  - rewrite replayHistory_cons in H.
    destruct (processString cut fuel np (JString t) true) as [[p1 out]| |] eqn:E;
      [|done..].
    pose proof (processString_state cut _ _ _ _ _ _ E) as (Hw & Hl & Hc & Hcap & _).
    apply processString_final_history in E as [Hh Hp].
    apply IH in H as (Hw' & Hl' & Hc' & Hcap' & Hp' & Hh').
    repeat split; try congruence.
    + intros _. by apply Hp'.
    + rewrite Hh'. simpl. apply foldl_add_congr; [done|].
      rewrite Hcap.
      by destruct (addToTranscriptHistory_fields (trim t) np) as (_ & _ & _ & -> & _).
Qed.

Lemma replayHistory_more_fuel fuel fuel' (h : list str) :
  fuel ≤ fuel' →
  ∀ np np',
    LiveCaptionsApp.replayHistory cut fuel h np = Returns np' →
    LiveCaptionsApp.replayHistory cut fuel' h np = Returns np'.
Proof.
  intros Hle. induction h as [|t rest IH]; intros np np' H; [done|].
  rewrite replayHistory_cons in *.
  destruct (processString cut fuel np (JString t) true) as [[p1 out]| |] eqn:E;
    [|done..].
  rewrite (processString_more_fuel cut _ _ _ _ _ _ Hle E).
  by apply IH.
Qed.

Lemma replayHistory_whitespace_returns (h : list str) :
  ∀ np, isChinese np = false → 0 < maxCharsPerLine np →
    ∃ fuel np', LiveCaptionsApp.replayHistory cut fuel h np = Returns np'.
Proof.
  induction h as [|t rest IH]; intros np Hc Hw.
  - by exists 0, np.
  - destruct (processString_whitespace_returns cut np (JString t) true)
      as (f1 & p1 & out & E); [done..|].
    pose proof (processString_state cut _ _ _ _ _ _ E) as (Hw1 & _ & Hc1 & _).
    destruct (IH p1) as (f2 & np' & H); [congruence|lia|].
    exists (f1 `max` f2), np'. rewrite replayHistory_cons.
    assert (f1 ≤ f1 `max` f2) as Hf1 by lia.
    rewrite (processString_more_fuel cut f1 _ _ _ _ _ Hf1 E).
    apply (replayHistory_more_fuel f2); [lia|done].
Qed.

(** A history of trimmed, non-blank entries that fits the capacity comes
    back as it is from a replay into a fresh processor. *)
Lemma replay_into_fresh fuel (h : list str) w n c chinese np' :
  LiveCaptionsApp.replayHistory cut fuel h (new w n c chinese) = Returns np' →
  Forall (λ e, trim e = e ∧ e ≠ []) h →
  length h ≤ c →
  finalTranscriptHistory np' = h.
Proof.
  intros H Hall Hlen.
  apply replayHistory_state in H as (_ & _ & _ & _ & _ & ->).
  assert (map trim h = h) as ->.
  { clear Hlen. induction Hall as [|e rest [He _] _ IH]; [done|].
    simpl. by rewrite He, IH. }
  destruct h as [|e rest]; [done|].
  rewrite foldl_add_history; [|..|done].
  - simpl. replace (S (length rest) - c) with 0 by (simpl in Hlen; lia). done.
  - eapply Forall_impl; [done|]. intros x [Hx Hne]. by rewrite Hx.
Qed.

(** [processString] keeps a history in the form [historyOk] describes. *)
Lemma processString_historyOk fuel p newText isFinal p' out :
  processString cut fuel p newText isFinal = Returns (p', out) →
  historyOk p → historyOk p'.
Proof.
  intros H [Hall Hlen]. unfold historyOk.
  pose proof (processString_state cut _ _ _ _ _ _ H) as (_ & _ & _ & Hcap & _).
  rewrite Hcap.
  destruct isFinal.
  - assert (finalTranscriptHistory p'
            = finalTranscriptHistory
                (addToTranscriptHistory
                   (match newText with JString s => trim s | _ => [] end) p))
      as ->.
    { destruct newText as [| |s]; [|done|].
      - unfold processString in H. simpl in H.
        apply renderLines_returns in H as (w & _ & -> & _). done.
      - by apply processString_final_history in H as [-> _]. }
    set (t := match newText with JString s => trim s | _ => [] end).
    assert (trim t = t) as Ht.
    { subst t. destruct newText; try done. apply trim_idem. }
    unfold addToTranscriptHistory. rewrite Ht.
    destruct (str_eqb t []) eqn:E; [done|]. apply str_eqb_false in E.
    simpl. unfold shiftWhileLonger. split.
    + apply Forall_drop, Forall_app. split; [done|]. by apply Forall_singleton.
    + rewrite length_drop. lia.
  - by apply processString_partial_history in H as [-> _].
Qed.

Lemma join_blank_lines n : join [NEWLINE] (replicate n ([] : str)) = replicate (n - 1) NEWLINE.
Proof.
  induction n as [|n IH]; [done|].
  destruct n as [|n]; [done|].
  change (replicate (S (S n)) ([] : str)) with ([] :: [] :: replicate n ([] : str)).
  change (join [NEWLINE] ([] :: [] :: replicate n []))
    with (NEWLINE :: join [NEWLINE] (replicate (S n) ([] : str))).
  rewrite IH. simpl. by rewrite Nat.sub_0_r.
Qed.

(** Cleaning a display of empty lines gives the empty string. *)
Lemma clean_blank_lines n :
  LiveCaptionsApp.cleanTranscriptText (join [NEWLINE] (replicate n ([] : str))) = [].
Proof.
  rewrite join_blank_lines. unfold LiveCaptionsApp.cleanTranscriptText.
  assert (∀ k, dropWhile LiveCaptionsApp.isLeadingPunctuation (replicate k NEWLINE)
               = replicate k NEWLINE) as ->.
  { by intros [|k]. }
  unfold trim. assert (∀ k, trimStart (replicate k NEWLINE) = []) as ->; [|done].
  intros k. induction k as [|k IH]; [done|]. simpl. apply IH.
Qed.

End SettingsFacts.

Section ApplySettings.

Import TranscriptProcessor.
Variable cut : str → list str.
Variable languageToLocale : string → string.

(** The steps of a call of [applySettings] that returns. *)
Lemma applySettings_returns fuel sid uid settings a a' :
  LiveCaptionsApp.applySettings cut languageToLocale fuel sid uid settings a
  = Returns a' →
  ∃ np1 np2 out,
    match LiveCaptionsApp.userTranscriptProcessors a !! uid with
    | Some previous =>
        if negb (LiveCaptionsApp.languageChanged uid
                   (LiveCaptionsApp.settingsLanguage settings) a)
        then LiveCaptionsApp.replayHistory cut fuel
               (finalTranscriptHistory previous)
               (LiveCaptionsApp.newProcessorFor settings)
        else Returns (LiveCaptionsApp.newProcessorFor settings)
    | None => Returns (LiveCaptionsApp.newProcessorFor settings)
    end = Returns np1
    ∧ processString cut fuel np1 (JString []) true = Returns (np2, out)
    ∧ LiveCaptionsApp.userTranscriptProcessors a'
      = <[uid := np2]> (LiveCaptionsApp.userTranscriptProcessors a)
    ∧ LiveCaptionsApp.userActiveLanguages a'
      = <[uid := LiveCaptionsApp.settingsLanguage settings]>
          (LiveCaptionsApp.userActiveLanguages a)
    ∧ LiveCaptionsApp.shown a'
      = LiveCaptionsApp.shown a
        ++ [(sid, mkDisplay (LiveCaptionsApp.cleanTranscriptText out) (Some 20000%Z))]
    ∧ LiveCaptionsApp.timers a' = LiveCaptionsApp.timers a
    ∧ LiveCaptionsApp.sessionDebouncers a' = LiveCaptionsApp.sessionDebouncers a.
Proof.
  unfold LiveCaptionsApp.applySettings. cbn [LiveCaptionsApp.userTranscriptProcessors
    LiveCaptionsApp.set_languages].
  unfold getFinalTranscriptHistory.
  match goal with
  | |- (?first ≫= _) = _ → _ => destruct first as [np1| |] eqn:Hfirst; [|done..]
  end.
  cbn [mbind outcome_bind].
  destruct (processString cut fuel np1 (JString []) true) as [[np2 out]| |] eqn:E;
    [|done..].
  intros [= <-]. by exists np1, np2, out.
Qed.

Lemma newProcessorFor_fields settings :
  isChinese (LiveCaptionsApp.newProcessorFor settings)
  = String.eqb (LiveCaptionsApp.settingsLanguage settings) "Chinese (Hanzi)"
  ∧ 7 ≤ maxCharsPerLine (LiveCaptionsApp.newProcessorFor settings)
  ∧ 1 ≤ maxLines (LiveCaptionsApp.newProcessorFor settings)
  ∧ maxFinalTranscripts (LiveCaptionsApp.newProcessorFor settings)
    = MAX_FINAL_TRANSCRIPTS
  ∧ finalTranscriptHistory (LiveCaptionsApp.newProcessorFor settings) = []
  ∧ partialText (LiveCaptionsApp.newProcessorFor settings) = [].
Proof.
  unfold LiveCaptionsApp.newProcessorFor. simpl.
  split; [done|]. split; [|split; [|done]].
  - unfold convertLineWidth.
    destruct (String.eqb _ "Chinese (Hanzi)"); simpl;
      repeat match goal with
             | |- context [if ?b then _ else _] => destruct b
             end; lia.
  - destruct (default (Num 3) (number_of_lines settings)) as [|z]; [lia|].
    destruct (Z.ltb_spec z 1); lia.
Qed.

(** The recorded language differs from the new one, and is a language:
    neither the empty string nor the word none, which stand for no
    language recorded. *)
Lemma languageChanged_true uid language a prev :
  LiveCaptionsApp.userActiveLanguages a !! uid = Some prev →
  prev ≠ "none"%string → prev ≠ ""%string → prev ≠ language →
  LiveCaptionsApp.languageChanged uid language a = true.
Proof.
  intros Hl Hnone Hempty Hne. unfold LiveCaptionsApp.languageChanged.
  rewrite Hl.
  destruct (String.eqb_spec prev ""); [done|].
  destruct (String.eqb_spec prev "none"); [done|].
  by destruct (String.eqb_spec prev language).
Qed.

Lemma languageChanged_same uid language a :
  LiveCaptionsApp.userActiveLanguages a !! uid = Some language →
  LiveCaptionsApp.languageChanged uid language a = false.
Proof.
  intros Hl. unfold LiveCaptionsApp.languageChanged. rewrite Hl.
  destruct (String.eqb_spec language ""); [done|].
  rewrite String.eqb_refl. simpl. by rewrite andb_false_r.
Qed.

(** An empty history renders as empty lines. *)
Lemma processString_empty_history fuel p p' out :
  processString cut fuel p (JString []) true = Returns (p', out) →
  finalTranscriptHistory p = [] →
  out = join [NEWLINE] (replicate (maxLines p) ([] : str)).
Proof.
  intros H Hh.
  unfold processString, renderLines, wrapText, addToTranscriptHistory,
    getCombinedTranscriptHistory in H.
  simpl in H. rewrite Hh in H. simpl in H.
  destruct fuel as [|fuel]; [done|]. simpl in H.
  inversion H; subst. simpl. unfold shiftWhileLonger, pushWhileShorter. simpl.
  rewrite length_replicate, Nat.sub_0_r, Nat.sub_diag. done.
Qed.

End ApplySettings.

(** C7 (as amended). A call of [applySettings] that returns records the
    language of the settings and installs a processor configured from
    them: the width is what [convertLineWidth] gives for the line width of
    the settings (by default the string 10 for Chinese (Hanzi) and 30
    otherwise), the line count is the one of the settings (3 when it is
    missing, not a number or below 1), the mode is Chinese for Chinese
    (Hanzi) only, the capacity is 30. Its display is shown at once with the
    duration of a final update, 20000 ms, and not through the debouncer:
    the debouncers and the timers are left as they are. If a language was
    recorded for the user and the new one differs, the new processor has an
    empty history and an empty partial text, and the display is blank. If
    the language is the one recorded, every entry of the previous history
    was replayed into a fresh processor of the new configuration, and the
    history of the new processor is the previous one. Outside Chinese
    (Hanzi) the call returns. *)
Theorem applySettings_history
    (cut : str → list str) (languageToLocale : string → string)
    (sessionId userId : string) (settings : Settings) (a : LiveCaptionsApp.t) :
  let isChineseLanguage :=
    String.eqb (LiveCaptionsApp.settingsLanguage settings) "Chinese (Hanzi)" in
  let lineWidth :=
    convertLineWidth
      (WString (default (if isChineseLanguage then "10" else "30")%string
                        (line_width settings)))
      isChineseLanguage in
  let numberOfLines :=
    match default (Num 3) (number_of_lines settings) with
    | NaN => 3
    | Num z => if (z <? 1)%Z then 3 else Z.to_nat z
    end in
  (∀ fuel a',
     LiveCaptionsApp.applySettings cut languageToLocale fuel sessionId userId settings a
     = Returns a' →
     ∃ newProcessor,
       LiveCaptionsApp.userTranscriptProcessors a' !! userId = Some newProcessor
       ∧ LiveCaptionsApp.userActiveLanguages a' !! userId
         = Some (LiveCaptionsApp.settingsLanguage settings)
       ∧ TranscriptProcessor.maxCharsPerLine newProcessor = lineWidth
       ∧ TranscriptProcessor.maxLines newProcessor = numberOfLines
       ∧ TranscriptProcessor.isChinese newProcessor = isChineseLanguage
       ∧ TranscriptProcessor.maxFinalTranscripts newProcessor = MAX_FINAL_TRANSCRIPTS
       ∧ TranscriptProcessor.partialText newProcessor = []
       ∧ (∃ wrapped,
            TranscriptProcessor.wrapText cut fuel newProcessor
              (TranscriptProcessor.getCombinedTranscriptHistory newProcessor)
              lineWidth = Some wrapped
            ∧ fitted numberOfLines wrapped
                (TranscriptProcessor.currentDisplayLines newProcessor))
       ∧ LiveCaptionsApp.shown a'
         = LiveCaptionsApp.shown a
           ++ [(sessionId,
                mkDisplay
                  (LiveCaptionsApp.cleanTranscriptText
                     (join [NEWLINE]
                        (TranscriptProcessor.currentDisplayLines newProcessor)))
                  (Some 20000%Z))]
       ∧ LiveCaptionsApp.timers a' = LiveCaptionsApp.timers a
       ∧ LiveCaptionsApp.sessionDebouncers a' = LiveCaptionsApp.sessionDebouncers a
       ∧ (∀ previousLanguage,
            LiveCaptionsApp.userActiveLanguages a !! userId = Some previousLanguage →
            previousLanguage ≠ "none"%string →
            previousLanguage ≠ ""%string →
            previousLanguage ≠ LiveCaptionsApp.settingsLanguage settings →
            TranscriptProcessor.finalTranscriptHistory newProcessor = []
            ∧ LiveCaptionsApp.shown a'
              = LiveCaptionsApp.shown a ++ [(sessionId, mkDisplay [] (Some 20000%Z))])
       ∧ (∀ previous,
            LiveCaptionsApp.userActiveLanguages a !! userId
            = Some (LiveCaptionsApp.settingsLanguage settings) →
            LiveCaptionsApp.userTranscriptProcessors a !! userId = Some previous →
            historyOk previous →
            TranscriptProcessor.maxFinalTranscripts previous = MAX_FINAL_TRANSCRIPTS →
            ∃ replayed,
              LiveCaptionsApp.replayHistory cut fuel
                (TranscriptProcessor.finalTranscriptHistory previous)
                (TranscriptProcessor.new lineWidth numberOfLines MAX_FINAL_TRANSCRIPTS
                   isChineseLanguage) = Returns replayed
              ∧ TranscriptProcessor.finalTranscriptHistory newProcessor
                = TranscriptProcessor.finalTranscriptHistory replayed
              ∧ TranscriptProcessor.finalTranscriptHistory newProcessor
                = TranscriptProcessor.finalTranscriptHistory previous))
  ∧ (LiveCaptionsApp.settingsLanguage settings ≠ "Chinese (Hanzi)"%string →
     ∃ fuel a',
       LiveCaptionsApp.applySettings cut languageToLocale fuel sessionId userId settings a
       = Returns a').
Proof.
  intros isChineseLanguage lineWidth numberOfLines.
  assert (LiveCaptionsApp.newProcessorFor settings
          = TranscriptProcessor.new lineWidth numberOfLines MAX_FINAL_TRANSCRIPTS
              isChineseLanguage) as Hnew by reflexivity.
  destruct (newProcessorFor_fields settings) as (Hch & Hw & Hl & Hcap & Hh0 & Hp0).
  split.
  - intros fuel a' H.
    apply applySettings_returns in H
      as (np1 & np2 & out & Hfirst & Hproc & Hprocs & Hlangs & Hshown & Htimers
          & Hdebouncers).
    pose proof (processString_state cut _ _ _ _ _ _ Hproc)
      as (Hw2 & Hl2 & Hc2 & Hcap2 & wrapped & Hwrap & Hlines & Hout).
    pose proof (processString_final_history cut _ _ _ _ _ Hproc) as [Hh2 Hp2].
    rewrite addToTranscriptHistory_blank in Hh2 by done.
    assert (TranscriptProcessor.maxCharsPerLine np1
            = TranscriptProcessor.maxCharsPerLine (LiveCaptionsApp.newProcessorFor settings)
            ∧ TranscriptProcessor.maxLines np1
              = TranscriptProcessor.maxLines (LiveCaptionsApp.newProcessorFor settings)
            ∧ TranscriptProcessor.isChinese np1
              = TranscriptProcessor.isChinese (LiveCaptionsApp.newProcessorFor settings)
            ∧ TranscriptProcessor.maxFinalTranscripts np1
              = TranscriptProcessor.maxFinalTranscripts
                  (LiveCaptionsApp.newProcessorFor settings))
      as (Hw1 & Hl1 & Hc1 & Hcap1).
    { destruct (LiveCaptionsApp.userTranscriptProcessors a !! userId) as [previous|];
        [destruct (negb _)|]; try (by inversion Hfirst).
      by apply replayHistory_state in Hfirst as (? & ? & ? & ? & _). }
    exists np2.
    split; [by rewrite Hprocs, lookup_insert_eq|].
    split; [by rewrite Hlangs, lookup_insert_eq|].
    split; [by rewrite Hw2, Hw1, Hnew|]. split; [by rewrite Hl2, Hl1, Hnew|].
    split; [by rewrite Hc2, Hc1, Hch|]. split; [by rewrite Hcap2, Hcap1, Hcap|].
    split; [done|].
    split.
    { exists wrapped. split.
      - rewrite Hw1, Hnew in Hwrap. exact Hwrap.
      - rewrite Hlines, Hl1, Hnew. apply fitted_loops. }
    split; [by rewrite Hshown, Hout|].
    split; [done|]. split; [done|].
    split.
    + intros prev Hprev Hnone Hempty Hne.
      rewrite (languageChanged_true _ _ _ _ Hprev Hnone Hempty Hne) in Hfirst.
      assert (np1 = LiveCaptionsApp.newProcessorFor settings) as ->.
      { destruct (LiveCaptionsApp.userTranscriptProcessors a !! userId);
          by inversion Hfirst. }
      split; [by rewrite Hh2|].
      rewrite Hshown.
      rewrite (processString_empty_history cut _ _ _ _ Hproc Hh0).
      by rewrite clean_blank_lines.
    + intros previous Hprev Hprevious [Hall Hlen] Hcapacity.
      rewrite (languageChanged_same _ _ _ Hprev), Hprevious in Hfirst.
      simpl in Hfirst. exists np1. split; [done|]. split; [done|].
      rewrite Hh2. unfold LiveCaptionsApp.newProcessorFor in Hfirst.
      eapply replay_into_fresh; [exact Hfirst|done|].
      rewrite <- Hcapacity. done.
  - intros Hlang.
    assert (TranscriptProcessor.isChinese (LiveCaptionsApp.newProcessorFor settings)
            = false) as Hws.
    { rewrite Hch. by destruct (String.eqb_spec
        (LiveCaptionsApp.settingsLanguage settings) "Chinese (Hanzi)"). }
    assert (∃ fuel np1,
      match LiveCaptionsApp.userTranscriptProcessors a !! userId with
      | Some previous =>
          if negb (LiveCaptionsApp.languageChanged userId
                     (LiveCaptionsApp.settingsLanguage settings) a)
          then LiveCaptionsApp.replayHistory cut fuel
                 (TranscriptProcessor.finalTranscriptHistory previous)
                 (LiveCaptionsApp.newProcessorFor settings)
          else Returns (LiveCaptionsApp.newProcessorFor settings)
      | None => Returns (LiveCaptionsApp.newProcessorFor settings)
      end = Returns np1
      ∧ TranscriptProcessor.isChinese np1 = false
      ∧ 0 < TranscriptProcessor.maxCharsPerLine np1) as (f1 & np1 & Hfirst & Hc1 & Hw1).
    { destruct (LiveCaptionsApp.userTranscriptProcessors a !! userId) as [previous|];
        [destruct (negb _)|];
        try (exists 0, (LiveCaptionsApp.newProcessorFor settings);
             split; [done|split; [done|lia]]).
      destruct (replayHistory_whitespace_returns cut
                  (TranscriptProcessor.finalTranscriptHistory previous)
                  (LiveCaptionsApp.newProcessorFor settings) Hws ltac:(lia))
        as (f & np1 & Hr).
      exists f, np1. split; [done|].
      apply replayHistory_state in Hr as (-> & _ & -> & _). split; [done|lia]. }
    destruct (processString_whitespace_returns cut np1 (JString []) true)
      as (f2 & np2 & out & Hproc); [done..|].
    exists (f1 `max` f2).
    unfold LiveCaptionsApp.applySettings.
    cbn [LiveCaptionsApp.userTranscriptProcessors LiveCaptionsApp.set_languages].
    unfold TranscriptProcessor.getFinalTranscriptHistory.
    assert (f1 ≤ f1 `max` f2) as Hf1 by lia.
    assert (f2 ≤ f1 `max` f2) as Hf2 by lia.
    destruct (LiveCaptionsApp.userTranscriptProcessors a !! userId) as [previous|];
      [destruct (negb _)|].
    + rewrite (replayHistory_more_fuel cut f1 _ _ Hf1 _ _ Hfirst).
      cbn [mbind outcome_bind].
      rewrite (processString_more_fuel cut f2 _ _ _ _ _ Hf2 Hproc). eauto.
    + inversion Hfirst; subst. cbn [mbind outcome_bind].
      rewrite (processString_more_fuel cut f2 _ _ _ _ _ Hf2 Hproc). eauto.
    + inversion Hfirst; subst. cbn [mbind outcome_bind].
      rewrite (processString_more_fuel cut f2 _ _ _ _ _ Hf2 Hproc). eauto.
Qed.

Lemma applySettings_history_witness :
  (∃ a' newProcessor,
     LiveCaptionsApp.applySettings latinRunCut localeEnUS 50 "s" "u"
       (mkSettings (Some "English"%string) (Some "narrow"%string) (Some (Num 2)))
       idleSession = Returns a'
     ∧ LiveCaptionsApp.userTranscriptProcessors a' !! "u"%string = Some newProcessor
     ∧ TranscriptProcessor.maxCharsPerLine newProcessor = 30
     ∧ TranscriptProcessor.maxLines newProcessor = 2
     ∧ TranscriptProcessor.isChinese newProcessor = false
     ∧ TranscriptProcessor.finalTranscriptHistory newProcessor = [lit "hello"])
  ∧ (∃ a' newProcessor,
       LiveCaptionsApp.applySettings latinRunCut localeEnUS 50 "s" "u"
         (mkSettings (Some "Chinese (Hanzi)"%string) (Some "Wide"%string) None)
         idleSession = Returns a'
       ∧ LiveCaptionsApp.userTranscriptProcessors a' !! "u"%string = Some newProcessor
       ∧ TranscriptProcessor.maxCharsPerLine newProcessor = 18
       ∧ TranscriptProcessor.maxLines newProcessor = 3
       ∧ TranscriptProcessor.isChinese newProcessor = true
       ∧ TranscriptProcessor.finalTranscriptHistory newProcessor = []
       ∧ LiveCaptionsApp.shown a' = [("s"%string, mkDisplay [] (Some 20000%Z))]).
Proof.
  split.
  - destruct (proj1 (applySettings_history latinRunCut localeEnUS "s" "u"
                       (mkSettings (Some "English"%string) (Some "narrow"%string)
                          (Some (Num 2))) idleSession) 50 _ eq_refl)
      as (np & Hnp & _ & Hw & Hl & Hc & _ & _ & _ & _ & _ & _ & _ & Hsame).
    eexists _, np. split; [reflexivity|]. split; [exact Hnp|].
    split; [exact Hw|]. split; [exact Hl|]. split; [exact Hc|].
    destruct (Hsame (TranscriptProcessor.mk 30 3 [] [] [] [lit "hello"] 30 false
                       [lit "hello"; []; []]))
      as (replayed & _ & _ & Hh); [by vm_compute|by vm_compute| |reflexivity|exact Hh].
    split; [|simpl; unfold MAX_FINAL_TRANSCRIPTS; lia].
    repeat constructor; by vm_compute.
  - destruct (proj1 (applySettings_history latinRunCut localeEnUS "s" "u"
                       (mkSettings (Some "Chinese (Hanzi)"%string)
                          (Some "Wide"%string) None)
                       idleSession) 50 _ eq_refl)
      as (np & Hnp & _ & Hw & Hl & Hc & _ & _ & _ & _ & _ & _ & Hchanged & _).
    eexists _, np. split; [reflexivity|]. split; [exact Hnp|].
    split; [exact Hw|]. split; [exact Hl|]. split; [exact Hc|].
    apply (Hchanged "English"%string); [by vm_compute|done..].
Defined.

(** C7, counterexample. What a change of language resets: the history
    is cleared and the blank display shown, but [applySettings] does not go
    through the debouncer and clears no timer. A partial transcript that
    waits on the debounce timer of the session is shown when the timer
    fires, after the blank display, with the text of the history that was
    cleared. *)
Lemma language_change_keeps_pending_partial :
  match languageChangeWhilePending with
  | Returns a =>
      (∃ newProcessor,
         LiveCaptionsApp.userTranscriptProcessors a !! "u"%string = Some newProcessor
         ∧ TranscriptProcessor.finalTranscriptHistory newProcessor = []
         ∧ TranscriptProcessor.partialText newProcessor = [])
      ∧ last (LiveCaptionsApp.shown a) = Some ("s"%string, mkDisplay [] (Some 20000%Z))
      ∧ LiveCaptionsApp.timers a !! 2
        = Some (1500%Z, DebounceFire "s" (lit "hello good day" ++ [NEWLINE; NEWLINE]))
      ∧ LiveCaptionsApp.shown (LiveCaptionsApp.fireTimer 1500 2 a)
        = LiveCaptionsApp.shown a
          ++ [("s"%string, mkDisplay (lit "hello good day") None)]
  | _ => False
  end.
Proof.
  destruct languageChangeWhilePending as [a| |] eqn:E;
    [|vm_compute in E; discriminate..].
  vm_compute in E. injection E as <-.
  split; [|split; [by vm_compute|split; by vm_compute]].
  eexists. split; [by vm_compute|]. split; reflexivity.
Qed.

(** ** The states the handlers reach *)

Section Reachability.

Import LiveCaptionsApp.
Variable cut : str → list str.
Variable pinyinOfChinese : str → str.
Variable languageToLocale : string → string.

(** The state a final update leaves, written out. *)
Lemma debounce_final now sid c a :
  let d := default (TranscriptDebouncer.mk 0 None) (sessionDebouncers a !! sid) in
  let timers0 :=
    match TranscriptDebouncer.timer d with
    | Some id => delete id (timers a)
    | None => timers a
    end in
  debounceAndShowTranscript now sid c true a
  = mk (userTranscriptProcessors a) (userActiveLanguages a)
       (<[sid := TranscriptDebouncer.mk now None]> (sessionDebouncers a))
       (inactivityTimers a) timers0 (nextTimer a) (subscriptions a)
       (shown a ++ [(sid, mkDisplay (cleanTranscriptText c) (Some 20000%Z))]).
Proof.
  intros d timers0. subst d timers0.
  unfold debounceAndShowTranscript.
  destruct (sessionDebouncers a !! sid) as [[last tm]|] eqn:Hd; simpl.
  - rewrite Hd. simpl.
    destruct tm as [id|]; simpl;
      unfold writeDebouncer, clearTimeout, showTranscriptsToUser, showTextWall;
      simpl; f_equal;
      rewrite !(alter_lookup_insert _ _ _ _ Hd); simpl; try done;
      (rewrite (alter_lookup_insert _ sid (TranscriptDebouncer.mk last None));
         [|by rewrite lookup_insert_eq]);
      simpl; by rewrite insert_insert_eq.
  - rewrite lookup_insert_eq. simpl.
    unfold writeDebouncer, clearTimeout, showTranscriptsToUser, showTextWall; simpl.
    f_equal.
    rewrite (alter_lookup_insert _ sid (TranscriptDebouncer.mk 0 None));
      [|by rewrite lookup_insert_eq].
    simpl. by rewrite insert_insert_eq.
Qed.

Lemma cleared_sub sid a id v :
  match TranscriptDebouncer.timer
          (default (TranscriptDebouncer.mk 0 None) (sessionDebouncers a !! sid)) with
  | Some id0 => delete id0 (timers a)
  | None => timers a
  end !! id = Some v → timers a !! id = Some v.
Proof.
  destruct (TranscriptDebouncer.timer _); [|done].
  intros H. by apply lookup_delete_Some in H as [_ H].
Qed.

Lemma debounce_owned now sid c isFinal a s :
  debounceTimersOwned s a →
  debounceTimersOwned s (debounceAndShowTranscript now sid c isFinal a).
Proof.
  intros Hown. destruct (decide (s = sid)) as [->|Hne].
  - destruct isFinal; [|by apply debounce_nonfinal_owned].
    intros id due c' H. rewrite debounce_final in H. simpl in H.
    by apply owned_cleared in H.
  - intros id due c' H.
    assert (timers a !! id = Some (due, DebounceFire s c')) as H0.
    { destruct isFinal.
      - rewrite debounce_final in H. simpl in H. by apply cleared_sub in H.
      - rewrite debounce_nonfinal in H.
        destruct (debounceDelay <=? _)%Z; simpl in H.
        + by apply cleared_sub in H.
        + apply lookup_insert_Some in H as [[_ Heq]|[_ H]].
          * inversion Heq; congruence.
          * by apply cleared_sub in H. }
    destruct (Hown _ _ _ H0) as (d & Hd & Htm). exists d. split; [|done].
    destruct isFinal.
    + rewrite debounce_final. simpl. by rewrite lookup_insert_ne.
    + rewrite debounce_nonfinal.
      destruct (debounceDelay <=? _)%Z; simpl; by rewrite lookup_insert_ne.
Qed.

Lemma resetInactivityTimer_owned now sid uid a s :
  debounceTimersOwned s a →
  debounceTimersOwned s (resetInactivityTimer now sid uid a).
Proof.
  intros Hown id due c H. unfold resetInactivityTimer in *.
  destruct (inactivityTimers a !! sid) as [it|]; [|by apply (Hown id due c)].
  destruct (InactivityTimer.timer it) as [id0|]; simpl in *.
  - apply lookup_insert_Some in H as [[_ Heq]|[_ H]]; [done|].
    apply lookup_delete_Some in H as [_ H]. by apply (Hown id due c).
  - apply lookup_insert_Some in H as [[_ Heq]|[_ H]]; [done|].
    by apply (Hown id due c).
Qed.

Lemma fireTimer_owned now id a s :
  debounceTimersOwned s a → debounceTimersOwned s (fireTimer now id a).
Proof.
  intros Hown id' due c H. unfold fireTimer in *.
  destruct (timers a !! id) as [[due0 cb]|] eqn:Ht; [|by apply (Hown id' due c)].
  destruct (due0 <=? now)%Z; [|by apply (Hown id' due c)].
  destruct cb as [sid tr|sid uid]; simpl in *.
  - apply lookup_delete_Some in H as [_ H].
    destruct (Hown _ _ _ H) as (d & Hd & Htm).
    rewrite lookup_alter. case_decide; subst.
    + rewrite Hd. simpl. case_bool_decide; eauto.
    + eauto.
  - destruct (userTranscriptProcessors a !! uid); simpl in *;
      apply lookup_delete_Some in H as [_ H]; by apply (Hown id' due c).
Qed.
Lemma debounce_processors now sid c isFinal a :
  userTranscriptProcessors (debounceAndShowTranscript now sid c isFinal a)
  = userTranscriptProcessors a.
Proof.
  destruct isFinal.
  - by rewrite debounce_final.
  - rewrite debounce_nonfinal. by destruct (debounceDelay <=? _)%Z.
Qed.

Lemma resetInactivityTimer_processors now sid uid a :
  userTranscriptProcessors (resetInactivityTimer now sid uid a)
  = userTranscriptProcessors a.
Proof.
  unfold resetInactivityTimer.
  destruct (inactivityTimers a !! sid) as [it|]; [|done].
  by destruct (InactivityTimer.timer it).
Qed.

Lemma historyOk_new w n chinese :
  historyOk (TranscriptProcessor.new w n MAX_FINAL_TRANSCRIPTS chinese).
Proof. split; [constructor|simpl; lia]. Qed.

Lemma replayHistory_historyOk fuel (h : list str) :
  ∀ np np',
    replayHistory cut fuel h np = Returns np' → historyOk np → historyOk np'.
Proof.
  induction h as [|t rest IH]; intros np np' H Hok.
  - by inversion H; subst.
  - rewrite replayHistory_cons in H.
    destruct (TranscriptProcessor.processString cut fuel np (JString t) true)
      as [[p1 out]| |] eqn:E; [|done..].
    apply (IH p1); [done|]. by apply (processString_historyOk cut _ _ _ _ _ _ E).
Qed.

(** The steps of a call of [handleTranscription] that returns. *)
Lemma handleTranscription_returns fuel now sid uid data a a' :
  handleTranscription cut pinyinOfChinese fuel now sid uid data a = Returns a' →
  ∃ processor newText processor' out a1,
    (userTranscriptProcessors a !! uid = Some processor
     ∨ userTranscriptProcessors a !! uid = None
       ∧ processor = TranscriptProcessor.new 30 3 MAX_FINAL_TRANSCRIPTS false)
    ∧ TranscriptProcessor.processString cut fuel processor newText (data_isFinal data)
      = Returns (processor', out)
    ∧ userTranscriptProcessors a1 = <[uid := processor']> (userTranscriptProcessors a)
    ∧ (∀ s, debounceTimersOwned s a → debounceTimersOwned s a1)
    ∧ a' = debounceAndShowTranscript now sid out (data_isFinal data) a1.
Proof.
  unfold handleTranscription.
  pose proof (resetInactivityTimer_processors now sid uid a) as Hp.
  pose proof (λ s, resetInactivityTimer_owned now sid uid a s) as Hown.
  set (a0 := resetInactivityTimer now sid uid a) in *.
  destruct (userTranscriptProcessors a0 !! uid) as [processor|] eqn:Hl.
  - rewrite Hl. simpl.
    match goal with
    | |- (TranscriptProcessor.processString cut fuel ?p ?x ?f ≫= _) = _ → _ =>
        destruct (TranscriptProcessor.processString cut fuel p x f)
          as [[processor' out]| |] eqn:E; [|done..]
    end.
    cbn [mbind outcome_bind]. intros [= <-].
    eexists processor, _, processor', out, _.
    split; [left; by rewrite <- Hp|]. split; [exact E|].
    split; [|split; [|reflexivity]].
    + simpl. by rewrite Hp.
    + intros s Hs id due c H. simpl in H. by apply (Hown s Hs id due c).
  - cbn [userTranscriptProcessors set_processors]. rewrite lookup_insert_eq. simpl.
    match goal with
    | |- (TranscriptProcessor.processString cut fuel ?p ?x ?f ≫= _) = _ → _ =>
        destruct (TranscriptProcessor.processString cut fuel p x f)
          as [[processor' out]| |] eqn:E; [|done..]
    end.
    cbn [mbind outcome_bind]. intros [= <-].
    eexists _, _, processor', out, _.
    split; [right; split; [by rewrite <- Hp|reflexivity]|]. split; [exact E|].
    split; [|split; [|reflexivity]].
    + simpl. by rewrite insert_insert_eq, Hp.
    + intros s Hs id due c H. simpl in H. by apply (Hown s Hs id due c).
Qed.

(** Every reachable state satisfies the invariant. *)
Lemma reachable_invariant a :
  reachable cut pinyinOfChinese languageToLocale a → appInvariant a.
Proof.
  induction 1 as [a Ht Hp|a fuel now sid uid data a' _ [Hown Hproc] H
                  |a fuel sid uid settings a' _ [Hown Hproc] H
                  |a now id _ [Hown Hproc]].
  - split.
    + intros s id due c H. by rewrite Ht, lookup_empty in H.
    + intros u p H. by rewrite Hp, lookup_empty in H.
  - apply handleTranscription_returns in H
      as (p & newText & p' & out & a1 & Hp & E & Ha1 & Hown1 & ->).
    split.
    + intros s. apply debounce_owned. by apply Hown1.
    + intros u q. rewrite debounce_processors, Ha1.
      intros Hq. apply lookup_insert_Some in Hq as [[_ <-]|[_ Hq]]; [|by apply (Hproc u)].
      assert (historyOk p
              ∧ TranscriptProcessor.maxFinalTranscripts p = MAX_FINAL_TRANSCRIPTS)
        as [Hok Hcap].
      { destruct Hp as [Hp|[_ ->]]; [by apply (Hproc uid)|].
        split; [apply historyOk_new|done]. }
      split; [by apply (processString_historyOk cut _ _ _ _ _ _ E)|].
      by apply processString_state in E as (_ & _ & _ & -> & _).
  - apply applySettings_returns in H
      as (np1 & np2 & out & Hfirst & E & Hprocs & Hlangs & Hshown & Htimers
          & Hdebouncers).
    split.
    + intros s id due c Ht. rewrite Htimers in Ht.
      destruct (Hown s _ _ _ Ht) as (d & Hd & Htm).
      exists d. by rewrite Hdebouncers.
    + intros u q. rewrite Hprocs.
      intros Hq. apply lookup_insert_Some in Hq as [[_ <-]|[_ Hq]]; [|by apply (Hproc u)].
      assert (historyOk np1
              ∧ TranscriptProcessor.maxFinalTranscripts np1 = MAX_FINAL_TRANSCRIPTS)
        as [Hok Hcap].
      { destruct (userTranscriptProcessors a !! uid) as [previous|];
          [destruct (negb _)|];
          try (inversion Hfirst; subst; split; [apply historyOk_new|done]).
        split; [by apply (replayHistory_historyOk _ _ _ _ Hfirst), historyOk_new|].
        by apply replayHistory_state in Hfirst as (_ & _ & _ & -> & _). }
      split; [by apply (processString_historyOk cut _ _ _ _ _ _ E)|].
      by apply processString_state in E as (_ & _ & _ & -> & _).
  - split.
    + intros s. by apply fireTimer_owned.
    + intros u q Hq. unfold fireTimer in Hq.
      destruct (timers a !! id) as [[due cb]|]; [|by apply (Hproc u)].
      destruct (due <=? now)%Z; [|by apply (Hproc u)].
      destruct cb as [sid tr|sid uid]; simpl in Hq; [by apply (Hproc u)|].
      destruct (userTranscriptProcessors a !! uid) as [tp|] eqn:Htp;
        simpl in Hq; [|by apply (Hproc u)].
      apply lookup_insert_Some in Hq as [[_ <-]|[_ Hq]]; [|by apply (Hproc u)].
      destruct (Hproc uid tp Htp) as [_ Hcap].
      split; [|done]. split; [constructor|simpl; lia].
Qed.

End Reachability.

(** ** The line buffer: appendToLines and getTranscript *)

Section LineBuffer.

Import TranscriptProcessor.

(** The lines [appendToLines] has before it drops lines at the front. *)
Lemma appendToLines_pushed chunk p :
  ∃ before lastLine,
    lines (appendToLines chunk p)
    = shiftWhileLonger (maxLines p) (before ++ [lastLine])
    ∧ (∃ pre, lastLine = pre ++ chunk)
    ∧ (∀ P : str → Prop,
         Forall P (lines p) → P chunk →
         (∀ l, P l → l ≠ [] → length (l ++ [SPACE] ++ chunk) ≤ maxCharsPerLine p →
               P (l ++ [SPACE] ++ chunk)) →
         Forall P (before ++ [lastLine])).
Proof.
  unfold appendToLines, set_lines. cbn [lines].
  destruct (rev (lines p)) as [|lastLine before] eqn:E.
  - exists [], chunk. split; [done|]. split; [by exists []|].
    intros P _ Hc _. by apply Forall_singleton.
  - assert (lines p = rev before ++ [lastLine]) as Hl.
    { by rewrite <- (rev_involutive (lines p)), E. }
    destruct (str_eqb lastLine []) eqn:Hempty.
    + destruct (Nat.leb_spec (length chunk) (maxCharsPerLine p)).
      * exists (rev before), chunk. split; [done|]. split; [by exists []|].
        intros P Hall Hc _. rewrite Hl in Hall.
        apply Forall_app in Hall as [Hb _].
        apply Forall_app. split; [done|]. by apply Forall_singleton.
      * exists (rev before ++ [lastLine]), chunk.
        split; [by rewrite <- app_assoc|]. split; [by exists []|].
        intros P Hall Hc _. rewrite Hl in Hall.
        apply Forall_app. split; [done|]. by apply Forall_singleton.
    + apply str_eqb_false in Hempty.
      destruct (Nat.leb_spec (length (lastLine ++ [SPACE] ++ chunk)) (maxCharsPerLine p)).
      * exists (rev before), (lastLine ++ [SPACE] ++ chunk).
        split; [done|]. split; [exists (lastLine ++ [SPACE]); by rewrite <- app_assoc|].
        intros P Hall Hc Hjoin. rewrite Hl in Hall.
        apply Forall_app in Hall as [Hb Hlast].
        apply Forall_inv in Hlast.
        apply Forall_app. split; [done|]. apply Forall_singleton.
        apply Hjoin; [exact Hlast|exact Hempty|assumption].
      * exists (rev before ++ [lastLine]), chunk.
        split; [by rewrite <- app_assoc|]. split; [by exists []|].
        intros P Hall Hc _. rewrite Hl in Hall.
        apply Forall_app. split; [done|]. by apply Forall_singleton.
Qed.

End LineBuffer.

(** X1. [appendToLines] leaves at most [maxLines] lines; with at least one
    line allowed, the last line ends with the chunk just appended; and
    when the chunk and the lines so far fit the width, so do the lines
    afterwards. *)
Theorem appendToLines_keeps_lines (chunk : str) (p : TranscriptProcessor.t) :
  length (TranscriptProcessor.lines (TranscriptProcessor.appendToLines chunk p))
  ≤ TranscriptProcessor.maxLines p
  ∧ (0 < TranscriptProcessor.maxLines p →
     ∃ before pre,
       TranscriptProcessor.lines (TranscriptProcessor.appendToLines chunk p)
       = before ++ [pre ++ chunk])
  ∧ (length chunk ≤ TranscriptProcessor.maxCharsPerLine p →
     Forall (λ l : str, length l ≤ TranscriptProcessor.maxCharsPerLine p)
       (TranscriptProcessor.lines p) →
     Forall (λ l : str, length l ≤ TranscriptProcessor.maxCharsPerLine p)
       (TranscriptProcessor.lines (TranscriptProcessor.appendToLines chunk p))).
Proof.
  destruct (appendToLines_pushed chunk p) as (before & lastLine & -> & [pre ->] & Hall).
  split; [|split].
  - rewrite shiftWhileLonger_length. lia.
  - intros Hpos. unfold TranscriptProcessor.shiftWhileLonger.
    rewrite length_app. simpl.
    exists (drop (length before + 1 - TranscriptProcessor.maxLines p) before), pre.
    rewrite drop_app_le by lia. done.
  - intros Hc Hl. unfold TranscriptProcessor.shiftWhileLonger.
    apply Forall_drop.
    apply (Hall (λ l : str, length l ≤ TranscriptProcessor.maxCharsPerLine p));
      [done|done|]. intros l _ _ H. exact H.
Qed.

Lemma appendToLines_keeps_lines_witness :
  TranscriptProcessor.lines
    (TranscriptProcessor.appendToLines (lit "foo")
       (TranscriptProcessor.appendToLines (lit "world")
          (TranscriptProcessor.appendToLines (lit "hello")
             (TranscriptProcessor.new 10 2 3 false))))
  = [lit "hello"; lit "world foo"]
  ∧ Forall (λ l : str, length l ≤ 10) [lit "hello"; lit "world foo"].
Proof.
  split; [reflexivity|].
  apply (appendToLines_keeps_lines (lit "foo")
           (TranscriptProcessor.appendToLines (lit "world")
              (TranscriptProcessor.appendToLines (lit "hello")
                 (TranscriptProcessor.new 10 2 3 false))));
    [simpl; lia|].
  repeat constructor; simpl; lia.
Defined.

(** X2. After [appendToLines] of a newline-free chunk to newline-free
    lines, [getTranscript] returns a string that splits at newlines into
    exactly [maxLines] pieces, the lines followed by empty pieces; it
    empties the lines, so that a second [getTranscript] returns only empty
    lines. *)
Theorem getTranscript_after_append (chunk : str) (p : TranscriptProcessor.t) :
  0 < TranscriptProcessor.maxLines p →
  Forall noNewline (TranscriptProcessor.lines p) →
  noNewline chunk →
  let q := TranscriptProcessor.appendToLines chunk p in
  split_on NEWLINE (TranscriptProcessor.getTranscript q).1
  = TranscriptProcessor.lines q
    ++ replicate (TranscriptProcessor.maxLines p - length (TranscriptProcessor.lines q)) []
  ∧ length (split_on NEWLINE (TranscriptProcessor.getTranscript q).1)
    = TranscriptProcessor.maxLines p
  ∧ TranscriptProcessor.lines (TranscriptProcessor.getTranscript q).2 = []
  ∧ (TranscriptProcessor.getTranscript (TranscriptProcessor.getTranscript q).2).1
    = join [NEWLINE] (replicate (TranscriptProcessor.maxLines p) []).
Proof.
  intros Hpos Hlines Hchunk q.
  assert (length (TranscriptProcessor.lines q) ≤ TranscriptProcessor.maxLines p) as Hlen.
  { subst q. destruct (appendToLines_pushed chunk p) as (before & lastLine & -> & _).
    rewrite shiftWhileLonger_length. lia. }
  assert (Forall noNewline (TranscriptProcessor.lines q)) as Hnl.
  { subst q.
    destruct (appendToLines_pushed chunk p) as (before & lastLine & -> & _ & Hall).
    unfold TranscriptProcessor.shiftWhileLonger. apply Forall_drop.
    apply (Hall noNewline); [done|done|].
    intros l Hl _ _. unfold noNewline in *. rewrite !Forall_app.
    split; [done|]. split; [|done]. by apply Forall_singleton. }
  assert (TranscriptProcessor.maxLines q = TranscriptProcessor.maxLines p) as Hmax by done.
  clearbody q. unfold TranscriptProcessor.getTranscript. simpl. rewrite Hmax.
  assert (split_on NEWLINE
            (join [NEWLINE]
               (TranscriptProcessor.lines q
                ++ replicate (TranscriptProcessor.maxLines p
                              - length (TranscriptProcessor.lines q)) []))
          = TranscriptProcessor.lines q
            ++ replicate (TranscriptProcessor.maxLines p
                          - length (TranscriptProcessor.lines q)) []) as Hsplit.
  { apply split_on_join.
    - intros Hnil. apply (f_equal length) in Hnil.
      rewrite length_app, length_replicate in Hnil. simpl in Hnil. lia.
    - apply Forall_app. split.
      + eapply Forall_impl; [exact Hnl|]. apply noNewline_not_elem.
      + apply Forall_replicate. apply not_elem_of_nil. }
  split; [done|]. split.
  - rewrite Hsplit, length_app, length_replicate. lia.
  - split; [done|]. by rewrite Nat.sub_0_r.
Qed.

Lemma getTranscript_after_append_witness :
  split_on NEWLINE
    (TranscriptProcessor.getTranscript
       (TranscriptProcessor.appendToLines (lit "hello")
          (TranscriptProcessor.new 10 3 3 false))).1
  = [lit "hello"; []; []].
Proof.
  apply (getTranscript_after_append (lit "hello") (TranscriptProcessor.new 10 3 3 false));
    [simpl; lia|constructor|].
  unfold noNewline. by repeat constructor.
Defined.

(** ** Word boundaries and the wrap loop, further *)

Section BoundaryFacts.

Variable cut : str → list str.

Lemma boundaryLoop_edge words :
  ∀ cur position,
    cur ≤ position →
    position < cur + length (concat words) →
    ∃ k word,
      words !! k = Some word
      ∧ ChineseUtils.boundaryLoop words cur position
        = cur + length (concat (take k words))
      ∧ ChineseUtils.boundaryLoop words cur position ≤ position
      ∧ position < ChineseUtils.boundaryLoop words cur position + length word.
Proof.
  induction words as [|word rest IH]; intros cur position Hle Hlt.
  - simpl in Hlt. lia.
  - simpl. destruct (Nat.ltb_spec position (cur + length word)) as [Hfit|Hfit].
    + exists 0, word. simpl. split; [done|]. split; [lia|]. lia.
    + destruct (IH (cur + length word) position) as (k & w' & Hk & Heq & Hb1 & Hb2).
      * lia.
      * simpl in Hlt. rewrite length_app in Hlt. lia.
      * exists (S k), w'. simpl. rewrite length_app.
        split; [done|]. split; [lia|]. split; lia.
Qed.

Lemma boundaryLoop_all_fit words :
  ∀ cur position,
    cur + length (concat words) ≤ position →
    ChineseUtils.boundaryLoop words cur position = position.
Proof.
  induction words as [|word rest IH]; intros cur position Hle; [done|].
  simpl in *. rewrite length_app in Hle.
  destruct (Nat.ltb_spec position (cur + length word)); [lia|].
  apply IH. lia.
Qed.

Lemma boundaryLoop_ge words :
  ∀ cur position,
    cur ≤ position → cur ≤ ChineseUtils.boundaryLoop words cur position.
Proof.
  induction words as [|word rest IH]; intros cur position Hle; [done|].
  simpl. destruct (Nat.ltb_spec position (cur + length word)); [done|].
  etrans; [|apply IH; lia]. lia.
Qed.

Lemma isChinese_false_Forall (text : str) :
  ChineseUtils.isChinese text = false
  ↔ Forall (λ c, ((0x4e00 <=? c) && (c <=? 0x9fa5))%N = false) text.
Proof.
  unfold ChineseUtils.isChinese. induction text as [|c text IH]; simpl.
  - split; [constructor|done].
  - rewrite orb_false_iff, Forall_cons, IH. done.
Qed.

End BoundaryFacts.

Section WrapProgress.

Import TranscriptProcessor.
Variable cut : str → list str.

(** The loop ends when every iteration on a text longer than the width
    takes at least one unit, along an invariant of the remaining text. *)
Lemma wrapLoop_ends_inv (Inv : str → Prop) chinese w :
  (∀ t, Inv t → w < length t →
        1 ≤ splitIndexOf cut chinese t w
        ∧ Inv (trim (substring_from t (splitIndexOf cut chinese t w)))) →
  ∀ fuel text result,
    Inv text → length text < fuel →
    (wrapLoop cut fuel chinese w text result).2 = true.
Proof.
  intros Hstep.
  induction fuel as [|fuel IH]; intros text result Hinv Hfuel; [lia|].
  cbn [wrapLoop]. destruct text as [|c text]; [done|].
  destruct (Nat.leb_spec (length (c :: text)) w) as [Hle|Hgt]; [done|].
  destruct (Hstep (c :: text) Hinv Hgt) as [Hpos Hinv'].
  apply IH; [done|].
  pose proof (rest_length (c :: text) (splitIndexOf cut chinese (c :: text) w)).
  lia.
Qed.

Lemma wrapLoop_ended_wrapText fuel p text w :
  (wrapLoop cut fuel (isChinese p) w text []).2 = true →
  ∃ wrapped, wrapText cut fuel p text w = Some wrapped.
Proof.
  unfold wrapText. destruct (wrapLoop _ _ _ _ _ _) as [r b]. simpl.
  intros ->. by exists r.
Qed.

(** The lines pushed before stay at the front. *)
Lemma wrapLoop_extends fuel chinese w text result :
  ∃ more, (wrapLoop cut fuel chinese w text result).1 = result ++ more.
Proof.
  revert text result.
  induction fuel as [|fuel IH]; intros text result; cbn [wrapLoop].
  - exists []. by rewrite app_nil_r.
  - destruct text as [|c text]; [exists []; by rewrite app_nil_r|].
    destruct (length (c :: text) <=? w); [by exists [c :: text]|].
    destruct (IH (trim (substring_from (c :: text)
                          (splitIndexOf cut chinese (c :: text) w)))
                 (result ++ [trim (substring_to (c :: text)
                                     (splitIndexOf cut chinese (c :: text) w))]))
      as [more ->].
    eexists. by rewrite <- app_assoc.
Qed.

Lemma visible_app (a b : str) : visible (a ++ b) = visible a ++ visible b.
Proof. apply List.filter_app. Qed.

Lemma visible_dropWhile (s : str) : visible (dropWhile isWhiteSpace s) = visible s.
Proof.
  induction s as [|c s IH]; [done|]. simpl.
  destruct (isWhiteSpace c) eqn:E; [by rewrite IH|]. simpl. by rewrite E.
Qed.

Lemma visible_cons c (s : str) :
  visible (c :: s) = if negb (isWhiteSpace c) then c :: visible s else visible s.
Proof. reflexivity. Qed.

Lemma visible_rev (s : str) : visible (rev s) = rev (visible s).
Proof.
  induction s as [|c s IH]; [done|].
  cbn [rev]. rewrite visible_app, IH, !visible_cons.
  destruct (negb (isWhiteSpace c)); [done|]. by rewrite app_nil_r.
Qed.

Lemma visible_trim (s : str) : visible (trim s) = visible s.
Proof.
  unfold trim, trimEnd, trimStart.
  rewrite visible_rev, visible_dropWhile, visible_rev, rev_involutive.
  apply visible_dropWhile.
Qed.

(** The visible units of the lines and of the remaining text together
    stay what they are along the loop. *)
Lemma wrapLoop_visible fuel chinese w text result :
  (wrapLoop cut fuel chinese w text result).2 = true →
  visible (concat (wrapLoop cut fuel chinese w text result).1)
  = visible (concat result) ++ visible text.
Proof.
  revert text result.
  induction fuel as [|fuel IH]; intros text result; cbn [wrapLoop]; [done|].
  destruct text as [|c text]; [intros _; by rewrite app_nil_r|].
  destruct (length (c :: text) <=? w).
  - intros _. cbn [fst]. rewrite concat_app, visible_app. simpl.
    by rewrite app_nil_r.
  - intros Hend. rewrite (IH _ _ Hend).
    rewrite concat_app, visible_app. simpl. rewrite app_nil_r, !visible_trim.
    rewrite <- app_assoc, <- visible_app.
    unfold substring_to, substring_from. by rewrite take_drop.
Qed.

(** Past the first iteration every line is a trimmed string. *)
Lemma wrapLoop_trimmed fuel chinese w text result :
  trim text = text → Forall (λ l, trim l = l) result →
  Forall (λ l, trim l = l) (wrapLoop cut fuel chinese w text result).1.
Proof.
  revert text result.
  induction fuel as [|fuel IH]; intros text result Ht Hres; cbn [wrapLoop]; [done|].
  destruct text as [|c text]; [done|].
  destruct (length (c :: text) <=? w).
  - cbn [fst]. apply Forall_app. split; [done|]. by apply Forall_singleton.
  - apply IH; [apply trim_idem|].
    apply Forall_app. split; [done|]. apply Forall_singleton, trim_idem.
Qed.

End WrapProgress.

(** X3. In a text with a Chinese character whose words, as the segmenter
    gives them, add up to more than [position] units,
    [findChineseWordBoundary] answers the end of a whole number of words:
    the longest run of leading words that fits [position]. When the text
    has no Chinese character, or all the words fit, it answers
    [position] itself. *)
Theorem findChineseWordBoundary_word_edge
    (cut : str → list str) (text : str) (position : nat) :
  (ChineseUtils.isChinese text = true →
   position < length (concat (cut text)) →
   ∃ k word,
     cut text !! k = Some word
     ∧ ChineseUtils.findChineseWordBoundary cut text position
       = length (concat (take k (cut text)))
     ∧ ChineseUtils.findChineseWordBoundary cut text position ≤ position
     ∧ position < ChineseUtils.findChineseWordBoundary cut text position + length word)
  ∧ (ChineseUtils.isChinese text = false ∨ length (concat (cut text)) ≤ position →
     ChineseUtils.findChineseWordBoundary cut text position = position).
Proof.
  unfold ChineseUtils.findChineseWordBoundary. split.
  - intros -> Hlen. simpl.
    destruct (boundaryLoop_edge (cut text) 0 position) as (k & word & H);
      [lia|lia|].
    exists k, word. exact H.
  - intros [->|Hlen]; [done|].
    destruct (negb _); [done|]. apply boundaryLoop_all_fit. lia.
Qed.

Lemma findChineseWordBoundary_word_edge_witness :
  ChineseUtils.findChineseWordBoundary latinRunCut
    ([0x6211; 0x4eec]%N ++ lit "abcd" ++ [0x597d]%N) 4 = 2.
Proof.
  destruct (proj1 (findChineseWordBoundary_word_edge latinRunCut
                     ([0x6211; 0x4eec]%N ++ lit "abcd" ++ [0x597d]%N) 4))
    as (k & word & Hk & Heq & Hle & Hlt); [reflexivity|simpl; lia|].
  reflexivity.
Defined.

(** X5. In Chinese mode a text without a Chinese character is wrapped
    whatever the segmenter does: [wrapText] returns, and a text longer
    than the width has as its first line the first [maxLineLength] units,
    trimmed; spaces play no part in the choice of the cut. *)
Theorem wrapText_chinese_mode_latin_text
    (cut : str → list str) (p : TranscriptProcessor.t) (text : str) (w : nat) :
  0 < w →
  TranscriptProcessor.isChinese p = true →
  ChineseUtils.isChinese text = false →
  ∃ wrapped,
    (∀ fuel, length text < fuel →
       TranscriptProcessor.wrapText cut fuel p text w = Some wrapped)
    ∧ (w < length text → head wrapped = Some (trim (substring_to text w))).
Proof.
  intros Hw Hp Hlatin.
  set (latin := λ t : str, ChineseUtils.isChinese t = false).
  assert (∀ t, latin t → w < length t →
            TranscriptProcessor.splitIndexOf cut true t w = w) as Hsplit.
  { intros t Ht _.
    unfold TranscriptProcessor.splitIndexOf, ChineseUtils.findChineseWordBoundary.
    by rewrite Ht. }
  assert (∀ fuel, length text < fuel →
            (TranscriptProcessor.wrapLoop cut fuel (TranscriptProcessor.isChinese p)
               w text []).2 = true) as Hends.
  { intros fuel Hfuel. rewrite Hp.
    apply (wrapLoop_ends_inv cut latin); [|done|done].
    intros t Ht Hlen. rewrite (Hsplit t Ht Hlen). split; [lia|].
    unfold latin in *. rewrite isChinese_false_Forall in *.
    apply trim_Forall. unfold substring_from. by apply Forall_drop. }
  destruct (wrapLoop_ended_wrapText cut (S (length text)) p text w) as [wrapped H];
    [apply Hends; lia|].
  exists wrapped. split.
  - intros fuel Hfuel.
    apply (wrapText_more_fuel cut (S (length text))); [lia|done].
  - intros Hlen. unfold TranscriptProcessor.wrapText in H. rewrite Hp in H.
    cbn [TranscriptProcessor.wrapLoop] in H.
    destruct text as [|c text]; [simpl in Hlen; lia|].
    destruct (Nat.leb_spec (length (c :: text)) w); [lia|].
    rewrite (Hsplit (c :: text) Hlatin Hlen) in H.
    destruct (wrapLoop_extends cut (length (c :: text)) true w
                (trim (substring_from (c :: text) w))
                ([] ++ [trim (substring_to (c :: text) w)])) as [more Hmore].
    destruct (TranscriptProcessor.wrapLoop cut (length (c :: text)) true w _ _)
      as [r b].
    simpl in Hmore. subst r. destruct b; [|done]. by inversion H.
Qed.

Lemma wrapText_chinese_mode_latin_text_witness :
  TranscriptProcessor.wrapText latinRunCut 20 (TranscriptProcessor.new 10 3 30 true)
    (lit "hello world foo") 10
  = Some [lit "hello worl"; lit "d foo"].
Proof.
  destruct (wrapText_chinese_mode_latin_text latinRunCut
              (TranscriptProcessor.new 10 3 30 true) (lit "hello world foo") 10)
    as (wrapped & Hret & Hhead); [lia|reflexivity|reflexivity|].
  reflexivity.
Defined.

(** X6. When [wrapText] returns, the lines hold the text: their code units
    other than whitespace, read line after line, are those of the text, in
    the same order. Only whitespace is dropped, and nothing is added. *)
Theorem wrapText_keeps_visible_text
    (cut : str → list str) (fuel : nat) (p : TranscriptProcessor.t) (text : str)
    (w : nat) (wrapped : list str) :
  TranscriptProcessor.wrapText cut fuel p text w = Some wrapped →
  visible (concat wrapped) = visible text.
Proof.
  unfold TranscriptProcessor.wrapText. intros H.
  pose proof (wrapLoop_visible cut fuel (TranscriptProcessor.isChinese p) w text [])
    as Hvis.
  destruct (TranscriptProcessor.wrapLoop cut fuel _ w text []) as [r b].
  destruct b; [|done]. inversion H; subst. by apply Hvis.
Qed.

Lemma wrapText_keeps_visible_text_witness :
  visible (concat [lit "hello"; lit "world foo"]) = visible (lit " hello world foo").
Proof.
  apply (wrapText_keeps_visible_text latinRunCut 20
           (TranscriptProcessor.new 10 2 3 false) (lit " hello world foo") 10).
  reflexivity.
Defined.

(** X7. The shapes of what [wrapText] returns: nothing for the empty
    string; a non-empty text that fits the width as its only line, as it
    is, surrounding whitespace included; and for a longer text lines that
    are all trimmed, none beginning or ending with whitespace. *)
Theorem wrapText_line_shapes
    (cut : str → list str) (fuel : nat) (p : TranscriptProcessor.t) (text : str)
    (w : nat) (wrapped : list str) :
  TranscriptProcessor.wrapText cut fuel p text w = Some wrapped →
  (text = [] → wrapped = [])
  ∧ (text ≠ [] → length text ≤ w → wrapped = [text])
  ∧ (w < length text → Forall (λ l, trim l = l) wrapped).
Proof.
  unfold TranscriptProcessor.wrapText. intros H.
  destruct fuel as [|fuel]; [done|].
  cbn [TranscriptProcessor.wrapLoop] in H.
  destruct text as [|c text].
  - inversion H; subst. split; [done|]. split; [done|]. simpl. lia.
  - split; [done|].
    destruct (Nat.leb_spec (length (c :: text)) w) as [Hle|Hgt].
    + inversion H; subst. split; [done|]. lia.
    + split; [lia|]. intros _.
      pose proof (wrapLoop_trimmed cut fuel (TranscriptProcessor.isChinese p) w
                    (trim (substring_from (c :: text)
                             (TranscriptProcessor.splitIndexOf cut
                                (TranscriptProcessor.isChinese p) (c :: text) w)))
                    ([] ++ [trim (substring_to (c :: text)
                                    (TranscriptProcessor.splitIndexOf cut
                                       (TranscriptProcessor.isChinese p) (c :: text) w))]))
        as Htr.
      destruct (TranscriptProcessor.wrapLoop cut fuel _ w _ _) as [r b].
      destruct b; [|done]. inversion H; subst. apply Htr; [apply trim_idem|].
      apply Forall_singleton, trim_idem.
Qed.

Lemma wrapText_line_shapes_witness :
  TranscriptProcessor.wrapText latinRunCut 20 (TranscriptProcessor.new 10 2 3 false)
    (lit " hi ") 10 = Some [lit " hi "]
  ∧ Forall (λ l, trim l = l) [lit "hello"; lit "world foo"].
Proof.
  split; [reflexivity|].
  apply (wrapText_line_shapes latinRunCut 20 (TranscriptProcessor.new 10 2 3 false)
           (lit " hello world foo  ") 10); [reflexivity|simpl; lia].
Defined.

(** ** What reaches the display *)

Section SinkFacts.

Lemma isInfix_refl (s : str) : isInfix s s.
Proof. exists [], []. by rewrite app_nil_r. Qed.

Lemma isInfix_trans (a b c : str) : isInfix a b → isInfix b c → isInfix a c.
Proof.
  intros (x1 & y1 & ->) (x2 & y2 & ->).
  exists (x2 ++ x1), (y1 ++ y2). by rewrite <- !app_assoc.
Qed.

Lemma isInfix_length (m s : str) : isInfix m s → length m ≤ length s.
Proof. intros (x & y & ->). rewrite !length_app. lia. Qed.

Lemma dropWhile_isInfix f (s : str) : isInfix (dropWhile f s) s.
Proof.
  destruct (dropWhile_suffix f s) as [pre H].
  exists pre, []. by rewrite app_nil_r.
Qed.

Lemma trim_isInfix (s : str) : isInfix (trim s) s.
Proof.
  unfold trim. apply (isInfix_trans _ (trimStart s)); [|apply dropWhile_isInfix].
  destruct (trimEnd_prefix (trimStart s)) as [suf H].
  by exists [], suf.
Qed.

Lemma clean_isInfix (s : str) : isInfix (LiveCaptionsApp.cleanTranscriptText s) s.
Proof.
  unfold LiveCaptionsApp.cleanTranscriptText.
  eapply isInfix_trans; [apply trim_isInfix|apply dropWhile_isInfix].
Qed.

Lemma split_on_nonempty sep (m : str) : split_on sep m ≠ [].
Proof.
  destruct m as [|c m]; simpl; [done|].
  destruct (c =? sep)%N; [done|]. by destruct (split_on sep m).
Qed.

(** The first piece of a split starts the string; every piece is free of
    the separator and occurs in the string. *)
Lemma split_on_pieces sep (m : str) :
  ∃ p ps,
    split_on sep m = p :: ps
    ∧ (∃ rest, m = p ++ rest)
    ∧ Forall (λ q, (sep ∉ q) ∧ isInfix q m) (p :: ps).
Proof.
  induction m as [|c m (p & ps & Hs & [rest Hrest] & Hall)].
  - exists [], []. split; [done|]. split; [by exists []|].
    apply Forall_singleton. split; [apply not_elem_of_nil|apply isInfix_refl].
  - simpl. destruct (N.eqb_spec c sep) as [->|Hne].
    + exists [], (split_on sep m). split; [done|]. split; [by eexists|].
      apply Forall_cons. split.
      * split; [apply not_elem_of_nil|]. by exists [], (sep :: m).
      * rewrite Hs. eapply Forall_impl; [exact Hall|].
        intros q [Hq (x & y & Hxy)]. split; [done|].
        exists (sep :: x), y. by rewrite Hxy.
    + rewrite Hs. exists (c :: p), ps. split; [done|].
      split; [exists rest; by rewrite Hrest|].
      apply Forall_cons in Hall as [[Hp _] Hps].
      apply Forall_cons. split.
      * split; [by apply not_elem_of_cons|].
        exists [], rest. by rewrite Hrest.
      * eapply Forall_impl; [exact Hps|].
        intros q [Hq (x & y & Hxy)]. split; [done|].
        exists (c :: x), y. by rewrite Hxy.
Qed.

Lemma split_on_length sep (m : str) :
  length (split_on sep m) = S (length (List.filter (N.eqb sep) m)).
Proof.
  induction m as [|c m IH]; [done|]. simpl.
  rewrite (N.eqb_sym sep c).
  destruct (c =? sep)%N; simpl; [by rewrite IH|].
  destruct (split_on sep m) as [|p ps] eqn:E; [by apply split_on_nonempty in E|].
  by rewrite <- IH.
Qed.

Lemma isInfix_count sep (m s : str) :
  isInfix m s →
  length (List.filter (N.eqb sep) m) ≤ length (List.filter (N.eqb sep) s).
Proof.
  intros (x & y & ->). rewrite !List.filter_app, !length_app. lia.
Qed.

(** A run without the separator inside a join of lines lies within one of
    the lines. *)
Lemma sepfree_infix_join sep w (lines : list str) (q : str) :
  Forall (λ l : str, length l ≤ w) lines →
  sep ∉ q → isInfix q (join [sep] lines) → length q ≤ w.
Proof.
  intros Hall Hq. induction Hall as [|x rest Hx Hrest IH]; intros Hin.
  - apply isInfix_length in Hin. simpl in Hin. lia.
  - destruct rest as [|y rest'].
    + apply isInfix_length in Hin. simpl in Hin. lia.
    + change (join [sep] (x :: y :: rest'))
        with (x ++ sep :: join [sep] (y :: rest')) in Hin.
      destruct Hin as (a & b & Hab).
      symmetry in Hab. apply app_eq_inv in Hab as [(k & Ha & Hk)|(k & Hx' & Hk)].
      * destruct k as [|c k].
        -- simpl in Hk. destruct q as [|c q]; [simpl; lia|].
           inversion Hk; subst. exfalso. apply Hq. by left.
        -- inversion Hk; subst. apply IH. by exists k, b.
      * apply app_eq_inv in Hk as [(k2 & Hq2 & Hk2)|(k2 & Hk2 & Hb)].
        -- destruct k2 as [|c k2].
           ++ rewrite app_nil_r in Hq2. subst.
              rewrite length_app in Hx. lia.
           ++ inversion Hk2; subst. exfalso. apply Hq.
              apply elem_of_app. right. by left.
        -- subst. rewrite !length_app in Hx. lia.
Qed.

End SinkFacts.

(** X8. Whatever the event, the text [showTranscriptsToUser] hands to the
    display for a string [processString] returned has at most [maxLines]
    lines, each of at most [maxCharsPerLine] code units (history and text
    free of newlines): cleaning may remove lines, never add or lengthen
    one. *)
Theorem sink_display_within_geometry
    (cut : str → list str) (fuel : nat) (p p' : TranscriptProcessor.t)
    (newText : JsText) (isFinal : bool) (out : str) :
  TranscriptProcessor.processString cut fuel p newText isFinal = Returns (p', out) →
  0 < TranscriptProcessor.maxLines p →
  Forall noNewline (TranscriptProcessor.finalTranscriptHistory p) →
  (∀ s, newText = JString s → noNewline s) →
  length (split_on NEWLINE (LiveCaptionsApp.cleanTranscriptText out))
  ≤ TranscriptProcessor.maxLines p
  ∧ Forall (λ l : str, length l ≤ TranscriptProcessor.maxCharsPerLine p)
      (split_on NEWLINE (LiveCaptionsApp.cleanTranscriptText out)).
Proof.
  intros Hret Hpos Hhist Htext.
  pose proof (processString_lines_no_newline cut _ _ _ _ _ _ Hret Hhist Htext) as Hnl.
  apply processString_state in Hret
    as (_ & _ & _ & _ & wrapped & Hwrap & Hlines & ->).
  pose proof (fitted_loops (TranscriptProcessor.maxLines p) wrapped) as Hfit.
  rewrite <- Hlines in Hfit.
  set (lines := TranscriptProcessor.currentDisplayLines p') in *.
  assert (Forall (λ l : str, length l ≤ TranscriptProcessor.maxCharsPerLine p) lines)
    as Hwidth.
  { apply (fitted_Forall (λ l : str, length l ≤ TranscriptProcessor.maxCharsPerLine p)
             (TranscriptProcessor.maxLines p) wrapped lines Hfit); [simpl; lia|].
    by apply wrapText_widths in Hwrap. }
  assert (split_on NEWLINE (join [NEWLINE] lines) = lines) as Hsplit.
  { apply split_on_join.
    - intros Hnil. destruct Hfit as [Hlen _]. rewrite Hnil in Hlen. simpl in Hlen. lia.
    - eapply Forall_impl; [exact Hnl|]. apply noNewline_not_elem. }
  pose proof (clean_isInfix (join [NEWLINE] lines)) as Hinfix.
  split.
  - rewrite split_on_length.
    pose proof (isInfix_count NEWLINE _ _ Hinfix) as Hcount.
    pose proof (split_on_length NEWLINE (join [NEWLINE] lines)) as Hl.
    rewrite Hsplit in Hl. destruct Hfit as [Hlen _]. lia.
  - destruct (split_on_pieces NEWLINE
                (LiveCaptionsApp.cleanTranscriptText (join [NEWLINE] lines)))
      as (q & qs & -> & _ & Hall).
    eapply Forall_impl; [exact Hall|].
    intros piece [Hfree Hin].
    apply (sepfree_infix_join NEWLINE _ lines); [done|done|].
    by apply (isInfix_trans _ _ _ Hin).
Qed.

Lemma sink_display_within_geometry_witness :
  match TranscriptProcessor.processString latinRunCut 20
          (TranscriptProcessor.new 10 2 3 false)
          (JString (lit "...hello world foo bar")) false with
  | Returns (_, out) =>
      length (split_on NEWLINE (LiveCaptionsApp.cleanTranscriptText out)) ≤ 2
      ∧ Forall (λ l : str, length l ≤ 10)
          (split_on NEWLINE (LiveCaptionsApp.cleanTranscriptText out))
  | _ => False
  end.
Proof.
  destruct (TranscriptProcessor.processString latinRunCut 20
              (TranscriptProcessor.new 10 2 3 false)
              (JString (lit "...hello world foo bar")) false)
    as [[p' out]| |] eqn:E; [|vm_compute in E; discriminate..].
  apply (sink_display_within_geometry latinRunCut 20
           (TranscriptProcessor.new 10 2 3 false) p'
           (JString (lit "...hello world foo bar")) false out E);
    [simpl; lia|constructor|].
  intros s [= <-]. unfold noNewline. by repeat constructor.
Defined.

(** ** The debounce scheduler, further *)

Section ThrottleFacts.

Import LiveCaptionsApp.

Lemma spaced_no_pending sid (a : LiveCaptionsApp.t) :
  (∀ id due c, timers a !! id ≠ Some (due, DebounceFire sid c)) →
  debounceSpaced sid a.
Proof. intros Hnone id due c d H. by apply Hnone in H. Qed.

Lemma debounce_final_cases now sid c a :
  debounceTimersOwned sid a →
  let a' := debounceAndShowTranscript now sid c true a in
  shown a' = shown a ++ [(sid, mkDisplay (cleanTranscriptText c) (Some 20000%Z))]
  ∧ sessionDebouncers a' !! sid = Some (TranscriptDebouncer.mk now None)
  ∧ (∀ id due c', timers a' !! id ≠ Some (due, DebounceFire sid c'))
  ∧ (∀ id v, timers a' !! id = Some v → timers a !! id = Some v).
Proof.
  intros Hown a'. subst a'. rewrite debounce_final. simpl.
  split; [done|]. split; [by rewrite lookup_insert_eq|]. split.
  - intros id due c'. by apply owned_cleared.
  - intros id v. apply cleared_sub.
Qed.

End ThrottleFacts.

(** X9. A final update is shown at once, with the duration 20000 ms; it
    clears the debounce timer of the session, so that no partial set on a
    timer earlier can be shown after it, and records the time as that of
    the last display. *)
Theorem final_update_supersedes_partials
    (a : LiveCaptionsApp.t) (sessionId : string) (now : Z) (transcript : str) :
  debounceTimersOwned sessionId a →
  let a' := LiveCaptionsApp.debounceAndShowTranscript now sessionId transcript true a in
  LiveCaptionsApp.shown a'
  = LiveCaptionsApp.shown a
    ++ [(sessionId,
         mkDisplay (LiveCaptionsApp.cleanTranscriptText transcript) (Some 20000%Z))]
  ∧ LiveCaptionsApp.sessionDebouncers a' !! sessionId
    = Some (TranscriptDebouncer.mk now None)
  ∧ (∀ id due c,
       LiveCaptionsApp.timers a' !! id ≠ Some (due, DebounceFire sessionId c))
  ∧ (∀ id v, LiveCaptionsApp.timers a' !! id = Some v →
             LiveCaptionsApp.timers a !! id = Some v).
Proof.
  intros Hown. by apply debounce_final_cases.
Qed.

Lemma final_update_supersedes_partials_witness :
  LiveCaptionsApp.shown
    (LiveCaptionsApp.debounceAndShowTranscript 1200 "s" (lit "hello world.") true
       (LiveCaptionsApp.debounceAndShowTranscript 1100 "s" (lit "hello wor") false
          (LiveCaptionsApp.debounceAndShowTranscript 1000 "s" (lit "hello") false
             emptyApp)))
  = [("s"%string, mkDisplay (lit "hello") None)]
    ++ [("s"%string, mkDisplay (lit "hello world.") (Some 20000%Z))]
  ∧ LiveCaptionsApp.timers
      (LiveCaptionsApp.debounceAndShowTranscript 1200 "s" (lit "hello world.") true
         (LiveCaptionsApp.debounceAndShowTranscript 1100 "s" (lit "hello wor") false
            (LiveCaptionsApp.debounceAndShowTranscript 1000 "s" (lit "hello") false
               emptyApp))) = ∅.
Proof.
  split; [|by vm_compute].
  apply (final_update_supersedes_partials
           (LiveCaptionsApp.debounceAndShowTranscript 1100 "s" (lit "hello wor") false
              (LiveCaptionsApp.debounceAndShowTranscript 1000 "s" (lit "hello") false
                 emptyApp)) "s" 1200 (lit "hello world.")).
  apply debounce_nonfinal_owned, debounce_nonfinal_owned.
  intros id due c H. unfold emptyApp in H. simpl in H. by rewrite lookup_empty in H.
Defined.

(** X10. The throttle keeps its spacing. From a state in which the pending
    debounce timer of a session, if any, is the one its debouncer holds
    and is due no earlier than 400 ms after the session's last display,
    and at a time not before that display: a non-final update, the firing
    of a debounce timer of the session, and a final update each keep this
    so; and a non-final display, made on arrival or by the timer, comes at
    least 400 ms after the last display and becomes the last display. *)
Theorem throttle_keeps_spacing
    (a : LiveCaptionsApp.t) (sessionId : string) (now : Z) :
  debounceTimersOwned sessionId a →
  debounceSpaced sessionId a →
  let last :=
    TranscriptDebouncer.lastSentTime
      (default (TranscriptDebouncer.mk 0 None)
         (LiveCaptionsApp.sessionDebouncers a !! sessionId)) in
  (last ≤ now)%Z →
  (∀ c,
     let a' := LiveCaptionsApp.debounceAndShowTranscript now sessionId c false a in
     debounceTimersOwned sessionId a' ∧ debounceSpaced sessionId a'
     ∧ (LiveCaptionsApp.shown a' = LiveCaptionsApp.shown a
        ∨ (LiveCaptionsApp.shown a'
           = LiveCaptionsApp.shown a
             ++ [(sessionId, mkDisplay (LiveCaptionsApp.cleanTranscriptText c) None)]
           ∧ (last + 400 ≤ now)%Z
           ∧ LiveCaptionsApp.sessionDebouncers a' !! sessionId
             = Some (TranscriptDebouncer.mk now None))))
  ∧ (∀ id due c,
       LiveCaptionsApp.timers a !! id = Some (due, DebounceFire sessionId c) →
       let a' := LiveCaptionsApp.fireTimer now id a in
       debounceTimersOwned sessionId a' ∧ debounceSpaced sessionId a'
       ∧ (a' = a
          ∨ (LiveCaptionsApp.shown a'
             = LiveCaptionsApp.shown a
               ++ [(sessionId, mkDisplay (LiveCaptionsApp.cleanTranscriptText c) None)]
             ∧ (last + 400 ≤ now)%Z
             ∧ LiveCaptionsApp.sessionDebouncers a' !! sessionId
               = Some (TranscriptDebouncer.mk now (Some id)))))
  ∧ (∀ c,
       let a' := LiveCaptionsApp.debounceAndShowTranscript now sessionId c true a in
       debounceTimersOwned sessionId a' ∧ debounceSpaced sessionId a'
       ∧ LiveCaptionsApp.sessionDebouncers a' !! sessionId
         = Some (TranscriptDebouncer.mk now None)).
Proof.
  intros Hown Hspaced last Hnow. split; [|split].
  - intros c a'.
    destruct (debounce_nonfinal_cases now sessionId c a Hown) as [Hshow Hlater].
    fold last in Hshow, Hlater. fold a' in Hshow, Hlater.
    split; [by apply debounce_nonfinal_owned|].
    destruct (Z.le_gt_cases LiveCaptionsApp.debounceDelay (now - last)) as [Hle|Hgt].
    + destruct (Hshow Hle) as (Hs & Hd & Hnone).
      split; [by apply spaced_no_pending|].
      right. split; [done|]. split; [|done].
      unfold LiveCaptionsApp.debounceDelay in Hle. lia.
    + destruct (Hlater ltac:(lia)) as (Hs & id & Hd & Ht & Huniq).
      split; [|by left].
      intros id' due c' d H Hd'.
      rewrite Hd in Hd'. inversion Hd'; subst d. simpl.
      pose proof (Huniq _ _ _ H) as ->. rewrite Ht in H. inversion H; subst.
      lia.
  - intros id due c Ht a'.
    destruct (Hown _ _ _ Ht) as (d & Hd & Htm).
    split; [by apply fireTimer_owned|].
    destruct (Z.le_gt_cases due now) as [Hdue|Hearly].
    + destruct (fire_debounce now id a _ _ _ _ Ht Hd Hdue) as (Hs & Hd' & Ht').
      fold a' in Hs, Hd', Ht'.
      split.
      * apply spaced_no_pending. intros id' due' c' H. rewrite Ht' in H.
        apply lookup_delete_Some in H as [Hne H].
        destruct (Hown _ _ _ H) as (d2 & Hd2 & Htm2).
        rewrite Hd in Hd2. inversion Hd2; subst. congruence.
      * right. split; [done|]. split.
        -- pose proof (Hspaced _ _ _ _ Ht Hd) as Hsp.
           subst last. rewrite Hd. simpl.
           unfold LiveCaptionsApp.debounceDelay in Hsp. lia.
        -- rewrite Hd', Htm. by rewrite bool_decide_eq_true_2.
    + assert (a' = a) as Heq by (by apply (fire_early now id a _ _ Ht)).
      split; [by rewrite Heq|]. by left.
  - intros c a'.
    destruct (debounce_final_cases now sessionId c a Hown) as (_ & Hd & Hnone & _).
    split; [by apply debounce_owned|].
    split; [by apply spaced_no_pending|]. done.
Qed.

Lemma throttle_keeps_spacing_witness :
  LiveCaptionsApp.shown
    (LiveCaptionsApp.debounceAndShowTranscript 1000 "s" (lit "hello") false emptyApp)
  = LiveCaptionsApp.shown emptyApp
  ∨ (LiveCaptionsApp.shown
       (LiveCaptionsApp.debounceAndShowTranscript 1000 "s" (lit "hello") false emptyApp)
     = LiveCaptionsApp.shown emptyApp
       ++ [("s"%string, mkDisplay (LiveCaptionsApp.cleanTranscriptText (lit "hello")) None)]
     ∧ (0 + 400 ≤ 1000)%Z
     ∧ LiveCaptionsApp.sessionDebouncers
         (LiveCaptionsApp.debounceAndShowTranscript 1000 "s" (lit "hello") false emptyApp)
         !! "s"%string
       = Some (TranscriptDebouncer.mk 1000 None)).
Proof.
  assert (debounceTimersOwned "s" emptyApp) as Hown.
  { intros id due c H. unfold emptyApp in H. simpl in H. by rewrite lookup_empty in H. }
  assert (debounceSpaced "s" emptyApp) as Hspaced.
  { intros id due c d H. unfold emptyApp in H. simpl in H. by rewrite lookup_empty in H. }
  destruct (throttle_keeps_spacing emptyApp "s" 1000 Hown Hspaced) as [Hupdate _];
    [by vm_compute|].
  apply (Hupdate (lit "hello")).
Defined.

(** ** What the display depends on *)

Section ViewFacts.

Import TranscriptProcessor.
Variable cut : str → list str.

Lemma sameView_refl p : sameView p p.
Proof. by repeat split. Qed.

Lemma sameView_sym p q : sameView p q → sameView q p.
Proof. intros (? & ? & ? & ? & ?). by repeat split. Qed.

Lemma sameView_trans p q r : sameView p q → sameView q r → sameView p r.
Proof.
  intros (? & ? & ? & ? & ?) (? & ? & ? & ? & ?). repeat split; congruence.
Qed.

(** A call on two processors with the same configuration and history
    gives the same string, and leaves them so. *)
Lemma processString_sameView fuel p q newText isFinal p' out :
  sameView p q →
  processString cut fuel p newText isFinal = Returns (p', out) →
  ∃ q', processString cut fuel q newText isFinal = Returns (q', out)
        ∧ sameView p' q'
        ∧ partialText p' = partialText q'.
Proof.
  intros Hv H. destruct p, q. unfold sameView in Hv. simpl in Hv.
  destruct Hv as (-> & -> & -> & -> & ->).
  unfold processString, renderLines, wrapText, addToTranscriptHistory,
    getCombinedTranscriptHistory in *.
  destruct newText as [| |s]; [|done|]; destruct isFinal; simpl in *;
    repeat match goal with
           | H : context [str_eqb ?a ?b] |- _ => destruct (str_eqb a b); simpl in *
           end;
    match goal with
    | H : context [wrapLoop cut fuel ?c ?w ?t ?r] |- _ =>
        destruct (wrapLoop cut fuel c w t r) as [ls b]; destruct b; [|done];
          inversion H; subst; eexists; split; [reflexivity|]; by repeat split
    end.
Qed.

Lemma processAll_cons fuel newText isFinal rest p :
  processAll cut fuel ((newText, isFinal) :: rest) p
  = match processString cut fuel p newText isFinal with
    | Returns (p1, out) =>
        match processAll cut fuel rest p1 with
        | Returns (p2, outs) => Returns (p2, out :: outs)
        | Throws => Throws
        | OutOfFuel => OutOfFuel
        end
    | Throws => Throws
    | OutOfFuel => OutOfFuel
    end.
Proof.
  cbn [processAll].
  destruct (processString cut fuel p newText isFinal) as [[p1 out]| |]; [|done..].
  cbn [mbind outcome_bind].
  by destruct (processAll cut fuel rest p1) as [[p2 outs]| |].
Qed.

Lemma processAll_sameView fuel events :
  ∀ p q p' outs,
    sameView p q →
    processAll cut fuel events p = Returns (p', outs) →
    ∃ q', processAll cut fuel events q = Returns (q', outs) ∧ sameView p' q'.
Proof.
  induction events as [|[newText isFinal] rest IH]; intros p q p' outs Hv H.
  - inversion H; subst. by exists q.
  - rewrite processAll_cons in *.
    destruct (processString cut fuel p newText isFinal) as [[p1 out]| |] eqn:E;
      [|done..].
    destruct (processString_sameView _ _ _ _ _ _ _ Hv E) as (q1 & -> & Hv1 & _).
    destruct (processAll cut fuel rest p1) as [[p2 outs2]| |] eqn:E2; [|done..].
    inversion H; subst.
    destruct (IH _ _ _ _ Hv1 E2) as (q2 & -> & Hv2). by exists q2.
Qed.

(** Partial transcripts leave the configuration and the history alone. *)
Lemma processAll_partials_sameView fuel (partials : list JsText) :
  ∀ p p' outs,
    processAll cut fuel (map (λ t, (t, false)) partials) p = Returns (p', outs) →
    sameView p p'.
Proof.
  induction partials as [|t rest IH]; intros p p' outs H.
  - inversion H; subst. apply sameView_refl.
  - cbn [map] in H. rewrite processAll_cons in H.
    destruct (processString cut fuel p t false) as [[p1 out]| |] eqn:E; [|done..].
    destruct (processAll cut fuel _ p1) as [[p2 outs2]| |] eqn:E2; [|done..].
    inversion H; subst.
    apply (sameView_trans _ p1); [|by apply (IH _ _ _ E2)].
    pose proof (processString_state cut _ _ _ _ _ _ E) as (? & ? & ? & ? & _).
    apply processString_partial_history in E as [? _].
    by repeat split.
Qed.

Lemma trimStart_no_ws (s : str) :
  Forall (λ c, isWhiteSpace c = false) s → trimStart s = s.
Proof.
  intros H. destruct H as [|c s Hc _]; [done|].
  unfold trimStart. simpl. by rewrite Hc.
Qed.

Lemma trim_no_ws (s : str) :
  Forall (λ c, isWhiteSpace c = false) s → trim s = s.
Proof.
  intros H. unfold trim. rewrite (trimStart_no_ws s H).
  unfold trimEnd. fold (trimStart (rev s)).
  rewrite trimStart_no_ws; [apply rev_involutive|by apply Forall_rev].
Qed.

End ViewFacts.

(** X11. [clear()] brings a processor to a state that no sequence of
    events tells from a freshly constructed one with the same
    configuration: the same calls of [processString] return the same
    strings and leave the same history. *)
Theorem clear_is_as_new
    (cut : str → list str) (fuel : nat) (events : list (JsText * bool))
    (p p' : TranscriptProcessor.t) (outs : list str) :
  processAll cut fuel events (TranscriptProcessor.clear p) = Returns (p', outs) →
  ∃ q',
    processAll cut fuel events
      (TranscriptProcessor.new (TranscriptProcessor.maxCharsPerLine p)
         (TranscriptProcessor.maxLines p) (TranscriptProcessor.maxFinalTranscripts p)
         (TranscriptProcessor.isChinese p)) = Returns (q', outs)
    ∧ TranscriptProcessor.finalTranscriptHistory q'
      = TranscriptProcessor.finalTranscriptHistory p'.
Proof.
  intros H.
  destruct (processAll_sameView cut fuel events (TranscriptProcessor.clear p)
              (TranscriptProcessor.new (TranscriptProcessor.maxCharsPerLine p)
                 (TranscriptProcessor.maxLines p)
                 (TranscriptProcessor.maxFinalTranscripts p)
                 (TranscriptProcessor.isChinese p)) p' outs)
    as (q' & Hq & Hv); [by repeat split|done|].
  exists q'. split; [done|]. by destruct Hv as (_ & _ & _ & _ & <-).
Qed.

Lemma clear_is_as_new_witness :
  ∃ q',
    processAll latinRunCut 20
      [(JString (lit "good"), false); (JString (lit "good morning"), true)]
      (TranscriptProcessor.new 10 2 30 false)
    = Returns (q', [lit " good" ++ [NEWLINE]; lit "good" ++ [NEWLINE] ++ lit "morning"])
    ∧ TranscriptProcessor.finalTranscriptHistory q' = [lit "good morning"].
Proof.
  destruct (clear_is_as_new latinRunCut 20
              [(JString (lit "good"), false); (JString (lit "good morning"), true)]
              (TranscriptProcessor.mk 10 2 [] (lit "old")
                 (lit "old") [lit "hello world"] 30 false [lit "hello"; lit "world"])
              (TranscriptProcessor.mk 10 2 [] [] (lit "good") [lit "good morning"] 30
                 false [lit "good"; lit "morning"])
              [lit " good" ++ [NEWLINE]; lit "good" ++ [NEWLINE] ++ lit "morning"])
    as (q' & Hq & Hh); [by vm_compute|].
  exists q'. split; [exact Hq|exact Hh].
Defined.

(** X12. Partial transcripts leave no trace once a final one arrives: after
    any sequence of partials, a final transcript returns the string, and
    leaves the history, that it would have without them. *)
Theorem final_ignores_earlier_partials
    (cut : str → list str) (fuel : nat) (partials : list JsText)
    (p p1 p2 : TranscriptProcessor.t) (outs : list str) (newText : JsText) (out : str) :
  processAll cut fuel (map (λ t, (t, false)) partials) p = Returns (p1, outs) →
  TranscriptProcessor.processString cut fuel p newText true = Returns (p2, out) →
  ∃ p2',
    TranscriptProcessor.processString cut fuel p1 newText true = Returns (p2', out)
    ∧ TranscriptProcessor.finalTranscriptHistory p2'
      = TranscriptProcessor.finalTranscriptHistory p2
    ∧ TranscriptProcessor.partialText p2' = TranscriptProcessor.partialText p2.
Proof.
  intros Hpartials Hfinal.
  apply processAll_partials_sameView in Hpartials.
  destruct (processString_sameView cut _ _ _ _ _ _ _ Hpartials Hfinal)
    as (p2' & H & Hv & Hpt).
  exists p2'. split; [done|]. split; [|done].
  by destruct Hv as (_ & _ & _ & _ & ->).
Qed.

Lemma final_ignores_earlier_partials_witness :
  match processAll latinRunCut 20
          (map (λ t, (t, false)) [JString (lit "hel"); JString (lit "hello wor")])
          (TranscriptProcessor.new 10 2 30 false) with
  | Returns (p1, _) =>
      ∃ p2',
        TranscriptProcessor.processString latinRunCut 20 p1
          (JString (lit "hello world")) true
        = Returns (p2', lit "hello" ++ [NEWLINE] ++ lit "world")
        ∧ TranscriptProcessor.finalTranscriptHistory p2' = [lit "hello world"]
        ∧ TranscriptProcessor.partialText p2' = []
  | _ => False
  end.
Proof.
  destruct (processAll latinRunCut 20
              (map (λ t, (t, false)) [JString (lit "hel"); JString (lit "hello wor")])
              (TranscriptProcessor.new 10 2 30 false))
    as [[p1 outs]| |] eqn:E; [|vm_compute in E; discriminate..].
  apply (final_ignores_earlier_partials latinRunCut 20
           [JString (lit "hel"); JString (lit "hello wor")]
           (TranscriptProcessor.new 10 2 30 false) p1
           (TranscriptProcessor.mk 10 2 [] [] [] [lit "hello world"] 30 false
              [lit "hello"; lit "world"])
           outs (JString (lit "hello world")) _ E).
  by vm_compute.
Defined.

(** X13. With an empty history the text a partial wraps begins with a
    space. In whitespace mode a partial of a text without whitespace that
    is exactly [maxCharsPerLine] long is therefore cut in two, all but its
    last unit and then the last one, while the same text as a final
    transcript is one line. *)
Theorem partial_of_full_width_word_is_cut
    (cut : str → list str) (p : TranscriptProcessor.t) (t : str) :
  TranscriptProcessor.isChinese p = false →
  TranscriptProcessor.finalTranscriptHistory p = [] →
  1 ≤ TranscriptProcessor.maxFinalTranscripts p →
  1 ≤ TranscriptProcessor.maxCharsPerLine p →
  length t = TranscriptProcessor.maxCharsPerLine p →
  Forall (λ c, isWhiteSpace c = false) t →
  ∃ p1 out1 p2 out2,
    TranscriptProcessor.processString cut 3 p (JString t) false = Returns (p1, out1)
    ∧ TranscriptProcessor.currentDisplayLines p1
      = TranscriptProcessor.shiftWhileLonger (TranscriptProcessor.maxLines p)
          (TranscriptProcessor.pushWhileShorter (TranscriptProcessor.maxLines p)
             [take (length t - 1) t; drop (length t - 1) t])
    ∧ TranscriptProcessor.processString cut 3 p (JString t) true = Returns (p2, out2)
    ∧ TranscriptProcessor.currentDisplayLines p2
      = TranscriptProcessor.shiftWhileLonger (TranscriptProcessor.maxLines p)
          (TranscriptProcessor.pushWhileShorter (TranscriptProcessor.maxLines p) [t]).
Proof.
  intros Hch Hh Hcap Hw Hlen Hvis.
  pose proof (trim_no_ws t Hvis) as Htrim.
  assert (t ≠ []) as Hne by (intros ->; simpl in Hlen; lia).
  remember (length t - 1) as n eqn:Hn.
  assert (length t = S n) as HS by lia.
  assert (TranscriptProcessor.wrapLoop cut 3 false (S n) (SPACE :: t) []
          = ([take n t; drop n t], true)) as Hpartial.
  { rewrite (wrapLoop_force_split cut 2 (S n) (SPACE :: t) []).
    - unfold substring_to, substring_from. cbn [app take drop].
      assert (trim (SPACE :: take n t) = take n t) as ->.
      { unfold trim, trimStart. cbn [dropWhile].
        change (isWhiteSpace SPACE) with true. cbn iota.
        apply (trim_no_ws (take n t)). by apply Forall_take. }
      rewrite (trim_no_ws (drop n t)) by (by apply Forall_drop).
      cbn [TranscriptProcessor.wrapLoop].
      destruct (drop n t) as [|c rest] eqn:Ed.
      { apply (f_equal length) in Ed. rewrite length_drop in Ed. simpl in Ed. lia. }
      assert (length (c :: rest) = 1) as Hone.
      { rewrite <- Ed, length_drop. lia. }
      destruct (Nat.leb_spec (length (c :: rest)) (S n)); [done|lia].
    - simpl. lia.
    - intros j Hj Hsp. destruct j as [|j]; [lia|]. simpl in Hsp.
      rewrite Forall_forall in Hvis.
      apply list_elem_of_lookup_2 in Hsp. by apply Hvis in Hsp. }
  assert (TranscriptProcessor.wrapLoop cut 3 false (S n) t [] = ([t], true))
    as Hfinal.
  { cbn [TranscriptProcessor.wrapLoop]. destruct t as [|c t']; [done|].
    destruct (Nat.leb_spec (length (c :: t')) (S n)); [done|lia]. }
  destruct p as [w lc ls pt lut h cap ch cdl].
  cbn [TranscriptProcessor.isChinese TranscriptProcessor.maxCharsPerLine
       TranscriptProcessor.finalTranscriptHistory TranscriptProcessor.maxLines
       TranscriptProcessor.maxFinalTranscripts] in Hch, Hh, Hcap, Hw, Hlen |- *.
  subst w h ch. rewrite HS.
  unfold TranscriptProcessor.processString, TranscriptProcessor.renderLines,
    TranscriptProcessor.wrapText, TranscriptProcessor.addToTranscriptHistory,
    TranscriptProcessor.getCombinedTranscriptHistory.
  cbn [negb TranscriptProcessor.isChinese TranscriptProcessor.maxCharsPerLine
       TranscriptProcessor.finalTranscriptHistory TranscriptProcessor.set_partialText
       TranscriptProcessor.set_lastUserTranscript TranscriptProcessor.maxLines
       TranscriptProcessor.partialText TranscriptProcessor.lines
       TranscriptProcessor.lastUserTranscript TranscriptProcessor.maxFinalTranscripts
       TranscriptProcessor.currentDisplayLines join].
  rewrite Htrim, Htrim.
  rewrite (proj2 (str_eqb_false t []) Hne).
  cbn [TranscriptProcessor.set_finalTranscriptHistory
       TranscriptProcessor.finalTranscriptHistory TranscriptProcessor.isChinese
       TranscriptProcessor.maxCharsPerLine TranscriptProcessor.maxLines
       TranscriptProcessor.maxFinalTranscripts app].
  assert (TranscriptProcessor.shiftWhileLonger cap [t] = [t]) as ->.
  { unfold TranscriptProcessor.shiftWhileLonger. simpl.
    replace (1 - cap) with 0 by lia. done. }
  cbn [join TranscriptProcessor.set_finalTranscriptHistory
       TranscriptProcessor.set_partialText
       TranscriptProcessor.finalTranscriptHistory TranscriptProcessor.isChinese
       TranscriptProcessor.maxCharsPerLine TranscriptProcessor.maxLines
       TranscriptProcessor.maxFinalTranscripts].
  rewrite Hpartial, Hfinal.
  eexists _, _, _, _. split; [reflexivity|]. split; [reflexivity|].
  split; reflexivity.
Qed.

Lemma partial_of_full_width_word_is_cut_witness :
  ∃ p1 out1 p2 out2,
    TranscriptProcessor.processString latinRunCut 3
      (TranscriptProcessor.new 5 2 30 false) (JString (lit "hello")) false
    = Returns (p1, out1)
    ∧ TranscriptProcessor.currentDisplayLines p1 = [lit "hell"; lit "o"]
    ∧ TranscriptProcessor.processString latinRunCut 3
        (TranscriptProcessor.new 5 2 30 false) (JString (lit "hello")) true
      = Returns (p2, out2)
    ∧ TranscriptProcessor.currentDisplayLines p2 = [lit "hello"; []].
Proof.
  apply (partial_of_full_width_word_is_cut latinRunCut
           (TranscriptProcessor.new 5 2 30 false) (lit "hello"));
    [reflexivity|reflexivity|simpl; lia|simpl; lia|reflexivity|].
  by repeat constructor.
Defined.

(** ** Settings, further *)

Section SettingsMore.

Import TranscriptProcessor.
Variable cut : str → list str.
Variable languageToLocale : string → string.

Lemma lowerAscii_idem a : lowerAscii (lowerAscii a) = lowerAscii a.
Proof. by destruct a as [[] [] [] [] [] [] [] []]. Qed.

Lemma toLowerCase_idem s : toLowerCase (toLowerCase s) = toLowerCase s.
Proof.
  induction s as [|a s IH]; [done|]. simpl. by rewrite lowerAscii_idem, IH.
Qed.

Lemma convertLineWidth_bound_hanzi s :
  7 ≤ convertLineWidth (WString s) true ≤ 21.
Proof.
  unfold convertLineWidth. cbv zeta. cbn [negb].
  repeat match goal with
         | |- context [String.eqb ?x ?y] => destruct (String.eqb x y)
         end; lia.
Qed.

Lemma convertLineWidth_bound_other s :
  21 ≤ convertLineWidth (WString s) false ≤ 52.
Proof.
  unfold convertLineWidth. cbv zeta. cbn [negb].
  repeat match goal with
         | |- context [String.eqb ?x ?y] => destruct (String.eqb x y)
         end; lia.
Qed.

Lemma convertLineWidth_hanzi_narrower s :
  convertLineWidth (WString s) true < convertLineWidth (WString s) false.
Proof.
  unfold convertLineWidth. cbv zeta. cbn [negb].
  repeat match goal with
         | |- context [String.eqb ?x ?y] => destruct (String.eqb x y)
         end; lia.
Qed.

(** [applySettings], step by step. *)
Lemma applySettings_eq fuel sid uid settings a :
  LiveCaptionsApp.applySettings cut languageToLocale fuel sid uid settings a
  = match
      match LiveCaptionsApp.userTranscriptProcessors a !! uid with
      | Some previous =>
          if negb (LiveCaptionsApp.languageChanged uid
                     (LiveCaptionsApp.settingsLanguage settings) a)
          then LiveCaptionsApp.replayHistory cut fuel (finalTranscriptHistory previous)
                 (LiveCaptionsApp.newProcessorFor settings)
          else Returns (LiveCaptionsApp.newProcessorFor settings)
      | None => Returns (LiveCaptionsApp.newProcessorFor settings)
      end
    with
    | Returns np1 =>
        match processString cut fuel np1 (JString []) true with
        | Returns (np2, out) =>
            Returns
              (LiveCaptionsApp.mk
                 (<[uid := np2]> (LiveCaptionsApp.userTranscriptProcessors a))
                 (<[uid := LiveCaptionsApp.settingsLanguage settings]>
                    (LiveCaptionsApp.userActiveLanguages a))
                 (LiveCaptionsApp.sessionDebouncers a)
                 (LiveCaptionsApp.inactivityTimers a)
                 (LiveCaptionsApp.timers a) (LiveCaptionsApp.nextTimer a)
                 (LiveCaptionsApp.subscriptions a
                  ++ [(sid, languageToLocale (LiveCaptionsApp.settingsLanguage settings))])
                 (LiveCaptionsApp.shown a
                  ++ [(sid, mkDisplay (LiveCaptionsApp.cleanTranscriptText out)
                              (Some 20000%Z))]))
        | Throws => Throws
        | OutOfFuel => OutOfFuel
        end
    | Throws => Throws
    | OutOfFuel => OutOfFuel
    end.
Proof.
  unfold LiveCaptionsApp.applySettings.
  cbn [LiveCaptionsApp.userTranscriptProcessors LiveCaptionsApp.set_languages].
  unfold getFinalTranscriptHistory.
  match goal with
  | |- (?first ≫= _) = _ => destruct first as [np1| |]; [|done..]
  end.
  cbn [mbind outcome_bind].
  by destruct (processString cut fuel np1 (JString []) true) as [[np2 out]| |].
Qed.

Lemma processString_string_never_throws fuel p s isFinal :
  processString cut fuel p (JString s) isFinal ≠ Throws.
Proof.
  unfold processString, renderLines.
  destruct (negb isFinal); by destruct (wrapText _ _ _ _ _).
Qed.

Lemma replayHistory_never_throws fuel (h : list str) :
  ∀ np, LiveCaptionsApp.replayHistory cut fuel h np ≠ Throws.
Proof.
  induction h as [|t rest IH]; intros np; [done|].
  rewrite replayHistory_cons.
  pose proof (processString_string_never_throws fuel np t true) as Hn.
  destruct (processString cut fuel np (JString t) true) as [[p1 out]| |];
    [apply IH|done|done].
Qed.

End SettingsMore.

(** X14. [convertLineWidth] on a string: the width is between 7 and 21 for
    Hanzi and between 21 and 52 otherwise, always smaller for Hanzi than
    for other scripts; the setting is read without regard to letter case;
    a number is returned as it is. *)
Theorem convertLineWidth_ranges (s : string) :
  7 ≤ convertLineWidth (WString s) true ≤ 21
  ∧ 21 ≤ convertLineWidth (WString s) false ≤ 52
  ∧ convertLineWidth (WString s) true < convertLineWidth (WString s) false
  ∧ (∀ isHanzi,
       convertLineWidth (WString (toLowerCase s)) isHanzi
       = convertLineWidth (WString s) isHanzi)
  ∧ (∀ n isHanzi, convertLineWidth (WNumber n) isHanzi = n).
Proof.
  split; [apply convertLineWidth_bound_hanzi|].
  split; [apply convertLineWidth_bound_other|].
  split; [apply convertLineWidth_hanzi_narrower|].
  split; [|done].
  intros isHanzi. unfold convertLineWidth. by rewrite toLowerCase_idem.
Qed.

(** What [applySettings] leaves, whether it returns or not. *)
Lemma applySettings_state_sound
    (cut : str → list str) (languageToLocale : string → string) (fuel : nat)
    (sessionId userId : string) (settings : Settings) (a : LiveCaptionsApp.t) :
  LiveCaptionsApp.applySettings cut languageToLocale fuel sessionId userId settings a
  ≠ Throws
  ∧ (∀ a',
       LiveCaptionsApp.applySettings cut languageToLocale fuel sessionId userId
         settings a = Returns a' →
       (∃ newProcessor,
          LiveCaptionsApp.userTranscriptProcessors a' !! userId = Some newProcessor
          ∧ 1 ≤ TranscriptProcessor.maxLines newProcessor
          ∧ 7 ≤ TranscriptProcessor.maxCharsPerLine newProcessor ≤ 52
          ∧ TranscriptProcessor.maxFinalTranscripts newProcessor = MAX_FINAL_TRANSCRIPTS
          ∧ historyOk newProcessor)
       ∧ (∀ other, other ≠ userId →
            LiveCaptionsApp.userTranscriptProcessors a' !! other
            = LiveCaptionsApp.userTranscriptProcessors a !! other)
       ∧ LiveCaptionsApp.timers a' = LiveCaptionsApp.timers a
       ∧ LiveCaptionsApp.sessionDebouncers a' = LiveCaptionsApp.sessionDebouncers a
       ∧ LiveCaptionsApp.inactivityTimers a' = LiveCaptionsApp.inactivityTimers a).
Proof.
  rewrite applySettings_eq.
  destruct (newProcessorFor_fields settings) as (_ & Hw & Hl & Hcap & _ & _).
  assert (TranscriptProcessor.maxCharsPerLine (LiveCaptionsApp.newProcessorFor settings)
          ≤ 52) as Hw52.
  { unfold LiveCaptionsApp.newProcessorFor, TranscriptProcessor.new.
    cbv zeta. cbn [TranscriptProcessor.maxCharsPerLine].
    destruct (String.eqb _ "Chinese (Hanzi)").
    - pose proof (convertLineWidth_bound_hanzi
                    (default "10"%string (line_width settings))).
      lia.
    - pose proof (convertLineWidth_bound_other
                    (default "30"%string (line_width settings))).
      lia. }
  match goal with
  | |- context [match ?first with Returns _ => _ | Throws => _ | OutOfFuel => _ end] =>
      assert (first ≠ Throws
              ∧ ∀ np1, first = Returns np1 →
                  historyOk np1
                  ∧ TranscriptProcessor.maxLines np1
                    = TranscriptProcessor.maxLines (LiveCaptionsApp.newProcessorFor settings)
                  ∧ TranscriptProcessor.maxCharsPerLine np1
                    = TranscriptProcessor.maxCharsPerLine
                        (LiveCaptionsApp.newProcessorFor settings)
                  ∧ TranscriptProcessor.maxFinalTranscripts np1 = MAX_FINAL_TRANSCRIPTS)
        as [Hnothrow Hfirst];
      [|destruct first as [np1| |]; [|done|]]
  end.
  { destruct (LiveCaptionsApp.userTranscriptProcessors a !! userId) as [previous|];
      [destruct (negb _)|].
    - split; [apply replayHistory_never_throws|].
      intros np1 H.
      split; [by apply (replayHistory_historyOk cut _ _ _ _ H), historyOk_new|].
      apply replayHistory_state in H as (-> & -> & _ & -> & _). done.
    - split; [done|]. intros np1 [= <-]. split; [apply historyOk_new|done].
    - split; [done|]. intros np1 [= <-]. split; [apply historyOk_new|done]. }
  - destruct (Hfirst np1 eq_refl) as (Hok & Hl1 & Hw1 & Hcap1).
    pose proof (processString_string_never_throws cut fuel np1 [] true) as Hn.
    destruct (TranscriptProcessor.processString cut fuel np1 (JString []) true)
      as [[np2 out]| |] eqn:E; [|done|].
    + split; [done|]. intros a' [= <-]. simpl.
      pose proof (processString_state cut _ _ _ _ _ _ E) as (Hw2 & Hl2 & _ & Hcap2 & _).
      split; [|split; [|done]].
      * exists np2. split; [by rewrite lookup_insert_eq|].
        split; [lia|]. split; [lia|]. split; [congruence|].
        by apply (processString_historyOk cut _ _ _ _ _ _ E).
      * intros other Hne. by rewrite lookup_insert_ne.
    + split; [done|]. intros a' [=].
  - split; [done|]. intros a' [=].
Qed.


(** X15. No call of [processString] inside [applySettings] throws: it
    passes strings only.  When [applySettings] returns, the processor it
    installs for the user has at least one line, a width between 7 and 52,
    the capacity 30 and a history of trimmed, non-blank entries within the
    capacity, whatever the processor before held; the processors of other
    users, the timers, the debouncers and the inactivity entries are left
    as they were. *)
Theorem applySettings_installs_sound_processor
    (cut : str → list str) (languageToLocale : string → string) (fuel : nat)
    (sessionId userId : string) (settings : Settings) (a : LiveCaptionsApp.t) :
  LiveCaptionsApp.applySettings cut languageToLocale fuel sessionId userId settings a
  ≠ Throws
  ∧ (∀ a',
       LiveCaptionsApp.applySettings cut languageToLocale fuel sessionId userId
         settings a = Returns a' →
       (∃ newProcessor,
          LiveCaptionsApp.userTranscriptProcessors a' !! userId = Some newProcessor
          ∧ 1 ≤ TranscriptProcessor.maxLines newProcessor
          ∧ 7 ≤ TranscriptProcessor.maxCharsPerLine newProcessor ≤ 52
          ∧ TranscriptProcessor.maxFinalTranscripts newProcessor = MAX_FINAL_TRANSCRIPTS
          ∧ historyOk newProcessor)
       ∧ (∀ other, other ≠ userId →
            LiveCaptionsApp.userTranscriptProcessors a' !! other
            = LiveCaptionsApp.userTranscriptProcessors a !! other)
       ∧ LiveCaptionsApp.timers a' = LiveCaptionsApp.timers a
       ∧ LiveCaptionsApp.sessionDebouncers a' = LiveCaptionsApp.sessionDebouncers a
       ∧ LiveCaptionsApp.inactivityTimers a' = LiveCaptionsApp.inactivityTimers a).
Proof.
  exact (applySettings_state_sound cut languageToLocale fuel sessionId userId
           settings a).
Qed.

Lemma applySettings_installs_sound_processor_witness :
  match LiveCaptionsApp.applySettings latinRunCut localeEnUS 50 "s" "u"
          (mkSettings (Some "English"%string) (Some "Wide"%string) (Some (Num 0)))
          idleSession with
  | Returns a' =>
      ∃ newProcessor,
        LiveCaptionsApp.userTranscriptProcessors a' !! "u"%string = Some newProcessor
        ∧ 1 ≤ TranscriptProcessor.maxLines newProcessor
        ∧ 7 ≤ TranscriptProcessor.maxCharsPerLine newProcessor ≤ 52
        ∧ TranscriptProcessor.maxFinalTranscripts newProcessor = MAX_FINAL_TRANSCRIPTS
        ∧ historyOk newProcessor
  | _ => False
  end.
Proof.
  destruct (LiveCaptionsApp.applySettings latinRunCut localeEnUS 50 "s" "u"
              (mkSettings (Some "English"%string) (Some "Wide"%string) (Some (Num 0)))
              idleSession) as [a'| |] eqn:E; [|vm_compute in E; discriminate..].
  apply (proj2 (applySettings_installs_sound_processor latinRunCut localeEnUS 50
                  "s" "u"
                  (mkSettings (Some "English"%string) (Some "Wide"%string)
                     (Some (Num 0))) idleSession) a' E).
Defined.

(** X16. Applying the same settings again changes nothing but the log of
    the display: from a state whose processor for the user, if any, has a
    history of trimmed, non-blank entries within the capacity 30, a second
    [applySettings] with the same settings returns, with the same fuel,
    leaves the user's processor and language as the first call left them,
    and shows the same display once more. *)
Theorem applySettings_twice
    (cut : str → list str) (languageToLocale : string → string) (fuel : nat)
    (sessionId userId : string) (settings : Settings) (a a1 : LiveCaptionsApp.t) :
  (∀ previous,
     LiveCaptionsApp.userTranscriptProcessors a !! userId = Some previous →
     historyOk previous
     ∧ TranscriptProcessor.maxFinalTranscripts previous = MAX_FINAL_TRANSCRIPTS) →
  LiveCaptionsApp.applySettings cut languageToLocale fuel sessionId userId settings a
  = Returns a1 →
  ∃ a2 display,
    LiveCaptionsApp.applySettings cut languageToLocale fuel sessionId userId settings a1
    = Returns a2
    ∧ LiveCaptionsApp.userTranscriptProcessors a2
      = LiveCaptionsApp.userTranscriptProcessors a1
    ∧ LiveCaptionsApp.userActiveLanguages a2 = LiveCaptionsApp.userActiveLanguages a1
    ∧ LiveCaptionsApp.shown a1 = LiveCaptionsApp.shown a ++ [display]
    ∧ LiveCaptionsApp.shown a2 = LiveCaptionsApp.shown a1 ++ [display].
Proof.
  intros Hprev H. rewrite applySettings_eq in H.
  match type of H with
  | match ?first with Returns _ => _ | Throws => _ | OutOfFuel => _ end = _ =>
      destruct first as [np1| |] eqn:Hfirst; [|done..]
  end.
  destruct (TranscriptProcessor.processString cut fuel np1 (JString []) true)
    as [[np2 out]| |] eqn:Hproc; [|done..].
  inversion H; subst a1; clear H.
  pose proof (processString_final_history cut _ _ _ _ _ Hproc) as [Hh2 _].
  rewrite addToTranscriptHistory_blank in Hh2 by done.
  assert (LiveCaptionsApp.replayHistory cut fuel
            (TranscriptProcessor.finalTranscriptHistory np2)
            (LiveCaptionsApp.newProcessorFor settings) = Returns np1) as Hreplay.
  { rewrite Hh2.
    destruct (LiveCaptionsApp.userTranscriptProcessors a !! userId) as [previous|] eqn:Hp;
      [destruct (negb _)|].
    - destruct (Hprev previous eq_refl) as [[Hall Hlen] Hcap].
      assert (TranscriptProcessor.finalTranscriptHistory np1
              = TranscriptProcessor.finalTranscriptHistory previous) as ->; [|done].
      unfold LiveCaptionsApp.newProcessorFor in Hfirst.
      eapply replay_into_fresh; [exact Hfirst|done|]. by rewrite <- Hcap.
    - by inversion Hfirst; subst.
    - by inversion Hfirst; subst. }
  eexists _, _. rewrite applySettings_eq.
  cbn [LiveCaptionsApp.userTranscriptProcessors LiveCaptionsApp.userActiveLanguages
       LiveCaptionsApp.shown LiveCaptionsApp.sessionDebouncers
       LiveCaptionsApp.inactivityTimers LiveCaptionsApp.timers
       LiveCaptionsApp.nextTimer LiveCaptionsApp.subscriptions].
  rewrite lookup_insert_eq.
  rewrite languageChanged_same
    by (cbn [LiveCaptionsApp.userActiveLanguages]; by rewrite lookup_insert_eq).
  cbn [negb]. rewrite Hreplay, Hproc.
  split; [reflexivity|].
  cbn [LiveCaptionsApp.userTranscriptProcessors LiveCaptionsApp.userActiveLanguages
       LiveCaptionsApp.shown].
  by rewrite !insert_insert_eq.
Qed.

Lemma applySettings_twice_witness :
  match LiveCaptionsApp.applySettings latinRunCut localeEnUS 50 "s" "u"
          (mkSettings (Some "English"%string) (Some "narrow"%string) (Some (Num 2)))
          idleSession with
  | Returns a1 =>
      ∃ a2 display,
        LiveCaptionsApp.applySettings latinRunCut localeEnUS 50 "s" "u"
          (mkSettings (Some "English"%string) (Some "narrow"%string) (Some (Num 2))) a1
        = Returns a2
        ∧ LiveCaptionsApp.userTranscriptProcessors a2
          = LiveCaptionsApp.userTranscriptProcessors a1
        ∧ LiveCaptionsApp.userActiveLanguages a2
          = LiveCaptionsApp.userActiveLanguages a1
        ∧ LiveCaptionsApp.shown a1 = LiveCaptionsApp.shown idleSession ++ [display]
        ∧ LiveCaptionsApp.shown a2 = LiveCaptionsApp.shown a1 ++ [display]
  | _ => False
  end.
Proof.
  destruct (LiveCaptionsApp.applySettings latinRunCut localeEnUS 50 "s" "u"
              (mkSettings (Some "English"%string) (Some "narrow"%string) (Some (Num 2)))
              idleSession) as [a1| |] eqn:E; [|vm_compute in E; discriminate..].
  apply (applySettings_twice latinRunCut localeEnUS 50 "s" "u"
           (mkSettings (Some "English"%string) (Some "narrow"%string) (Some (Num 2)))
           idleSession a1); [|exact E].
  intros previous Hp. unfold idleSession in Hp. simpl in Hp.
  rewrite lookup_singleton_eq in Hp. inversion Hp; subst.
  split; [|reflexivity].
  split; [|simpl; lia]. repeat constructor; by vm_compute.
Defined.

(** ** Transcription events *)

Section TranscriptionFacts.

Import LiveCaptionsApp.
Variable cut : str → list str.
Variable pinyinOfChinese : str → str.

Lemma resetInactivityTimer_languages now sid uid a :
  userActiveLanguages (resetInactivityTimer now sid uid a) = userActiveLanguages a.
Proof.
  unfold resetInactivityTimer.
  destruct (inactivityTimers a !! sid) as [it|]; [|done].
  by destruct (InactivityTimer.timer it).
Qed.

Lemma resetInactivityTimer_debouncers now sid uid a :
  sessionDebouncers (resetInactivityTimer now sid uid a) = sessionDebouncers a.
Proof.
  unfold resetInactivityTimer.
  destruct (inactivityTimers a !! sid) as [it|]; [|done].
  by destruct (InactivityTimer.timer it).
Qed.

Lemma resetInactivityTimer_shown now sid uid a :
  shown (resetInactivityTimer now sid uid a) = shown a.
Proof.
  unfold resetInactivityTimer.
  destruct (inactivityTimers a !! sid) as [it|]; [|done].
  by destruct (InactivityTimer.timer it).
Qed.

(** The text [handleTranscription] hands to the processor. *)
Lemma convertToPinyin_undefined text :
  convertToPinyin pinyinOfChinese text = JUndefined ↔ text = JUndefined.
Proof.
  destruct text as [| |s]; cbn [convertToPinyin]; [done..|].
  by destruct (negb _).
Qed.

Lemma processString_throws fuel p text isFinal :
  TranscriptProcessor.processString cut fuel p text isFinal = Throws
  ↔ text = JUndefined.
Proof.
  destruct text as [| |s]; [|done|].
  - split; [|done]. unfold TranscriptProcessor.processString,
      TranscriptProcessor.renderLines.
    destruct (negb isFinal); by destruct (TranscriptProcessor.wrapText _ _ _ _ _).
  - split; [|done]. unfold TranscriptProcessor.processString,
      TranscriptProcessor.renderLines.
    destruct (negb isFinal); by destruct (TranscriptProcessor.wrapText _ _ _ _ _).
Qed.

(** [handleTranscription], step by step. *)
Lemma handleTranscription_eq fuel now sid uid data a :
  handleTranscription cut pinyinOfChinese fuel now sid uid data a
  = match
      TranscriptProcessor.processString cut fuel
        (default (TranscriptProcessor.new 30 3 MAX_FINAL_TRANSCRIPTS false)
                 (userTranscriptProcessors a !! uid))
        (if bool_decide (userActiveLanguages a !! uid = Some "Chinese (Pinyin)"%string)
         then convertToPinyin pinyinOfChinese (data_text data)
         else data_text data)
        (data_isFinal data)
    with
    | Returns (processor, out) =>
        Returns
          (debounceAndShowTranscript now sid out (data_isFinal data)
             (set_processors (<[uid := processor]> (userTranscriptProcessors a))
                (resetInactivityTimer now sid uid a)))
    | Throws => Throws
    | OutOfFuel => OutOfFuel
    end.
Proof.
  unfold handleTranscription.
  pose proof (resetInactivityTimer_processors now sid uid a) as Hp.
  pose proof (resetInactivityTimer_languages now sid uid a) as Hl.
  set (a0 := resetInactivityTimer now sid uid a) in *.
  destruct (userTranscriptProcessors a0 !! uid) as [processor|] eqn:E.
  - rewrite E. cbn [default]. rewrite Hl. rewrite <- Hp, E. cbn [default].
    match goal with
    | |- (?m ≫= _) = _ => destruct m as [[processor' out]| |]; [|done..]
    end.
    cbn [mbind outcome_bind]. by rewrite Hp.
  - cbn [userTranscriptProcessors userActiveLanguages set_processors].
    rewrite lookup_insert_eq. cbn [default]. rewrite Hl. rewrite <- Hp, E.
    cbn [default]. unfold id.
    match goal with
    | |- (?m ≫= _) = _ => destruct m as [[processor' out]| |]; [|done..]
    end.
    cbn [mbind outcome_bind]. unfold set_processors.
    cbn [userTranscriptProcessors userActiveLanguages sessionDebouncers
         inactivityTimers timers nextTimer subscriptions shown].
    by rewrite insert_insert_eq.
Qed.

End TranscriptionFacts.

(** X17. [handleTranscription] throws exactly when the event carries no
    text at all ([undefined]): whatever the state, the language of the
    user and the fuel, a [null] text or a string never makes it throw, and
    an undefined text always does (the [trim] of [processString]), also
    through the Pinyin conversion, which hands [null] and [undefined] on
    (the segmenter and the Pinyin package being total). *)
Theorem handleTranscription_throws_iff_undefined
    (cut : str → list str) (pinyinOfChinese : str → str) (fuel : nat) (now : Z)
    (sessionId userId : string) (transcriptionData : TranscriptionData)
    (a : LiveCaptionsApp.t) :
  LiveCaptionsApp.handleTranscription cut pinyinOfChinese fuel now sessionId userId
    transcriptionData a = Throws
  ↔ data_text transcriptionData = JUndefined.
Proof.
  rewrite handleTranscription_eq.
  match goal with
  | |- match TranscriptProcessor.processString cut fuel ?p ?text ?f with _ => _ end = _ ↔ _ =>
      pose proof (processString_throws cut fuel p text f) as Hthrows;
      assert (text = JUndefined ↔ data_text transcriptionData = JUndefined) as Htext;
      [|destruct (TranscriptProcessor.processString cut fuel p text f)
          as [[processor out]| |]]
  end.
  - case_bool_decide; [|done]. apply convertToPinyin_undefined.
  - split; [done|]. intros H. apply Htext, Hthrows in H. done.
  - split; [|done]. intros _. by apply Htext, Hthrows.
  - split; [done|]. intros H. apply Htext, Hthrows in H. done.
Qed.

(** X18. A transcription for a user who has no processor is rendered by a
    fresh default one: with enough fuel the call returns, and afterwards
    the user has a processor of width 30 with 3 lines, in whitespace mode,
    of capacity 30, whose history is the trimmed text of this event when
    it is final and not blank, and empty otherwise.  The processors of the
    other users are not touched. *)
Theorem handleTranscription_unknown_user_default_processor
    (cut : str → list str) (pinyinOfChinese : str → str) (now : Z)
    (sessionId userId : string) (transcriptionData : TranscriptionData)
    (a : LiveCaptionsApp.t) :
  LiveCaptionsApp.userTranscriptProcessors a !! userId = None →
  data_text transcriptionData ≠ JUndefined →
  let text :=
    if bool_decide (LiveCaptionsApp.userActiveLanguages a !! userId
                    = Some "Chinese (Pinyin)"%string)
    then LiveCaptionsApp.convertToPinyin pinyinOfChinese (data_text transcriptionData)
    else data_text transcriptionData in
  ∃ fuel0, ∀ fuel, fuel0 ≤ fuel →
    ∃ a' processor,
      LiveCaptionsApp.handleTranscription cut pinyinOfChinese fuel now sessionId userId
        transcriptionData a = Returns a'
      ∧ LiveCaptionsApp.userTranscriptProcessors a' !! userId = Some processor
      ∧ TranscriptProcessor.maxCharsPerLine processor = 30
      ∧ TranscriptProcessor.maxLines processor = 3
      ∧ TranscriptProcessor.isChinese processor = false
      ∧ TranscriptProcessor.maxFinalTranscripts processor = MAX_FINAL_TRANSCRIPTS
      ∧ TranscriptProcessor.finalTranscriptHistory processor
        = match text with
          | JString s =>
              if data_isFinal transcriptionData && negb (str_eqb (trim s) [])
              then [trim s] else []
          | _ => []
          end
      ∧ ∀ other, other ≠ userId →
          LiveCaptionsApp.userTranscriptProcessors a' !! other
          = LiveCaptionsApp.userTranscriptProcessors a !! other.
Proof.
  intros Hnone Hdef text.
  assert (text ≠ JUndefined) as Htext.
  { subst text. case_bool_decide; [|done].
    by rewrite convertToPinyin_undefined. }
  destruct (processString_whitespace_returns cut
              (TranscriptProcessor.new 30 3 MAX_FINAL_TRANSCRIPTS false)
              text (data_isFinal transcriptionData) Htext eq_refl)
    as (fuel0 & p' & out & Hproc); [simpl; lia|].
  exists fuel0. intros fuel Hfuel.
  apply (processString_more_fuel cut _ fuel) in Hproc; [|done].
  rewrite handleTranscription_eq, Hnone. cbn [default]. fold text. rewrite Hproc.
  eexists _, p'. split; [reflexivity|].
  rewrite debounce_processors. cbn [LiveCaptionsApp.userTranscriptProcessors
    LiveCaptionsApp.set_processors].
  rewrite lookup_insert_eq. split; [done|].
  destruct (processString_state cut _ _ _ _ _ _ Hproc) as (-> & -> & -> & -> & _).
  do 4 (split; [done|]). split.
  - destruct text as [| |s]; [|done|].
    + destruct (data_isFinal transcriptionData).
      * change JNull with JNull in Hproc.
        unfold TranscriptProcessor.processString in Hproc. cbn [negb] in Hproc.
        apply renderLines_returns in Hproc as (wrapped & _ & -> & _).
        by rewrite addToTranscriptHistory_blank.
      * by apply processString_partial_history in Hproc as [-> _].
    + destruct (data_isFinal transcriptionData); cbn [andb].
      * apply processString_final_history in Hproc as [-> _].
        destruct (str_eqb (trim s) []) eqn:Hb; cbn [negb].
        -- apply str_eqb_true in Hb.
           rewrite addToTranscriptHistory_blank; [done|]. by rewrite trim_idem.
        -- apply str_eqb_false in Hb.
           unfold TranscriptProcessor.addToTranscriptHistory.
           rewrite trim_idem.
           destruct (str_eqb (trim s) []) eqn:Hb'; [by apply str_eqb_true in Hb'|].
           done.
      * by apply processString_partial_history in Hproc as [-> _].
  - intros other Hne. by rewrite lookup_insert_ne.
Qed.

Lemma handleTranscription_unknown_user_default_processor_witness :
  ∃ fuel0, ∀ fuel, fuel0 ≤ fuel →
    ∃ a' processor,
      LiveCaptionsApp.handleTranscription latinRunCut noPinyin fuel 1000 "s" "u"
        (mkData (JString (lit "  hi there ")) true "en-US") emptyApp = Returns a'
      ∧ LiveCaptionsApp.userTranscriptProcessors a' !! "u"%string = Some processor
      ∧ TranscriptProcessor.maxCharsPerLine processor = 30
      ∧ TranscriptProcessor.maxLines processor = 3
      ∧ TranscriptProcessor.isChinese processor = false
      ∧ TranscriptProcessor.maxFinalTranscripts processor = MAX_FINAL_TRANSCRIPTS
      ∧ TranscriptProcessor.finalTranscriptHistory processor = [lit "hi there"]
      ∧ ∀ other, other ≠ "u"%string →
          LiveCaptionsApp.userTranscriptProcessors a' !! other
          = LiveCaptionsApp.userTranscriptProcessors emptyApp !! other.
Proof.
  apply (handleTranscription_unknown_user_default_processor latinRunCut noPinyin
           1000 "s" "u" (mkData (JString (lit "  hi there ")) true "en-US") emptyApp);
    [reflexivity|discriminate].
Defined.

(** ** The inactivity timer and the session lifecycle *)

Section LifecycleFacts.

Import LiveCaptionsApp.

(** The state [resetInactivityTimer] leaves for a session that has its
    entry, written out. *)
Lemma resetInactivityTimer_eq now sid uid a it :
  inactivityTimers a !! sid = Some it →
  resetInactivityTimer now sid uid a
  = mk (userTranscriptProcessors a) (userActiveLanguages a) (sessionDebouncers a)
       (<[sid := InactivityTimer.mk (Some (nextTimer a)) now]> (inactivityTimers a))
       (<[nextTimer a := ((now + 40000)%Z, InactivityFire sid uid)]>
          match InactivityTimer.timer it with
          | Some id => delete id (timers a)
          | None => timers a
          end)
       (S (nextTimer a)) (subscriptions a) (shown a).
Proof.
  intros H. unfold resetInactivityTimer. rewrite H.
  by destruct (InactivityTimer.timer it).
Qed.

Lemma resetInactivityTimer_inactivity_owned now sid uid a s :
  inactivityTimersOwned s a →
  inactivityTimersOwned s (resetInactivityTimer now sid uid a).
Proof.
  intros Hown id due u H.
  destruct (inactivityTimers a !! sid) as [it|] eqn:Hit;
    [|unfold resetInactivityTimer in *; rewrite Hit in *; by apply (Hown id due u)].
  rewrite (resetInactivityTimer_eq _ _ _ _ _ Hit) in *.
  cbn [timers inactivityTimers] in *.
  apply lookup_insert_Some in H as [[<- Heq]|[Hne H]].
  - inversion Heq; subst. rewrite lookup_insert_eq. eauto.
  - assert (timers a !! id = Some (due, InactivityFire s u)) as H0.
    { destruct (InactivityTimer.timer it); [|done].
      by apply lookup_delete_Some in H as [_ H]. }
    destruct (Hown _ _ _ H0) as (it0 & Hit0 & Htm).
    destruct (decide (s = sid)) as [->|Hs].
    + rewrite Hit in Hit0. inversion Hit0; subst it0. rewrite Htm in H.
      by rewrite lookup_delete_eq in H.
    + rewrite lookup_insert_ne by done. eauto.
Qed.

Lemma debounce_inactivity now sid c isFinal a :
  inactivityTimers (debounceAndShowTranscript now sid c isFinal a)
  = inactivityTimers a.
Proof.
  destruct isFinal.
  - by rewrite debounce_final.
  - rewrite debounce_nonfinal. by destruct (debounceDelay <=? _)%Z.
Qed.

Lemma debounce_inactivity_owned now sid c isFinal a s :
  inactivityTimersOwned s a →
  inactivityTimersOwned s (debounceAndShowTranscript now sid c isFinal a).
Proof.
  intros Hown id due u H. rewrite debounce_inactivity.
  apply (Hown id due u).
  destruct isFinal.
  - rewrite debounce_final in H. cbn [timers] in H. by apply cleared_sub in H.
  - rewrite debounce_nonfinal in H.
    destruct (debounceDelay <=? _)%Z; cbn [timers] in H.
    + by apply cleared_sub in H.
    + apply lookup_insert_Some in H as [[_ Heq]|[_ H]]; [done|].
      by apply cleared_sub in H.
Qed.

Lemma fireTimer_inactivity_owned now id a s :
  inactivityTimersOwned s a → inactivityTimersOwned s (fireTimer now id a).
Proof.
  intros Hown id' due u H. unfold fireTimer in *.
  destruct (timers a !! id) as [[due0 cb]|] eqn:Ht; [|by apply (Hown id' due u)].
  destruct (due0 <=? now)%Z; [|by apply (Hown id' due u)].
  destruct cb as [sid tr|sid uid]; cbn [runCallback] in *.
  - unfold writeDebouncer, showTranscriptsToUser, showTextWall in *.
    cbn [timers inactivityTimers set_debouncers set_shown set_timers] in *.
    apply lookup_delete_Some in H as [_ H]. by apply (Hown id' due u).
  - cbn [userTranscriptProcessors set_timers] in *.
    destruct (userTranscriptProcessors a !! uid);
      unfold showTextWall in *;
      cbn [timers inactivityTimers set_processors set_shown set_timers] in *;
      apply lookup_delete_Some in H as [_ H]; by apply (Hown id' due u).
Qed.

End LifecycleFacts.

(** X19. Every transcription pushes the blanking of the display back: for
    a session that has its entry in [inactivityTimers] and whose pending
    inactivity timers are the one the entry holds, [resetInactivityTimer]
    leaves exactly one inactivity timer of the session pending, the new
    one, due 40000 ms after now and carrying this user; the entry holds
    it, with now as the time of the last activity. *)
Theorem resetInactivityTimer_rearms_single_timer
    (now : Z) (sessionId userId : string) (a : LiveCaptionsApp.t)
    (inactivityTimer : InactivityTimer.t) :
  LiveCaptionsApp.inactivityTimers a !! sessionId = Some inactivityTimer →
  inactivityTimersOwned sessionId a →
  let a' := LiveCaptionsApp.resetInactivityTimer now sessionId userId a in
  LiveCaptionsApp.timers a' !! LiveCaptionsApp.nextTimer a
  = Some ((now + 40000)%Z, InactivityFire sessionId userId)
  ∧ (∀ id due user,
       LiveCaptionsApp.timers a' !! id = Some (due, InactivityFire sessionId user) →
       id = LiveCaptionsApp.nextTimer a ∧ due = (now + 40000)%Z ∧ user = userId)
  ∧ LiveCaptionsApp.inactivityTimers a' !! sessionId
    = Some (InactivityTimer.mk (Some (LiveCaptionsApp.nextTimer a)) now)
  ∧ LiveCaptionsApp.shown a' = LiveCaptionsApp.shown a.
Proof.
  intros Hit Hown a'. subst a'.
  rewrite (resetInactivityTimer_eq _ _ _ _ _ Hit).
  cbn [LiveCaptionsApp.timers LiveCaptionsApp.inactivityTimers LiveCaptionsApp.shown].
  rewrite !lookup_insert_eq. split; [done|]. split; [|done].
  intros id due user H.
  apply lookup_insert_Some in H as [[<- Heq]|[Hne H]]; [by inversion Heq|].
  exfalso.
  assert (LiveCaptionsApp.timers a !! id = Some (due, InactivityFire sessionId user))
    as H0.
  { destruct (InactivityTimer.timer inactivityTimer); [|done].
    by apply lookup_delete_Some in H as [_ H]. }
  destruct (Hown _ _ _ H0) as (it0 & Hit0 & Htm).
  rewrite Hit in Hit0. inversion Hit0; subst it0. rewrite Htm in H.
  by rewrite lookup_delete_eq in H.
Qed.

Lemma resetInactivityTimer_rearms_single_timer_witness :
  LiveCaptionsApp.timers
    (LiveCaptionsApp.resetInactivityTimer 5000 "s" "u" idleSession) !! 0
  = Some (45000%Z, InactivityFire "s" "u")
  ∧ (∀ id due user,
       LiveCaptionsApp.timers
         (LiveCaptionsApp.resetInactivityTimer 5000 "s" "u" idleSession) !! id
       = Some (due, InactivityFire "s" user) →
       id = 0 ∧ due = 45000%Z ∧ user = "u"%string)
  ∧ LiveCaptionsApp.inactivityTimers
      (LiveCaptionsApp.resetInactivityTimer 5000 "s" "u" idleSession) !! "s"%string
    = Some (InactivityTimer.mk (Some 0) 5000)
  ∧ LiveCaptionsApp.shown
      (LiveCaptionsApp.resetInactivityTimer 5000 "s" "u" idleSession)
    = LiveCaptionsApp.shown idleSession.
Proof.
  apply (resetInactivityTimer_rearms_single_timer 5000 "s" "u" idleSession
           (InactivityTimer.mk None 0)).
  - reflexivity.
  - intros id due user H. vm_compute in H. discriminate.
Defined.

(** What [onStop] leaves, in any state: the timers that stay pending were
    pending and are not the ones the two entries of the session held. *)
Lemma onStop_frame
    (sessionId userId : string) (s : LiveCaptionsServer.t) :
  let s' := LiveCaptionsServer.onStop sessionId userId s in
  let a' := LiveCaptionsServer.app s' in
  (∀ id v,
     LiveCaptionsApp.timers a' !! id = Some v →
     LiveCaptionsApp.timers (LiveCaptionsServer.app s) !! id = Some v
     ∧ (∀ d, LiveCaptionsApp.sessionDebouncers (LiveCaptionsServer.app s) !! sessionId
             = Some d →
             TranscriptDebouncer.timer d ≠ Some id)
     ∧ (∀ it, LiveCaptionsApp.inactivityTimers (LiveCaptionsServer.app s) !! sessionId
              = Some it →
              InactivityTimer.timer it ≠ Some id))
  ∧ LiveCaptionsApp.sessionDebouncers a' !! sessionId = None
  ∧ LiveCaptionsApp.inactivityTimers a' !! sessionId = None
  ∧ LiveCaptionsApp.userTranscriptProcessors a' !! userId = None
  ∧ LiveCaptionsApp.userActiveLanguages a' !! userId = None
  ∧ LiveCaptionsServer.getActiveSessionForUser userId s'
    = match LiveCaptionsServer.getActiveSessionForUser userId s with
      | Some active => if String.eqb active sessionId then None else Some active
      | None => None
      end
  ∧ LiveCaptionsApp.shown a' = LiveCaptionsApp.shown (LiveCaptionsServer.app s).
Proof.
  intros s' a'. subst a' s'.
  destruct s as [a active]. cbn [LiveCaptionsServer.app] in *.
  unfold LiveCaptionsServer.onStop, LiveCaptionsServer.getActiveSessionForUser.
  cbn [LiveCaptionsServer.app LiveCaptionsServer.activeUserSessions].
  set (a1 := match LiveCaptionsApp.sessionDebouncers a !! sessionId with
             | Some debouncer =>
                 match TranscriptDebouncer.timer debouncer with
                 | Some id => LiveCaptionsApp.clearTimeout id a
                 | None => a
                 end
             | None => a
             end).
  assert (LiveCaptionsApp.inactivityTimers a1 = LiveCaptionsApp.inactivityTimers a
          ∧ LiveCaptionsApp.shown a1 = LiveCaptionsApp.shown a
          ∧ (∀ id v, LiveCaptionsApp.timers a1 !! id = Some v →
                     LiveCaptionsApp.timers a !! id = Some v
                     ∧ ∀ d, LiveCaptionsApp.sessionDebouncers a !! sessionId = Some d →
                            TranscriptDebouncer.timer d ≠ Some id))
    as (Hi1 & Hs1 & Ht1).
  { subst a1. destruct (LiveCaptionsApp.sessionDebouncers a !! sessionId) as [d|];
      [destruct (TranscriptDebouncer.timer d) as [id0|] eqn:Htm|].
    - cbn [LiveCaptionsApp.clearTimeout LiveCaptionsApp.inactivityTimers
           LiveCaptionsApp.shown LiveCaptionsApp.timers LiveCaptionsApp.set_timers].
      repeat split; try done.
      + by apply lookup_delete_Some in H as [_ H].
      + intros d' [= <-]. rewrite Htm. intros [= <-].
        by rewrite lookup_delete_eq in H.
    - repeat split; try done. intros d' [= <-]. by rewrite Htm.
    - repeat split; done. }
  clearbody a1.
  cbn [LiveCaptionsApp.inactivityTimers LiveCaptionsApp.set_debouncers].
  rewrite Hi1.
  set (a2 := match LiveCaptionsApp.inactivityTimers a !! sessionId with
             | Some inactivityTimer =>
                 match InactivityTimer.timer inactivityTimer with
                 | Some id => LiveCaptionsApp.clearTimeout id _
                 | None => _
                 end
             | None => _
             end).
  assert (LiveCaptionsApp.shown a2 = LiveCaptionsApp.shown a
          ∧ (∀ id v, LiveCaptionsApp.timers a2 !! id = Some v →
                     LiveCaptionsApp.timers a1 !! id = Some v
                     ∧ ∀ it, LiveCaptionsApp.inactivityTimers a !! sessionId = Some it →
                             InactivityTimer.timer it ≠ Some id))
    as (Hs2 & Ht2).
  { subst a2. destruct (LiveCaptionsApp.inactivityTimers a !! sessionId) as [it|];
      [destruct (InactivityTimer.timer it) as [id0|] eqn:Htm|].
    - cbn [LiveCaptionsApp.clearTimeout LiveCaptionsApp.shown LiveCaptionsApp.timers
           LiveCaptionsApp.set_timers LiveCaptionsApp.set_debouncers].
      repeat split; try done.
      + by apply lookup_delete_Some in H as [_ H].
      + intros it' [= <-]. rewrite Htm. intros [= <-].
        by rewrite lookup_delete_eq in H.
    - cbn [LiveCaptionsApp.shown LiveCaptionsApp.timers LiveCaptionsApp.set_debouncers].
      repeat split; try done. intros it' [= <-]. by rewrite Htm.
    - cbn [LiveCaptionsApp.shown LiveCaptionsApp.timers LiveCaptionsApp.set_debouncers].
      repeat split; done. }
  assert (LiveCaptionsApp.sessionDebouncers a2 !! sessionId = None) as Hd2.
  { subst a2. destruct (LiveCaptionsApp.inactivityTimers a !! sessionId) as [it|];
      [destruct (InactivityTimer.timer it)|];
      cbn [LiveCaptionsApp.clearTimeout LiveCaptionsApp.sessionDebouncers
           LiveCaptionsApp.set_timers LiveCaptionsApp.set_debouncers];
      apply lookup_delete_eq. }
  clearbody a2.
  cbn [LiveCaptionsApp.timers LiveCaptionsApp.sessionDebouncers
       LiveCaptionsApp.inactivityTimers LiveCaptionsApp.userTranscriptProcessors
       LiveCaptionsApp.userActiveLanguages LiveCaptionsApp.shown
       LiveCaptionsApp.set_languages LiveCaptionsApp.set_processors
       LiveCaptionsApp.set_inactivity].
  rewrite !lookup_delete_eq.
  split; [|split; [done|split; [done|split; [done|split; [done|split; [|done]]]]]].
  - intros id v H.
    destruct (Ht2 _ _ H) as [H1 Hni]. destruct (Ht1 _ _ H1) as [H0 Hnd].
    done.
  - destruct (active !! userId) as [other|] eqn:Hact; [|done].
    destruct (String.eqb other sessionId); [apply lookup_delete_eq|done].
Qed.

(** The state [onStop] leaves. *)
Lemma onStop_state
    (sessionId userId : string) (s : LiveCaptionsServer.t) :
  debounceTimersOwned sessionId (LiveCaptionsServer.app s) →
  inactivityTimersOwned sessionId (LiveCaptionsServer.app s) →
  let s' := LiveCaptionsServer.onStop sessionId userId s in
  let a' := LiveCaptionsServer.app s' in
  (∀ id due callback,
     LiveCaptionsApp.timers a' !! id = Some (due, callback) →
     LiveCaptionsApp.timers (LiveCaptionsServer.app s) !! id = Some (due, callback)
     ∧ (∀ transcript, callback ≠ DebounceFire sessionId transcript)
     ∧ (∀ user, callback ≠ InactivityFire sessionId user))
  ∧ LiveCaptionsApp.sessionDebouncers a' !! sessionId = None
  ∧ LiveCaptionsApp.inactivityTimers a' !! sessionId = None
  ∧ LiveCaptionsApp.userTranscriptProcessors a' !! userId = None
  ∧ LiveCaptionsApp.userActiveLanguages a' !! userId = None
  ∧ LiveCaptionsServer.getActiveSessionForUser userId s'
    = match LiveCaptionsServer.getActiveSessionForUser userId s with
      | Some active => if String.eqb active sessionId then None else Some active
      | None => None
      end
  ∧ LiveCaptionsApp.shown a' = LiveCaptionsApp.shown (LiveCaptionsServer.app s).
Proof.
  intros Hdeb Hina s' a'. subst a' s'.
  destruct (onStop_frame sessionId userId s)
    as (Htimers & Hd & Hi & Hp & Hl & Hact & Hshown).
  cbv zeta in Htimers, Hd, Hi, Hp, Hl, Hact, Hshown.
  split; [|done].
  intros id due callback H.
  destruct (Htimers _ _ H) as (H0 & Hnd & Hni).
  split; [done|]. split.
  - intros transcript ->. destruct (Hdeb _ _ _ H0) as (d & Hd0 & Htm).
    by apply (Hnd d).
  - intros user ->. destruct (Hina _ _ _ H0) as (it & Hit & Htm).
    by apply (Hni it).
Qed.


(** X20. [onStop] leaves nothing of the session behind: when the pending
    timers of the session are the ones its debouncer and its inactivity
    entry hold, no debounce or inactivity timer of the session is pending
    afterwards, its two entries are gone, and nothing is shown.  The
    processor and the language of the user are deleted in every case, while
    the user's active session is removed only when it is this session: a
    stop of an older session leaves a newer one registered, without its
    processor. *)
Theorem onStop_leaves_nothing_pending
    (sessionId userId : string) (s : LiveCaptionsServer.t) :
  debounceTimersOwned sessionId (LiveCaptionsServer.app s) →
  inactivityTimersOwned sessionId (LiveCaptionsServer.app s) →
  let s' := LiveCaptionsServer.onStop sessionId userId s in
  let a' := LiveCaptionsServer.app s' in
  (∀ id due callback,
     LiveCaptionsApp.timers a' !! id = Some (due, callback) →
     LiveCaptionsApp.timers (LiveCaptionsServer.app s) !! id = Some (due, callback)
     ∧ (∀ transcript, callback ≠ DebounceFire sessionId transcript)
     ∧ (∀ user, callback ≠ InactivityFire sessionId user))
  ∧ LiveCaptionsApp.sessionDebouncers a' !! sessionId = None
  ∧ LiveCaptionsApp.inactivityTimers a' !! sessionId = None
  ∧ LiveCaptionsApp.userTranscriptProcessors a' !! userId = None
  ∧ LiveCaptionsApp.userActiveLanguages a' !! userId = None
  ∧ LiveCaptionsServer.getActiveSessionForUser userId s'
    = match LiveCaptionsServer.getActiveSessionForUser userId s with
      | Some active => if String.eqb active sessionId then None else Some active
      | None => None
      end
  ∧ LiveCaptionsApp.shown a' = LiveCaptionsApp.shown (LiveCaptionsServer.app s).
Proof. exact (onStop_state sessionId userId s). Qed.

Lemma onStop_leaves_nothing_pending_witness :
  (∀ id due callback,
     LiveCaptionsApp.timers
       (LiveCaptionsServer.app
          (LiveCaptionsServer.onStop "s" "u"
             (LiveCaptionsServer.mk
                (LiveCaptionsApp.resetInactivityTimer 5000 "s" "u" idleSession)
                {[ "u"%string := "newer"%string ]}))) !! id
     = Some (due, callback) →
     (∀ transcript, callback ≠ DebounceFire "s" transcript)
     ∧ (∀ user, callback ≠ InactivityFire "s" user))
  ∧ LiveCaptionsApp.userTranscriptProcessors
      (LiveCaptionsServer.app
         (LiveCaptionsServer.onStop "s" "u"
            (LiveCaptionsServer.mk
               (LiveCaptionsApp.resetInactivityTimer 5000 "s" "u" idleSession)
               {[ "u"%string := "newer"%string ]}))) !! "u"%string = None
  ∧ LiveCaptionsServer.getActiveSessionForUser "u"
      (LiveCaptionsServer.onStop "s" "u"
         (LiveCaptionsServer.mk
            (LiveCaptionsApp.resetInactivityTimer 5000 "s" "u" idleSession)
            {[ "u"%string := "newer"%string ]}))
    = Some "newer"%string.
Proof.
  assert (debounceTimersOwned "s"
            (LiveCaptionsApp.resetInactivityTimer 5000 "s" "u" idleSession)) as Hdeb.
  { intros id due callback H.
    rewrite (resetInactivityTimer_eq 5000 "s" "u" idleSession
               (InactivityTimer.mk None 0) eq_refl) in H.
    cbn [LiveCaptionsApp.timers InactivityTimer.timer idleSession] in H.
    apply lookup_insert_Some in H as [[_ H]|[_ H]]; [discriminate|].
    by rewrite lookup_empty in H. }
  assert (inactivityTimersOwned "s"
            (LiveCaptionsApp.resetInactivityTimer 5000 "s" "u" idleSession)) as Hina.
  { intros id due user H.
    rewrite (resetInactivityTimer_eq 5000 "s" "u" idleSession
               (InactivityTimer.mk None 0) eq_refl) in H |- *.
    cbn [LiveCaptionsApp.timers LiveCaptionsApp.inactivityTimers
         LiveCaptionsApp.nextTimer InactivityTimer.timer idleSession] in H |- *.
    apply lookup_insert_Some in H as [[<- _]|[_ H]];
      [|by rewrite lookup_empty in H].
    eexists. split; [apply lookup_insert_eq|reflexivity]. }
  destruct (onStop_leaves_nothing_pending "s" "u"
              (LiveCaptionsServer.mk
                 (LiveCaptionsApp.resetInactivityTimer 5000 "s" "u" idleSession)
                 {[ "u"%string := "newer"%string ]}) Hdeb Hina)
    as (Htimers & _ & _ & Hproc & _ & Hactive & _).
  split; [|split; [exact Hproc|]].
  - intros id due callback H. exact (proj2 (Htimers id due callback H)).
  - rewrite Hactive. vm_compute. reflexivity.
Defined.

Section SessionFacts.

Variable cut : str → list str.
Variable languageToLocale : string → string.

(** The state [onSession] leaves, in both branches of its [try]. *)
Lemma onSession_state fuel now sid uid settings s s' :
  LiveCaptionsServer.onSession cut languageToLocale fuel now sid uid settings s
  = Returns s' →
  ∃ processor locale,
    LiveCaptionsApp.userTranscriptProcessors (LiveCaptionsServer.app s')
    = <[uid := processor]>
        (LiveCaptionsApp.userTranscriptProcessors (LiveCaptionsServer.app s))
    ∧ LiveCaptionsApp.userActiveLanguages (LiveCaptionsServer.app s')
      = <[uid := LiveCaptionsApp.settingsLanguage settings]>
          (LiveCaptionsApp.userActiveLanguages (LiveCaptionsServer.app s))
    ∧ LiveCaptionsApp.sessionDebouncers (LiveCaptionsServer.app s')
      = <[sid := TranscriptDebouncer.mk 0 None]>
          (LiveCaptionsApp.sessionDebouncers (LiveCaptionsServer.app s))
    ∧ LiveCaptionsApp.inactivityTimers (LiveCaptionsServer.app s')
      = <[sid := InactivityTimer.mk None now]>
          (LiveCaptionsApp.inactivityTimers (LiveCaptionsServer.app s))
    ∧ LiveCaptionsApp.timers (LiveCaptionsServer.app s')
      = LiveCaptionsApp.timers (LiveCaptionsServer.app s)
    ∧ LiveCaptionsApp.nextTimer (LiveCaptionsServer.app s')
      = LiveCaptionsApp.nextTimer (LiveCaptionsServer.app s)
    ∧ LiveCaptionsServer.activeUserSessions s'
      = <[uid := sid]> (LiveCaptionsServer.activeUserSessions s)
    ∧ LiveCaptionsApp.subscriptions (LiveCaptionsServer.app s')
      = LiveCaptionsApp.subscriptions (LiveCaptionsServer.app s) ++ [(sid, locale)]
    ∧ 1 ≤ TranscriptProcessor.maxLines processor
    ∧ 7 ≤ TranscriptProcessor.maxCharsPerLine processor ≤ 52
    ∧ TranscriptProcessor.maxFinalTranscripts processor = MAX_FINAL_TRANSCRIPTS
    ∧ historyOk processor.
Proof.
  unfold LiveCaptionsServer.onSession. cbv zeta.
  match goal with
  | |- match LiveCaptionsApp.applySettings _ _ _ _ _ _ ?a0 with _ => _ end = _ → _ =>
      pose proof (applySettings_state_sound cut languageToLocale fuel sid uid
                    settings a0) as [_ Hsound];
      pose proof (applySettings_returns cut languageToLocale fuel sid uid
                    settings a0) as Hret;
      pose proof (applySettings_eq cut languageToLocale fuel sid uid settings a0)
        as Heq;
      destruct (LiveCaptionsApp.applySettings cut languageToLocale fuel sid uid
                  settings a0) as [a'| |] eqn:E; [| |done]
  end.
  - intros [= <-]. cbn [LiveCaptionsServer.app LiveCaptionsServer.activeUserSessions].
    destruct (Hsound a' eq_refl) as ((np & Hnp & Hl & Hw & Hcap & Hok) & _).
    match type of Heq with
    | _ = match ?first with Returns _ => _ | Throws => _ | OutOfFuel => _ end =>
        destruct first as [np1| |]; [|done..]
    end.
    destruct (TranscriptProcessor.processString cut fuel np1 (JString []) true)
      as [[np2 out]| |]; [|done..].
    inversion Heq; subst a'; clear Heq.
    cbn [LiveCaptionsApp.userTranscriptProcessors LiveCaptionsApp.userActiveLanguages
         LiveCaptionsApp.sessionDebouncers LiveCaptionsApp.inactivityTimers
         LiveCaptionsApp.timers LiveCaptionsApp.nextTimer LiveCaptionsApp.subscriptions
         LiveCaptionsApp.set_inactivity LiveCaptionsApp.set_debouncers] in *.
    rewrite lookup_insert_eq in Hnp. inversion Hnp; subst np.
    exists np2, (languageToLocale (LiveCaptionsApp.settingsLanguage settings)).
    repeat (split; [done|]). done.
  - intros [= <-]. cbn [LiveCaptionsServer.app LiveCaptionsServer.activeUserSessions].
    exists (TranscriptProcessor.new 30 3 MAX_FINAL_TRANSCRIPTS false), "en-US"%string.
    cbn [LiveCaptionsApp.userTranscriptProcessors LiveCaptionsApp.userActiveLanguages
         LiveCaptionsApp.sessionDebouncers LiveCaptionsApp.inactivityTimers
         LiveCaptionsApp.timers LiveCaptionsApp.nextTimer LiveCaptionsApp.subscriptions
         LiveCaptionsApp.set_inactivity LiveCaptionsApp.set_debouncers
         LiveCaptionsApp.set_processors LiveCaptionsApp.set_languages
         LiveCaptionsApp.set_subscriptions].
    repeat (split; [done|]).
    cbn [TranscriptProcessor.new TranscriptProcessor.maxLines
         TranscriptProcessor.maxCharsPerLine TranscriptProcessor.maxFinalTranscripts].
    split; [lia|]. split; [lia|]. split; [done|]. apply historyOk_new.
Qed.

End SessionFacts.

(** X21. A transcription that arrives for a session after its [onStop] is
    still rendered and brings state back.  When, before the stop, every
    pending inactivity timer of the session was the one its inactivity
    entry held (which a session started twice under one id can break): the
    user gets a fresh default processor (width 30, 3 lines, whitespace
    mode) and the session a debouncer entry again, but the session has no
    inactivity entry and no inactivity timer of it is pending or armed, so
    no timer will blank what this transcription shows. *)
Theorem transcription_after_onStop
    (cut : str → list str) (pinyinOfChinese : str → str) (fuel : nat) (now : Z)
    (sessionId userId : string) (transcriptionData : TranscriptionData)
    (s : LiveCaptionsServer.t) (a' : LiveCaptionsApp.t) :
  inactivityTimersOwned sessionId (LiveCaptionsServer.app s) →
  LiveCaptionsApp.handleTranscription cut pinyinOfChinese fuel now sessionId userId
    transcriptionData
    (LiveCaptionsServer.app (LiveCaptionsServer.onStop sessionId userId s))
  = Returns a' →
  (∃ processor,
     LiveCaptionsApp.userTranscriptProcessors a' !! userId = Some processor
     ∧ TranscriptProcessor.maxCharsPerLine processor = 30
     ∧ TranscriptProcessor.maxLines processor = 3
     ∧ TranscriptProcessor.isChinese processor = false
     ∧ length (TranscriptProcessor.finalTranscriptHistory processor) ≤ 1)
  ∧ is_Some (LiveCaptionsApp.sessionDebouncers a' !! sessionId)
  ∧ LiveCaptionsApp.inactivityTimers a' !! sessionId = None
  ∧ (∀ id due user,
       LiveCaptionsApp.timers a' !! id ≠ Some (due, InactivityFire sessionId user)).
Proof.
  intros Hina.
  destruct (onStop_frame sessionId userId s)
    as (Htimers & _ & Hnoit & Hnoproc & _).
  cbv zeta in Htimers, Hnoit, Hnoproc.
  set (a1 := LiveCaptionsServer.app (LiveCaptionsServer.onStop sessionId userId s)) in *.
  assert (inactivityTimersOwned sessionId a1) as Hown1.
  { intros id due user H. destruct (Htimers _ _ H) as (H0 & _ & Hni).
    destruct (Hina _ _ _ H0) as (it & Hit & Htm). by destruct (Hni it Hit). }
  clearbody a1.
  rewrite handleTranscription_eq, Hnoproc. cbn [default].
  assert (LiveCaptionsApp.resetInactivityTimer now sessionId userId a1 = a1) as ->.
  { unfold LiveCaptionsApp.resetInactivityTimer. by rewrite Hnoit. }
  match goal with
  | |- match ?m with _ => _ end = _ → _ =>
      destruct m as [[processor out]| |] eqn:E; [|done..]
  end.
  intros [= <-].
  set (a2 := LiveCaptionsApp.set_processors _ a1).
  assert (inactivityTimersOwned sessionId
            (LiveCaptionsApp.debounceAndShowTranscript now sessionId out
               (data_isFinal transcriptionData) a2)) as Hown'.
  { apply debounce_inactivity_owned. intros id due user H.
    exact (Hown1 id due user H). }
  assert (LiveCaptionsApp.inactivityTimers
            (LiveCaptionsApp.debounceAndShowTranscript now sessionId out
               (data_isFinal transcriptionData) a2) !! sessionId = None) as Hnone.
  { by rewrite debounce_inactivity. }
  split; [|split; [|split; [done|]]].
  - exists processor. rewrite debounce_processors. subst a2.
    cbn [LiveCaptionsApp.userTranscriptProcessors LiveCaptionsApp.set_processors].
    rewrite lookup_insert_eq. split; [done|].
    destruct (processString_state cut _ _ _ _ _ _ E) as (-> & -> & -> & _).
    do 3 (split; [done|]).
    destruct (data_isFinal transcriptionData) eqn:Hf.
    + match type of E with
      | TranscriptProcessor.processString _ _ _ ?text _ = _ =>
          destruct text as [| |t]
      end.
      * unfold TranscriptProcessor.processString in E. cbn [negb] in E.
        apply renderLines_returns in E as (wrapped & _ & -> & _).
        rewrite addToTranscriptHistory_blank by done. simpl. lia.
      * done.
      * apply processString_final_history in E as [-> _].
        unfold TranscriptProcessor.addToTranscriptHistory.
        destruct (str_eqb _ _); simpl; lia.
    + apply processString_partial_history in E as [-> _]. simpl. lia.
  - destruct (data_isFinal transcriptionData).
    + rewrite debounce_final.
      cbn [LiveCaptionsApp.sessionDebouncers]. by rewrite lookup_insert_eq.
    + rewrite debounce_nonfinal.
      destruct (LiveCaptionsApp.debounceDelay <=? _)%Z;
        cbn [LiveCaptionsApp.sessionDebouncers]; by rewrite lookup_insert_eq.
  - intros id due user H. destruct (Hown' _ _ _ H) as (it & Hit & _).
    by rewrite Hnone in Hit.
Qed.

Lemma transcription_after_onStop_witness :
  match LiveCaptionsApp.handleTranscription latinRunCut noPinyin 50 9000 "s" "u"
          (mkData (JString (lit "late words")) true "en-US")
          (LiveCaptionsServer.app
             (LiveCaptionsServer.onStop "s" "u" (LiveCaptionsServer.mk idleSession ∅)))
  with
  | Returns a' =>
      (∃ processor,
         LiveCaptionsApp.userTranscriptProcessors a' !! "u"%string = Some processor
         ∧ TranscriptProcessor.maxCharsPerLine processor = 30
         ∧ TranscriptProcessor.maxLines processor = 3
         ∧ TranscriptProcessor.isChinese processor = false
         ∧ length (TranscriptProcessor.finalTranscriptHistory processor) ≤ 1)
      ∧ is_Some (LiveCaptionsApp.sessionDebouncers a' !! "s"%string)
      ∧ LiveCaptionsApp.inactivityTimers a' !! "s"%string = None
      ∧ (∀ id due user,
           LiveCaptionsApp.timers a' !! id ≠ Some (due, InactivityFire "s" user))
  | _ => False
  end.
Proof.
  destruct (LiveCaptionsApp.handleTranscription latinRunCut noPinyin 50 9000 "s" "u"
              (mkData (JString (lit "late words")) true "en-US")
              (LiveCaptionsServer.app
                 (LiveCaptionsServer.onStop "s" "u"
                    (LiveCaptionsServer.mk idleSession ∅))))
    as [a'| |] eqn:E; [|vm_compute in E; discriminate..].
  apply (transcription_after_onStop latinRunCut noPinyin 50 9000 "s" "u"
           (mkData (JString (lit "late words")) true "en-US")
           (LiveCaptionsServer.mk idleSession ∅) a'); [|exact E].
  intros id due user H. vm_compute in H. discriminate.
Defined.

(** X22. When the settings apply without an exception, that is when the
    call of [applySettings] in the [try] of [onSession] returns, [onSession]
    returns with the state that call left and the session registered:
    the user's active session is this one and those of other users stay,
    the session has a debouncer that never sent and an inactivity entry
    without timer and with now as last activity, the user has the language
    of the settings and a processor with at least one line, a width between
    7 and 52 and a well-formed history; one subscription of the session, to
    the locale of that language, was added, one display was shown with the
    duration of a final update, and no timer was set or cleared. *)
Theorem onSession_registers_session
    (cut : str → list str) (languageToLocale : string → string) (fuel : nat) (now : Z)
    (sessionId userId : string) (settings : Settings) (s : LiveCaptionsServer.t)
    (a' : LiveCaptionsApp.t) :
  LiveCaptionsApp.applySettings cut languageToLocale fuel sessionId userId settings
    (LiveCaptionsApp.set_inactivity
       (<[sessionId := InactivityTimer.mk None now]>
          (LiveCaptionsApp.inactivityTimers (LiveCaptionsServer.app s)))
       (LiveCaptionsApp.set_debouncers
          (<[sessionId := TranscriptDebouncer.mk 0 None]>
             (LiveCaptionsApp.sessionDebouncers (LiveCaptionsServer.app s)))
          (LiveCaptionsServer.app s)))
  = Returns a' →
  ∃ s',
    LiveCaptionsServer.onSession cut languageToLocale fuel now sessionId userId
      settings s = Returns s'
    ∧ LiveCaptionsServer.app s' = a'
    ∧ LiveCaptionsServer.getActiveSessionForUser userId s' = Some sessionId
    ∧ (∀ other, other ≠ userId →
         LiveCaptionsServer.getActiveSessionForUser other s'
         = LiveCaptionsServer.getActiveSessionForUser other s)
    ∧ LiveCaptionsApp.sessionDebouncers a' !! sessionId
      = Some (TranscriptDebouncer.mk 0 None)
    ∧ LiveCaptionsApp.inactivityTimers a' !! sessionId
      = Some (InactivityTimer.mk None now)
    ∧ LiveCaptionsApp.userActiveLanguages a' !! userId
      = Some (LiveCaptionsApp.settingsLanguage settings)
    ∧ (∃ processor,
         LiveCaptionsApp.userTranscriptProcessors a' !! userId = Some processor
         ∧ 1 ≤ TranscriptProcessor.maxLines processor
         ∧ 7 ≤ TranscriptProcessor.maxCharsPerLine processor ≤ 52
         ∧ TranscriptProcessor.maxFinalTranscripts processor = MAX_FINAL_TRANSCRIPTS
         ∧ historyOk processor)
    ∧ LiveCaptionsApp.subscriptions a'
      = LiveCaptionsApp.subscriptions (LiveCaptionsServer.app s)
        ++ [(sessionId, languageToLocale (LiveCaptionsApp.settingsLanguage settings))]
    ∧ (∃ display,
         LiveCaptionsApp.shown a'
         = LiveCaptionsApp.shown (LiveCaptionsServer.app s)
           ++ [(sessionId, mkDisplay display (Some 20000%Z))])
    ∧ LiveCaptionsApp.timers a' = LiveCaptionsApp.timers (LiveCaptionsServer.app s).
Proof.
  intros H.
  exists (LiveCaptionsServer.mk a'
            (<[userId := sessionId]> (LiveCaptionsServer.activeUserSessions s))).
  split.
  { unfold LiveCaptionsServer.onSession. cbv zeta.
    change (LiveCaptionsApp.inactivityTimers
              (LiveCaptionsApp.set_debouncers _ (LiveCaptionsServer.app s)))
      with (LiveCaptionsApp.inactivityTimers (LiveCaptionsServer.app s)).
    by rewrite H. }
  split; [done|].
  unfold LiveCaptionsServer.getActiveSessionForUser.
  cbn [LiveCaptionsServer.activeUserSessions].
  split; [by rewrite lookup_insert_eq|].
  split; [intros other Hne; by rewrite lookup_insert_ne|].
  match type of H with
  | LiveCaptionsApp.applySettings _ _ _ _ _ _ ?a0 = _ =>
      destruct (applySettings_state_sound cut languageToLocale fuel sessionId userId
                  settings a0) as [_ Hsound];
      destruct (Hsound a' H) as (Hprocessor & _ & _);
      rewrite applySettings_eq in H
  end.
  match type of H with
  | match ?first with Returns _ => _ | Throws => _ | OutOfFuel => _ end = _ =>
      destruct first as [np1| |]; [|done..]
  end.
  destruct (TranscriptProcessor.processString cut fuel np1 (JString []) true)
    as [[np2 out]| |]; [|done..].
  inversion H; subst a'; clear H Hsound.
  do 3 (split; [cbn [LiveCaptionsApp.userActiveLanguages
                     LiveCaptionsApp.sessionDebouncers LiveCaptionsApp.inactivityTimers
                     LiveCaptionsApp.set_inactivity LiveCaptionsApp.set_debouncers];
                by rewrite lookup_insert_eq|]).
  split; [exact Hprocessor|].
  cbn [LiveCaptionsApp.timers LiveCaptionsApp.subscriptions LiveCaptionsApp.shown
       LiveCaptionsApp.set_inactivity LiveCaptionsApp.set_debouncers].
  split; [done|]. split; [by eexists|done].
Qed.

Lemma onSession_registers_session_witness :
  match LiveCaptionsApp.applySettings latinRunCut localeEnUS 50 "s2" "u"
          (mkSettings (Some "English"%string) (Some "Medium"%string) (Some (Num 4)))
          (LiveCaptionsApp.set_inactivity
             (<[("s2"%string) := InactivityTimer.mk None 7000]>
                (LiveCaptionsApp.inactivityTimers idleSession))
             (LiveCaptionsApp.set_debouncers
                (<[("s2"%string) := TranscriptDebouncer.mk 0 None]>
                   (LiveCaptionsApp.sessionDebouncers idleSession))
                idleSession))
  with
  | Returns a' =>
      ∃ s',
        LiveCaptionsServer.onSession latinRunCut localeEnUS 50 7000 "s2" "u"
          (mkSettings (Some "English"%string) (Some "Medium"%string) (Some (Num 4)))
          (LiveCaptionsServer.mk idleSession {[ "u"%string := "s"%string ]})
        = Returns s'
        ∧ LiveCaptionsServer.getActiveSessionForUser "u" s' = Some "s2"%string
        ∧ LiveCaptionsApp.sessionDebouncers a' !! "s2"%string
          = Some (TranscriptDebouncer.mk 0 None)
        ∧ LiveCaptionsApp.inactivityTimers a' !! "s2"%string
          = Some (InactivityTimer.mk None 7000)
        ∧ LiveCaptionsApp.subscriptions a' = [("s2"%string, "en-US"%string)]
        ∧ LiveCaptionsApp.timers a' = LiveCaptionsApp.timers idleSession
  | _ => False
  end.
Proof.
  destruct (LiveCaptionsApp.applySettings latinRunCut localeEnUS 50 "s2" "u"
              (mkSettings (Some "English"%string) (Some "Medium"%string)
                 (Some (Num 4)))
              (LiveCaptionsApp.set_inactivity
                 (<[("s2"%string) := InactivityTimer.mk None 7000]>
                    (LiveCaptionsApp.inactivityTimers idleSession))
                 (LiveCaptionsApp.set_debouncers
                    (<[("s2"%string) := TranscriptDebouncer.mk 0 None]>
                       (LiveCaptionsApp.sessionDebouncers idleSession))
                    idleSession)))
    as [a'| |] eqn:E; [|vm_compute in E; discriminate..].
  destruct (onSession_registers_session latinRunCut localeEnUS 50 7000 "s2" "u"
              (mkSettings (Some "English"%string) (Some "Medium"%string)
                 (Some (Num 4)))
              (LiveCaptionsServer.mk idleSession {[ "u"%string := "s"%string ]})
              a' E)
    as (s' & Hs' & _ & Hact & _ & Hd & Hi & _ & _ & Hsub & _ & Ht).
  exists s'. repeat split; assumption.
Defined.

(** X23. A session that starts and stops leaves the maps as a stop alone
    would: after [onSession] followed by [onStop] with the same ids, the
    processors, languages and active sessions are those before with the
    user's entry deleted, the debouncers and inactivity entries those before
    with the session's entry deleted, and the timer table is the one
    before; for ids that had no entry, all six are as before. *)
Theorem onSession_onStop_round_trip
    (cut : str → list str) (languageToLocale : string → string) (fuel : nat) (now : Z)
    (sessionId userId : string) (settings : Settings) (s s1 : LiveCaptionsServer.t) :
  LiveCaptionsServer.onSession cut languageToLocale fuel now sessionId userId settings s
  = Returns s1 →
  let s2 := LiveCaptionsServer.onStop sessionId userId s1 in
  LiveCaptionsApp.userTranscriptProcessors (LiveCaptionsServer.app s2)
  = delete userId (LiveCaptionsApp.userTranscriptProcessors (LiveCaptionsServer.app s))
  ∧ LiveCaptionsApp.userActiveLanguages (LiveCaptionsServer.app s2)
    = delete userId (LiveCaptionsApp.userActiveLanguages (LiveCaptionsServer.app s))
  ∧ LiveCaptionsServer.activeUserSessions s2
    = delete userId (LiveCaptionsServer.activeUserSessions s)
  ∧ LiveCaptionsApp.sessionDebouncers (LiveCaptionsServer.app s2)
    = delete sessionId (LiveCaptionsApp.sessionDebouncers (LiveCaptionsServer.app s))
  ∧ LiveCaptionsApp.inactivityTimers (LiveCaptionsServer.app s2)
    = delete sessionId (LiveCaptionsApp.inactivityTimers (LiveCaptionsServer.app s))
  ∧ LiveCaptionsApp.timers (LiveCaptionsServer.app s2)
    = LiveCaptionsApp.timers (LiveCaptionsServer.app s)
  ∧ LiveCaptionsApp.nextTimer (LiveCaptionsServer.app s2)
    = LiveCaptionsApp.nextTimer (LiveCaptionsServer.app s).
Proof.
  intros H s2. subst s2.
  apply onSession_state in H
    as (processor & locale & Hp & Hl & Hd & Hi & Ht & Hn & Hact & _).
  destruct s1 as [[procs langs debs inact tms next subs shown] active].
  cbn [LiveCaptionsServer.app LiveCaptionsServer.activeUserSessions
       LiveCaptionsApp.userTranscriptProcessors LiveCaptionsApp.userActiveLanguages
       LiveCaptionsApp.sessionDebouncers LiveCaptionsApp.inactivityTimers
       LiveCaptionsApp.timers LiveCaptionsApp.nextTimer] in *.
  subst procs langs debs inact tms next active.
  unfold LiveCaptionsServer.onStop.
  cbn [LiveCaptionsServer.app LiveCaptionsServer.activeUserSessions
       LiveCaptionsApp.sessionDebouncers].
  rewrite !lookup_insert_eq.
  cbn [TranscriptDebouncer.timer LiveCaptionsApp.set_debouncers
       LiveCaptionsApp.inactivityTimers].
  rewrite !lookup_insert_eq.
  cbn [InactivityTimer.timer LiveCaptionsApp.set_debouncers
       LiveCaptionsApp.set_inactivity LiveCaptionsApp.set_processors
       LiveCaptionsApp.set_languages
       LiveCaptionsApp.userTranscriptProcessors LiveCaptionsApp.userActiveLanguages
       LiveCaptionsApp.sessionDebouncers LiveCaptionsApp.inactivityTimers
       LiveCaptionsApp.timers LiveCaptionsApp.nextTimer].
  rewrite String.eqb_refl, !delete_insert_eq. done.
Qed.

Lemma onSession_onStop_round_trip_witness :
  match LiveCaptionsServer.onSession latinRunCut localeEnUS 50 7000 "s" "u"
          (mkSettings None None None) (LiveCaptionsServer.mk emptyApp ∅)
  with
  | Returns s1 =>
      LiveCaptionsApp.userTranscriptProcessors
        (LiveCaptionsServer.app (LiveCaptionsServer.onStop "s" "u" s1)) = ∅
      ∧ LiveCaptionsServer.activeUserSessions (LiveCaptionsServer.onStop "s" "u" s1)
        = ∅
      ∧ LiveCaptionsApp.sessionDebouncers
          (LiveCaptionsServer.app (LiveCaptionsServer.onStop "s" "u" s1)) = ∅
      ∧ LiveCaptionsApp.timers
          (LiveCaptionsServer.app (LiveCaptionsServer.onStop "s" "u" s1)) = ∅
  | _ => False
  end.
Proof.
  destruct (LiveCaptionsServer.onSession latinRunCut localeEnUS 50 7000 "s" "u"
              (mkSettings None None None) (LiveCaptionsServer.mk emptyApp ∅))
    as [s1| |] eqn:E; [|vm_compute in E; discriminate..].
  destruct (onSession_onStop_round_trip latinRunCut localeEnUS 50 7000 "s" "u"
              (mkSettings None None None) (LiveCaptionsServer.mk emptyApp ∅) s1 E)
    as (Hp & _ & Hact & Hd & _ & Ht & _).
  rewrite Hp, Hact, Hd, Ht.
  cbn [LiveCaptionsServer.app LiveCaptionsServer.activeUserSessions emptyApp
       LiveCaptionsApp.userTranscriptProcessors LiveCaptionsApp.sessionDebouncers
       LiveCaptionsApp.timers].
  rewrite !delete_empty. done.
Defined.

(** X24. In every state reached from one without processors and timers by
    transcription events, settings changes and timers that fire, a session
    has at most one debounce timer pending and at most one inactivity timer
    pending, and every processor holds a history of trimmed, non-blank
    entries within the capacity 30. *)
Theorem reachable_one_timer_of_each_kind
    (cut : str → list str) (pinyinOfChinese : str → str)
    (languageToLocale : string → string) (a : LiveCaptionsApp.t) :
  reachable cut pinyinOfChinese languageToLocale a →
  (∀ sessionId id1 id2 due1 due2 transcript1 transcript2,
     LiveCaptionsApp.timers a !! id1 = Some (due1, DebounceFire sessionId transcript1) →
     LiveCaptionsApp.timers a !! id2 = Some (due2, DebounceFire sessionId transcript2) →
     id1 = id2)
  ∧ (∀ sessionId id1 id2 due1 due2 user1 user2,
       LiveCaptionsApp.timers a !! id1 = Some (due1, InactivityFire sessionId user1) →
       LiveCaptionsApp.timers a !! id2 = Some (due2, InactivityFire sessionId user2) →
       id1 = id2)
  ∧ (∀ userId processor,
       LiveCaptionsApp.userTranscriptProcessors a !! userId = Some processor →
       historyOk processor
       ∧ TranscriptProcessor.maxFinalTranscripts processor = MAX_FINAL_TRANSCRIPTS).
Proof.
  intros Hreach.
  destruct (reachable_invariant cut pinyinOfChinese languageToLocale a Hreach)
    as [Hdeb Hproc].
  assert (∀ sessionId, inactivityTimersOwned sessionId a) as Hina.
  { clear Hdeb Hproc.
    induction Hreach as [a Ht Hp|a fuel now sid uid data a' _ IH H
                         |a fuel sid uid settings a' _ IH H
                         |a now id _ IH]; intros s.
    - intros id due user H. by rewrite Ht, lookup_empty in H.
    - rewrite handleTranscription_eq in H.
      match type of H with
      | match ?m with _ => _ end = _ =>
          destruct m as [[processor out]| |]; [|done..]
      end.
      inversion H; subst a'; clear H.
      apply debounce_inactivity_owned.
      pose proof (resetInactivityTimer_inactivity_owned now sid uid a s (IH s)) as Hr.
      intros id due user H. exact (Hr id due user H).
    - destruct (applySettings_state_sound cut languageToLocale fuel sid uid settings a)
        as [_ Hs].
      destruct (Hs a' H) as (_ & _ & Ht & _ & Hi).
      intros id due user Hin. rewrite Ht in Hin. rewrite Hi.
      exact (IH s id due user Hin).
    - by apply fireTimer_inactivity_owned. }
  split; [|split; [|done]].
  - intros s id1 id2 due1 due2 t1 t2 H1 H2.
    destruct (Hdeb s _ _ _ H1) as (d1 & Hd1 & Htm1).
    destruct (Hdeb s _ _ _ H2) as (d2 & Hd2 & Htm2).
    congruence.
  - intros s id1 id2 due1 due2 u1 u2 H1 H2.
    destruct (Hina s _ _ _ H1) as (d1 & Hd1 & Htm1).
    destruct (Hina s _ _ _ H2) as (d2 & Hd2 & Htm2).
    congruence.
Qed.

Lemma reachable_one_timer_of_each_kind_witness :
  match LiveCaptionsApp.handleTranscription latinRunCut noPinyin 50 100 "s" "u"
          (mkData (JString (lit "hello wor")) false "en-US") emptyApp
  with
  | Returns a =>
      (∀ sessionId id1 id2 due1 due2 transcript1 transcript2,
         LiveCaptionsApp.timers a !! id1
         = Some (due1, DebounceFire sessionId transcript1) →
         LiveCaptionsApp.timers a !! id2
         = Some (due2, DebounceFire sessionId transcript2) →
         id1 = id2)
      ∧ (∀ sessionId id1 id2 due1 due2 user1 user2,
           LiveCaptionsApp.timers a !! id1
           = Some (due1, InactivityFire sessionId user1) →
           LiveCaptionsApp.timers a !! id2
           = Some (due2, InactivityFire sessionId user2) →
           id1 = id2)
      ∧ (∀ userId processor,
           LiveCaptionsApp.userTranscriptProcessors a !! userId = Some processor →
           historyOk processor
           ∧ TranscriptProcessor.maxFinalTranscripts processor = MAX_FINAL_TRANSCRIPTS)
  | _ => False
  end.
Proof.
  destruct (LiveCaptionsApp.handleTranscription latinRunCut noPinyin 50 100 "s" "u"
              (mkData (JString (lit "hello wor")) false "en-US") emptyApp)
    as [a| |] eqn:E; [|vm_compute in E; discriminate..].
  apply (reachable_one_timer_of_each_kind latinRunCut noPinyin localeEnUS a).
  eapply reach_transcription; [|exact E].
  by apply reach_start.
Defined.

(** ** The last partial transcript, the cleaning of a display, and what a
    stopped session still shows *)

Section MoreFacts.

Variable cut : str → list str.

Lemma processString_lastUserTranscript fuel p newText isFinal p' out :
  TranscriptProcessor.processString cut fuel p newText isFinal = Returns (p', out) →
  TranscriptProcessor.getLastUserTranscript p'
  = if isFinal then TranscriptProcessor.getLastUserTranscript p
    else match newText with JString s => trim s | _ => [] end.
Proof.
  unfold TranscriptProcessor.processString, TranscriptProcessor.getLastUserTranscript.
  intros H.
  destruct newText as [| |s]; [|done|]; destruct isFinal; cbn [negb] in H;
    apply renderLines_returns in H as (wrapped & _ & -> & _);
    cbn [TranscriptProcessor.lastUserTranscript
         TranscriptProcessor.set_currentDisplayLines
         TranscriptProcessor.set_lastUserTranscript
         TranscriptProcessor.set_partialText]; try done;
    unfold TranscriptProcessor.addToTranscriptHistory;
    by destruct (str_eqb _ _).
Qed.

Lemma processAll_finals_lastUserTranscript fuel (events : list (JsText * bool)) :
  ∀ p p' outs,
    Forall (λ e, e.2 = true) events →
    processAll cut fuel events p = Returns (p', outs) →
    TranscriptProcessor.getLastUserTranscript p'
    = TranscriptProcessor.getLastUserTranscript p.
Proof.
  induction events as [|[text isFinal] rest IH]; intros p p' outs Hall H.
  - by inversion H.
  - rewrite processAll_cons in H.
    destruct (TranscriptProcessor.processString cut fuel p text isFinal)
      as [[p1 out]| |] eqn:E; [|done..].
    destruct (processAll cut fuel rest p1) as [[p2 outs2]| |] eqn:E2; [|done..].
    inversion H; subst p2 outs; clear H.
    apply Forall_cons in Hall as [Hf Hall]. cbn in Hf. subst isFinal.
    rewrite (IH _ _ _ Hall E2).
    by rewrite (processString_lastUserTranscript _ _ _ _ _ _ E).
Qed.

Lemma punctuation_not_whitespace c :
  isWhiteSpace c = true → LiveCaptionsApp.isLeadingPunctuation c = false.
Proof.
  intros Hws. unfold LiveCaptionsApp.isLeadingPunctuation.
  repeat match goal with
         | |- context [(c =? ?k)%N] =>
             destruct (N.eqb_spec c k) as [->|_]; [by vm_compute in Hws|]
         end.
  reflexivity.
Qed.

(** Timers that fire show nothing for a session none of whose timers is
    pending, and leave none of its timers pending. *)
Lemma fireTimer_other_sessions sid now id a :
  (∀ id due callback,
     LiveCaptionsApp.timers a !! id = Some (due, callback) →
     (∀ transcript, callback ≠ DebounceFire sid transcript)
     ∧ (∀ user, callback ≠ InactivityFire sid user)) →
  (∀ id' due callback,
     LiveCaptionsApp.timers (LiveCaptionsApp.fireTimer now id a) !! id'
     = Some (due, callback) →
     (∀ transcript, callback ≠ DebounceFire sid transcript)
     ∧ (∀ user, callback ≠ InactivityFire sid user))
  ∧ (∀ e, e ∈ LiveCaptionsApp.shown (LiveCaptionsApp.fireTimer now id a) →
          e ∈ LiveCaptionsApp.shown a ∨ e.1 ≠ sid).
Proof.
  intros Hno. unfold LiveCaptionsApp.fireTimer.
  destruct (LiveCaptionsApp.timers a !! id) as [[due0 cb]|] eqn:Ht;
    [|split; [done|by left]].
  destruct (due0 <=? now)%Z; [|split; [done|by left]].
  destruct (Hno _ _ _ Ht) as [Hnd Hni].
  destruct cb as [sid' tr|sid' uid']; cbn [LiveCaptionsApp.runCallback].
  - unfold LiveCaptionsApp.writeDebouncer, LiveCaptionsApp.showTranscriptsToUser,
      LiveCaptionsApp.showTextWall.
    cbn [LiveCaptionsApp.timers LiveCaptionsApp.shown LiveCaptionsApp.set_debouncers
         LiveCaptionsApp.set_shown LiveCaptionsApp.set_timers].
    split.
    + intros id' due cb H. apply lookup_delete_Some in H as [_ H]. by apply (Hno id' due).
    + intros e He. apply elem_of_app in He as [He|He]; [by left|].
      apply list_elem_of_singleton in He as ->. right. cbn.
      intros ->. by apply (Hnd tr).
  - cbn [LiveCaptionsApp.userTranscriptProcessors LiveCaptionsApp.set_timers].
    destruct (LiveCaptionsApp.userTranscriptProcessors a !! uid');
      unfold LiveCaptionsApp.showTextWall;
      cbn [LiveCaptionsApp.timers LiveCaptionsApp.shown LiveCaptionsApp.set_processors
           LiveCaptionsApp.set_shown LiveCaptionsApp.set_timers].
    + split.
      * intros id' due cb H. apply lookup_delete_Some in H as [_ H].
        by apply (Hno id' due).
      * intros e He. apply elem_of_app in He as [He|He]; [by left|].
        apply list_elem_of_singleton in He as ->. right. cbn.
        intros ->. by apply (Hni uid').
    + split; [|by left].
      intros id' due cb H. apply lookup_delete_Some in H as [_ H].
      by apply (Hno id' due).
Qed.

End MoreFacts.

(** X25. [getLastUserTranscript] answers the trimmed text of the last
    partial event, not of the last event: final transcripts processed
    after it leave it as it is, and when no partial event came it still is
    what it was before. *)
Theorem lastUserTranscript_is_last_partial
    (cut : str → list str) (fuel : nat) (events : list (JsText * bool))
    (p p' : TranscriptProcessor.t) (outs : list str) :
  processAll cut fuel events p = Returns (p', outs) →
  (Forall (λ e, e.2 = true) events →
   TranscriptProcessor.getLastUserTranscript p'
   = TranscriptProcessor.getLastUserTranscript p)
  ∧ (∀ before text after,
       events = before ++ [(text, false)] ++ after →
       Forall (λ e, e.2 = true) after →
       TranscriptProcessor.getLastUserTranscript p'
       = match text with JString s => trim s | _ => [] end).
Proof.
  intros H. split.
  - intros Hall. by apply (processAll_finals_lastUserTranscript cut fuel events _ _ outs).
  - intros before text after -> Hall. revert p outs H.
    induction before as [|[t f] before IH]; intros p outs H.
    + change ([] ++ [(text, false)] ++ after) with ((text, false) :: after) in H.
      rewrite processAll_cons in H.
      destruct (TranscriptProcessor.processString cut fuel p text false)
        as [[p1 out]| |] eqn:E; [|done..].
      destruct (processAll cut fuel after p1) as [[p2 outs2]| |] eqn:E2; [|done..].
      inversion H; subst p2 outs; clear H.
      rewrite (processAll_finals_lastUserTranscript cut _ _ _ _ _ Hall E2).
      by rewrite (processString_lastUserTranscript cut _ _ _ _ _ _ E).
    + change (((t, f) :: before) ++ [(text, false)] ++ after)
        with ((t, f) :: (before ++ [(text, false)] ++ after)) in H.
      rewrite processAll_cons in H.
      destruct (TranscriptProcessor.processString cut fuel p t f)
        as [[p1 out]| |] eqn:E; [|done..].
      destruct (processAll cut fuel (before ++ [(text, false)] ++ after) p1)
        as [[p2 outs2]| |] eqn:E2; [|done..].
      inversion H; subst p2 outs; clear H.
      by apply (IH p1 outs2).
Qed.

Lemma lastUserTranscript_is_last_partial_witness :
  match processAll latinRunCut 20
          [(JString (lit " good mor "), false); (JString (lit "good morning"), true)]
          (TranscriptProcessor.new 10 2 30 false) with
  | Returns (p', _) => TranscriptProcessor.getLastUserTranscript p' = lit "good mor"
  | _ => False
  end.
Proof.
  destruct (processAll latinRunCut 20
              [(JString (lit " good mor "), false); (JString (lit "good morning"), true)]
              (TranscriptProcessor.new 10 2 30 false))
    as [[p' outs]| |] eqn:E; [|vm_compute in E; discriminate..].
  apply (proj2 (lastUserTranscript_is_last_partial latinRunCut 20 _ _ _ _ E)
           [] (JString (lit " good mor ")) [(JString (lit "good morning"), true)]);
    [reflexivity|].
  by repeat constructor.
Defined.

(** X26. What [cleanTranscriptText] returns is trimmed and is a part of the
    text, with the same visible units as the text without its leading
    punctuation.  The punctuation is removed only where the text begins
    with it: for a text that begins with anything else, whitespace
    included, cleaning is [trim], and punctuation behind leading
    whitespace stays. *)
Theorem cleanTranscriptText_shape (text : str) :
  trim (LiveCaptionsApp.cleanTranscriptText text) = LiveCaptionsApp.cleanTranscriptText text
  ∧ isInfix (LiveCaptionsApp.cleanTranscriptText text) text
  ∧ visible (LiveCaptionsApp.cleanTranscriptText text)
    = visible (dropWhile LiveCaptionsApp.isLeadingPunctuation text)
  ∧ (∀ c rest, text = c :: rest →
       LiveCaptionsApp.isLeadingPunctuation c = false ∨ isWhiteSpace c = true →
       LiveCaptionsApp.cleanTranscriptText text = trim text).
Proof.
  split; [apply trim_idem|]. split; [apply clean_isInfix|].
  split; [apply visible_trim|].
  intros c rest -> Hc. unfold LiveCaptionsApp.cleanTranscriptText.
  assert (LiveCaptionsApp.isLeadingPunctuation c = false) as Hp.
  { destruct Hc as [Hc|Hc]; [done|by apply punctuation_not_whitespace]. }
  cbn [dropWhile]. by rewrite Hp.
Qed.

Lemma cleanTranscriptText_shape_witness :
  LiveCaptionsApp.cleanTranscriptText (lit " ...hello ") = lit "...hello".
Proof.
  rewrite (proj2 (proj2 (proj2 (cleanTranscriptText_shape (lit " ...hello "))))
             32%N (lit "...hello ") eq_refl (or_intror eq_refl)).
  reflexivity.
Defined.

(** X27. Once [onStop] has run, no timer shows anything for the session any
    more: when the pending timers of the session were the ones its
    debouncer and inactivity entry held, whatever timers the event loop
    fires afterwards, every display added is one of another session. *)
Theorem no_display_after_onStop
    (sessionId userId : string) (s : LiveCaptionsServer.t) (fires : list (Z * nat)) :
  debounceTimersOwned sessionId (LiveCaptionsServer.app s) →
  inactivityTimersOwned sessionId (LiveCaptionsServer.app s) →
  ∀ e,
    e ∈ LiveCaptionsApp.shown
          (foldl (λ a f, LiveCaptionsApp.fireTimer f.1 f.2 a)
             (LiveCaptionsServer.app (LiveCaptionsServer.onStop sessionId userId s))
             fires) →
    e ∈ LiveCaptionsApp.shown (LiveCaptionsServer.app s) ∨ e.1 ≠ sessionId.
Proof.
  intros Hdeb Hina.
  destruct (onStop_state sessionId userId s Hdeb Hina)
    as (Htimers & _ & _ & _ & _ & _ & Hshown).
  cbv zeta in Htimers, Hshown.
  set (a1 := LiveCaptionsServer.app (LiveCaptionsServer.onStop sessionId userId s)) in *.
  assert (∀ id due callback,
            LiveCaptionsApp.timers a1 !! id = Some (due, callback) →
            (∀ transcript, callback ≠ DebounceFire sessionId transcript)
            ∧ (∀ user, callback ≠ InactivityFire sessionId user)) as Hno.
  { intros id due cb H. by destruct (Htimers _ _ _ H) as (_ & ? & ?). }
  rewrite <- Hshown. clear Htimers Hshown. clearbody a1. revert a1 Hno.
  induction fires as [|[now id] fires IH]; intros a1 Hno e He; [by left|].
  cbn [foldl fst snd] in He.
  destruct (fireTimer_other_sessions sessionId now id a1 Hno) as [Hno' Hsh].
  destruct (IH _ Hno' e He) as [H|H]; [|by right].
  by apply Hsh.
Qed.

Lemma no_display_after_onStop_witness :
  Forall
    (λ e, e ∈ LiveCaptionsApp.shown
                (LiveCaptionsApp.debounceAndShowTranscript 100 "s" (lit "hel") false
                   emptyApp)
          ∨ e.1 ≠ "s"%string)
    (LiveCaptionsApp.shown
       (foldl (λ a f, LiveCaptionsApp.fireTimer f.1 f.2 a)
          (LiveCaptionsServer.app
             (LiveCaptionsServer.onStop "s" "u"
                (LiveCaptionsServer.mk
                   (LiveCaptionsApp.debounceAndShowTranscript 100 "s" (lit "hel")
                      false emptyApp) ∅)))
          [(500%Z, 0); (50000%Z, 1)])).
Proof.
  apply Forall_forall.
  apply (no_display_after_onStop "s" "u"
           (LiveCaptionsServer.mk
              (LiveCaptionsApp.debounceAndShowTranscript 100 "s" (lit "hel") false
                 emptyApp) ∅) [(500%Z, 0); (50000%Z, 1)]).
  - apply debounce_nonfinal_owned.
    intros id due c H. unfold emptyApp in H. simpl in H. by rewrite lookup_empty in H.
  - apply debounce_inactivity_owned.
    intros id due u H. unfold emptyApp in H. simpl in H. by rewrite lookup_empty in H.
Defined.

(** ** The processors in every state the handlers reach *)

Section HandledStates.

Variable cut : str → list str.
Variable pinyinOfChinese : str → str.
Variable languageToLocale : string → string.

Lemma handleTranscription_processorsOk fuel now sid uid data a a' :
  LiveCaptionsApp.handleTranscription cut pinyinOfChinese fuel now sid uid data a
  = Returns a' →
  processorsOk a → processorsOk a'.
Proof.
  intros H Hok.
  apply handleTranscription_returns in H
    as (p & newText & p' & out & a1 & Hp & E & Ha1 & _ & ->).
  intros u q. rewrite debounce_processors, Ha1.
  intros Hq. apply lookup_insert_Some in Hq as [[_ <-]|[_ Hq]]; [|by apply (Hok u)].
  assert (historyOk p
          ∧ TranscriptProcessor.maxFinalTranscripts p = MAX_FINAL_TRANSCRIPTS)
    as [Hh Hcap].
  { destruct Hp as [Hp|[_ ->]]; [by apply (Hok uid)|].
    split; [apply historyOk_new|done]. }
  split; [by apply (processString_historyOk cut _ _ _ _ _ _ E)|].
  by apply processString_state in E as (_ & _ & _ & -> & _).
Qed.

Lemma applySettings_processorsOk fuel sid uid settings a a' :
  LiveCaptionsApp.applySettings cut languageToLocale fuel sid uid settings a
  = Returns a' →
  processorsOk a → processorsOk a'.
Proof.
  intros H Hok.
  destruct (applySettings_state_sound cut languageToLocale fuel sid uid settings a)
    as [_ Hs].
  destruct (Hs a' H) as ((np & Hnp & _ & _ & Hcap & Hh) & Hother & _).
  intros u q Hq. destruct (decide (u = uid)) as [->|Hne].
  - rewrite Hnp in Hq. by inversion Hq; subst.
  - rewrite (Hother u Hne) in Hq. by apply (Hok u).
Qed.

Lemma fireTimer_processorsOk now id a :
  processorsOk a → processorsOk (LiveCaptionsApp.fireTimer now id a).
Proof.
  intros Hok u q Hq. unfold LiveCaptionsApp.fireTimer in Hq.
  destruct (LiveCaptionsApp.timers a !! id) as [[due cb]|]; [|by apply (Hok u)].
  destruct (due <=? now)%Z; [|by apply (Hok u)].
  destruct cb as [sid tr|sid uid]; simpl in Hq; [by apply (Hok u)|].
  destruct (LiveCaptionsApp.userTranscriptProcessors a !! uid) as [tp|] eqn:Htp;
    simpl in Hq; [|by apply (Hok u)].
  apply lookup_insert_Some in Hq as [[_ <-]|[_ Hq]]; [|by apply (Hok u)].
  destruct (Hok uid tp Htp) as [_ Hcap].
  split; [|done]. split; [constructor|simpl; lia].
Qed.

Lemma onStop_processors sid uid s :
  LiveCaptionsApp.userTranscriptProcessors
    (LiveCaptionsServer.app (LiveCaptionsServer.onStop sid uid s))
  = delete uid (LiveCaptionsApp.userTranscriptProcessors (LiveCaptionsServer.app s)).
Proof.
  unfold LiveCaptionsServer.onStop.
  cbn [LiveCaptionsServer.app LiveCaptionsApp.userTranscriptProcessors
       LiveCaptionsApp.set_languages LiveCaptionsApp.set_processors
       LiveCaptionsApp.set_inactivity].
  f_equal.
  repeat match goal with
         | |- context [match ?x with _ => _ end] => destruct x
         end; reflexivity.
Qed.

(** Whatever the handlers did, sessions started twice included, every
    processor holds trimmed, non-blank entries within the capacity 30. *)
Lemma handled_processorsOk s :
  handled cut pinyinOfChinese languageToLocale s →
  processorsOk (LiveCaptionsServer.app s).
Proof.
  induction 1 as [s Hp|s fuel now sid uid settings s' _ IH H|s sid uid _ IH
                  |s fuel now sid uid data a' _ IH H
                  |s fuel sid uid settings a' _ IH H|s now id _ IH].
  - intros u p H. by rewrite Hp, lookup_empty in H.
  - apply onSession_state in H
      as (processor & locale & Hp & _ & _ & _ & _ & _ & _ & _ & _ & _ & Hcap & Hh).
    intros u q. rewrite Hp. intros Hq.
    apply lookup_insert_Some in Hq as [[_ <-]|[_ Hq]]; [done|by apply (IH u)].
  - intros u q. rewrite onStop_processors. intros Hq.
    apply lookup_delete_Some in Hq as [_ Hq]. by apply (IH u).
  - by apply (handleTranscription_processorsOk _ _ _ _ _ _ _ H).
  - by apply (applySettings_processorsOk _ _ _ _ _ _ H).
  - by apply fireTimer_processorsOk.
Qed.

End HandledStates.

(** ** The Chinese branch on texts whose words fit *)

Lemma drop_isInfix (k : nat) (s : str) : isInfix (drop k s) s.
Proof. exists (take k s), []. by rewrite app_nil_r, take_drop. Qed.

(** X4. In Chinese mode with a positive width, [wrapText] returns for a
    text, within [length text + 1] iterations, when no piece of the text
    that has a Chinese character and is longer than the width starts, as
    the segmenter cuts it, with an empty word or a word longer than the
    width: then every iteration removes at least one unit.  (A text with a
    run longer than the width that the segmenter keeps as one word does not
    meet this; it is the text on which the loop does not end.) *)
Theorem wrapText_chinese_returns_when_words_fit
    (cut : str → list str) (p : TranscriptProcessor.t) (text : str) (w : nat) :
  0 < w →
  TranscriptProcessor.isChinese p = true →
  firstWordFits cut w text →
  ∃ wrapped, ∀ fuel, length text < fuel →
    TranscriptProcessor.wrapText cut fuel p text w = Some wrapped.
Proof.
  intros Hw Hp Hfits.
  assert (∀ fuel, length text < fuel →
            (TranscriptProcessor.wrapLoop cut fuel (TranscriptProcessor.isChinese p)
               w text []).2 = true) as Hends.
  { intros fuel Hfuel. rewrite Hp.
    apply (wrapLoop_ends_inv cut (λ t, isInfix t text)); [|apply isInfix_refl|done].
    intros t Ht Hlen. split.
    - unfold TranscriptProcessor.splitIndexOf, ChineseUtils.findChineseWordBoundary.
      destruct (ChineseUtils.isChinese t) eqn:Hch; simpl; [|lia].
      specialize (Hfits t Ht Hch Hlen).
      destruct (cut t) as [|first rest]; simpl; [lia|].
      destruct (Nat.ltb_spec w (length first)); [lia|].
      etrans; [|apply boundaryLoop_ge; lia]. lia.
    - eapply isInfix_trans; [apply trim_isInfix|].
      eapply isInfix_trans; [apply drop_isInfix|exact Ht]. }
  destruct (wrapLoop_ended_wrapText cut (S (length text)) p text w) as [wrapped H];
    [apply Hends; lia|].
  exists wrapped. intros fuel Hfuel.
  apply (wrapText_more_fuel cut (S (length text))); [lia|done].
Qed.

Lemma wrapText_chinese_returns_when_words_fit_witness :
  ∃ wrapped,
    (∀ fuel, 9 < fuel →
       TranscriptProcessor.wrapText latinRunCut fuel
         (TranscriptProcessor.new 4 3 30 true)
         ([0x6211; 0x4eec; 0x559c; 0x6b22]%N ++ lit "abc" ++ [0x5b66; 0x4e60]%N) 4
       = Some wrapped)
    ∧ wrapped
      = [[0x6211; 0x4eec; 0x559c; 0x6b22]%N; lit "abc" ++ [0x5b66]%N; [0x4e60]%N].
Proof.
  destruct (wrapText_chinese_returns_when_words_fit latinRunCut
              (TranscriptProcessor.new 4 3 30 true)
              ([0x6211; 0x4eec; 0x559c; 0x6b22]%N ++ lit "abc" ++ [0x5b66; 0x4e60]%N) 4)
    as [wrapped H]; [lia|reflexivity| |].
  - intros piece (before & after & Hpiece) _ Hlen.
    vm_compute in Hpiece. fold (@app N) in Hpiece.
    repeat (destruct before as [|? before];
            [|cbn [app] in Hpiece;
              first [discriminate Hpiece|injection Hpiece as ? Hpiece; subst]]).
    all: cbn [app] in Hpiece.
    all: repeat (destruct piece as [|? piece];
                 [|cbn [app] in Hpiece;
                   first [discriminate Hpiece|injection Hpiece as ? Hpiece; subst]]).
    all: cbn [length] in Hlen; try lia.
    all: vm_compute; try lia; exact I.
  - exists wrapped. split; [exact H|].
    pose proof (H 20 ltac:(cbn; lia)) as H20. vm_compute in H20.
    by injection H20 as <-.
Defined.
